(** * Grid clustering of maptalks.ClusterLayer (src/index.js)

    A shallow embedding of the clustering engine of the canvas renderer:
    [_initGridSystem], [_computeGrid], [_computeZoomGrid], [_mergeClusters],
    [_distanceTo], the renderer's [identify], [draw] and the layer's
    [addGeometry].

    Numbers.  The coordinates, resolutions and radii are exact rationals
    ([Q]), and the arithmetic on them is exact: the rounding, the overflow
    and the underflow of binary64 are not modelled.  The statements below
    are therefore about the structure of the result (which cells exist,
    which are merged into which, what is counted, cached and drawn), and
    none asserts the last digit of a sum, of a centre or of a distance.  A
    cell index [Math.floor (d / r)] is an integer, or, when the cell size
    [r] is zero, one of [Infinity], [-Infinity] and [NaN] ([Idx]); the sum
    [gx + ii] that names a neighbouring cell is the binary64 sum, which is
    exact up to [2^53] in magnitude and rounds beyond.  A level
    the map has no resolution for is represented by resolution [0], which
    the truthiness test of [_computeZoomGrid] treats like [undefined].

    Objects.  A property name [gx + '_' + gy] is the pair [(gx, gy)]; a JS
    object used as a dictionary and walked with [for .. in] is the list of
    its property names in insertion order (no such name is an array index,
    so that is the order of the walk).  Every grid cell object is
    created under its own name in [grids], so that name is also its address
    in the heap of cell objects: [clusterMap], [merging] and [parent] hold
    such addresses, which keeps the sharing the code relies on.  A marker
    is the record of what the renderer reads from it, the extent object it
    caches included; [_initGridSystem] changes that object, and
    [markers_after_initGridSystem] gives the markers as it leaves them. *)

From Stdlib Require Import ZArith QArith Qround Qminmax Reals Qreals Lia Psatz.
From stdpp Require Import gmap strings list.

(** ** Coordinates, geometries and the point index *)

(** The value of [Math.floor (d / r)]. *)
Inductive Idx := Finite (z : Z) | PosInfinity | NegInfinity | NaN.

Abbreviation Key := (Idx * Idx)%type.

#[global] Instance Idx_eq_dec : EqDecision Idx.
Proof. solve_decision. Defined.

#[global] Instance Idx_countable : Countable Idx.
Proof.
  refine (inj_countable'
            (λ g, match g with
                  | Finite z => inl z
                  | PosInfinity => inr 0%nat
                  | NegInfinity => inr 1%nat
                  | NaN => inr 2%nat
                  end)
            (λ s, match s with
                  | inl z => Finite z
                  | inr 0%nat => PosInfinity
                  | inr 1%nat => NegInfinity
                  | inr _ => NaN
                  end) _).
  by intros [].
Defined.

(** [Math.floor (d / r)], the quotient being exact: dividing by zero gives
    an infinity, or [NaN] for [0 / 0]. *)
Definition floor_div (d r : Q) : Idx :=
  if Qeq_bool r 0 then
    if Qle_bool d 0 then (if Qle_bool 0 d then NaN else NegInfinity)
    else PosInfinity
  else Finite (Qfloor (d / r)).

(** The binary64 number nearest to an integer, a tie going to the even
    significand: the integer itself up to [2^53] in magnitude, a multiple of
    [2^e] for an integer of [53 + e] bits, an infinity from [2^1024 - 2^970]
    on. *)
Definition nearest_double (z : Z) : Idx :=
  let a := Z.abs z in
  if (a <=? 2 ^ 53)%Z then Finite z
  else
    let e := (Z.log2 a - 52)%Z in
    let q := (a / 2 ^ e)%Z in
    let rest := (a mod 2 ^ e)%Z in
    let half := (2 ^ (e - 1))%Z in
    let m := if (rest <? half)%Z then q
             else if (half <? rest)%Z then (q + 1)%Z
             else if Z.even q then q else (q + 1)%Z in
    let v := (m * 2 ^ e)%Z in
    if (2 ^ 1024 <=? v)%Z
    then (if (0 <? z)%Z then PosInfinity else NegInfinity)
    else Finite (Z.sgn z * v).

(** [g + i] for an index read back from a key, in binary64: the infinities
    and [NaN] absorb the offset, and so does an integer too large for the
    offset to show ([2^53 + 1] is [2^53]). *)
Definition idx_add (g : Idx) (i : Z) : Idx :=
  match g with
  | Finite z => nearest_double (z + i)
  | _ => g
  end.

(** An index that is an integer below [2^53] in magnitude: adding [-1], [0]
    or [1] to it is exact. *)
Definition safe_idx (g : Idx) : bool :=
  match g with
  | Finite z => (Z.abs z <? 2 ^ 53)%Z
  | _ => false
  end.

Record Coordinate := mkCoordinate { cx : Q; cy : Q }.

(** [Coordinate._add] / [add]: component-wise sum. *)
Definition coord_add (a b : Coordinate) : Coordinate :=
  mkCoordinate (cx a + cx b)%Q (cy a + cy b)%Q.

(** [Coordinate.multi]: a scaled copy. *)
Definition multi (a : Coordinate) (k : Q) : Coordinate :=
  mkCoordinate (cx a * k)%Q (cy a * k)%Q.

Record Extent := mkExtent { xmin : Q; ymin : Q; xmax : Q; ymax : Q }.

Definition getMin (e : Extent) : Coordinate := mkCoordinate (xmin e) (ymin e).

Definition _combine (e1 e2 : Extent) : Extent :=
  mkExtent (Qmin (xmin e1) (xmin e2)) (Qmin (ymin e1) (ymin e2))
           (Qmax (xmax e1) (xmax e2)) (Qmax (ymax e1) (ymax e2)).

(** A marker of the layer: visibility, projected coordinates, internal id,
    its property bag (of which the numeric values are modelled) and the
    extent object it caches.
    maptalks computes the projected extent of a geometry on the first call of
    [_getPrjExtent], keeps the object in the field [_extent] of the geometry
    and returns that same object on every later call, until the position of
    the geometry changes; [None] stands for no cached extent. *)
Record Geometry := mkGeometry {
  isVisible : bool;
  _getPrjCoordinates : Coordinate;
  _getInternalId : nat;
  getProperties : option (gmap string Q);
  _extent : option Extent
}.

(** The projected extent of a marker: the cached object if there is one,
    else the marker's own position. *)
Definition _getPrjExtent (g : Geometry) : Extent :=
  match _extent g with
  | Some e => e
  | None => let c := _getPrjCoordinates g in mkExtent (cx c) (cy c) (cx c) (cy c)
  end.

Record MarkerPoint := mkMarkerPoint {
  px : Q; py : Q; pid : nat; geometry : Geometry
}.

Definition initGrid_step (acc : option Extent * list MarkerPoint) (g : Geometry)
  : option Extent * list MarkerPoint :=
  let '(extent, points) := acc in
  if isVisible g then
    let c := _getPrjCoordinates g in
    let extent' := match extent with
                   | None => _getPrjExtent g
                   | Some e => _combine e (_getPrjExtent g)
                   end in
    (Some extent', points ++ [mkMarkerPoint (cx c) (cy c) (_getInternalId g) g])
  else acc.

(** [_initGridSystem]: the extent and the points of the visible markers. *)
Definition _initGridSystem (geoList : list Geometry)
  : option Extent * list MarkerPoint :=
  foldl initGrid_step (None, []) geoList.

(** What [_initGridSystem] leaves in the markers.  [extent] starts as the
    object that the first visible marker caches, and [_combine] widens the
    object it is called on: after the loop that marker caches the extent of
    all the visible markers.  Every other visible marker caches the extent
    that [_getPrjExtent] returned for it. *)
Definition with_extent (e : Extent) (g : Geometry) : Geometry :=
  mkGeometry (isVisible g) (_getPrjCoordinates g) (_getInternalId g)
             (getProperties g) (Some e).

Definition cache_own_extent (g : Geometry) : Geometry :=
  if isVisible g then with_extent (_getPrjExtent g) g else g.

Fixpoint widen_first (total : Extent) (geoList : list Geometry) : list Geometry :=
  match geoList with
  | [] => []
  | g :: l =>
      if isVisible g then with_extent total g :: (cache_own_extent <$> l)
      else g :: widen_first total l
  end.

Definition markers_after_initGridSystem (geoList : list Geometry)
  : list Geometry :=
  match (_initGridSystem geoList).1 with
  | Some total => widen_first total geoList
  | None => geoList
  end.

(** ** Grid cells *)

Record Cluster := mkCluster {
  sum : Coordinate;
  center : Coordinate;
  count : nat;
  textSumProperty : Q;
  children : list Geometry;
  key : Key;
  parent : option Key   (* address of a cell object of the coarser level *)
}.

(** The object [grids]: its property names in insertion order, and the heap
    of the cell objects.  [delete grids[k]] removes the name only; the
    object stays reachable through [clusterMap] and [merging]. *)
Record Grids := mkGrids { names : list Key; heap : gmap Key Cluster }.

Definition grids_get (g : Grids) (k : Key) : option Cluster :=
  if bool_decide (k ∈ names g) then heap g !! k else None.

(** [{ clusters : grids, clusterMap : clusterMap }] *)
Record LevelResult := mkLevelResult {
  objects : gmap Key Cluster;
  clusters : list Key;
  clusterMap : gmap Key Key
}.

(** The clusters of a level, in [for .. in] order. *)
Definition cluster_list (lr : LevelResult) : list Cluster :=
  omap (λ k, objects lr !! k) (clusters lr).

(** The cluster a cell key resolves to through [clusterMap]. *)
Definition clusterMap_get (lr : LevelResult) (k : Key) : option Cluster :=
  clusterMap lr !! k ≫= λ a, objects lr !! a.

(** JS truthiness of a number. *)
Definition truthyQ (q : Q) : bool := negb (Qeq_bool q 0).

(** [Math.floor((x - min.x) / r) + '_' + Math.floor((y - min.y) / r)] *)
Definition cellKey (min : Coordinate) (r : Q) (x y : Q) : Key :=
  (floor_div (x - cx min) r, floor_div (y - cy min) r).

(** ** [_distanceTo] and the merge test

    [_distanceTo] is [Math.sqrt (x * x + y * y)]; over exact numbers the
    test [_distanceTo (c1, c2) <= r] is the test on the squares, for a
    radius that is not negative. *)
Definition _distanceTo_sq (c1 c2 : Coordinate) : Q :=
  let x := (cx c1 - cx c2)%Q in
  let y := (cy c1 - cy c2)%Q in
  (x * x + y * y)%Q.

Definition within (c1 c2 : Coordinate) (r : Q) : bool :=
  Qle_bool 0 r && Qle_bool (_distanceTo_sq c1 c2) (r * r)%Q.

(** ** Bucketing: the loop of [_computeZoomGrid] *)

Section Bucketing.
Variable sumProperty : option string.
Variable min : Coordinate.
Variable r : Q.
Variable preT : option Q.
Variable preCache : option LevelResult.

Definition sumProp_of (geo : Geometry) : Q :=
  match sumProperty, getProperties geo with
  | Some name, Some props =>
      match props !! name with
      | Some v => if truthyQ v then v else 0%Q
      | None => 0%Q
      end
  | _, _ => 0%Q
  end.

(** [grids[key]['parent'] = preCache['clusterMap'][pkey]], under
    [if (preT && preCache)]. *)
Definition parent_of (x y : Q) : option Key :=
  match preT, preCache with
  | Some t, Some pc =>
      if truthyQ t then clusterMap pc !! cellKey min t x y else None
  | _, _ => None
  end.

(** The object literal stored in [grids[key]] for the first point of a cell. *)
Definition new_cell (k : Key) (pt : MarkerPoint) : Cluster :=
  mkCluster (mkCoordinate (px pt) (py pt)) (mkCoordinate (px pt) (py pt))
            1 (sumProp_of (geometry pt)) [geometry pt] k
            (parent_of (px pt) (py pt)).

(** The [else] branch: one more point in an existing cell. *)
Definition add_point (c : Cluster) (pt : MarkerPoint) : Cluster :=
  let sum' := coord_add (sum c) (mkCoordinate (px pt) (py pt)) in
  let count' := S (count c) in
  mkCluster sum' (multi sum' (1 / inject_Z (Z.of_nat count'))%Q) count'
            (textSumProperty c + sumProp_of (geometry pt))%Q
            (children c ++ [geometry pt]) (key c) (parent c).

Definition bucket_point (g : Grids) (pt : MarkerPoint) : Grids :=
  let k := cellKey min r (px pt) (py pt) in
  match grids_get g k with
  | None => mkGrids (names g ++ [k]) (<[k := new_cell k pt]> (heap g))
  | Some c => mkGrids (names g) (<[k := add_point c pt]> (heap g))
  end.

Definition bucket (points : list MarkerPoint) : Grids :=
  foldl bucket_point (mkGrids [] ∅) points.
End Bucketing.

(** ** [_mergeClusters] *)

(** The eight adjacent cells, in the order of the loops over [ii], [iii]. *)
Definition neighbours : list (Z * Z) :=
  [(-1, -1); (-1, 0); (-1, 1); (0, -1); (0, 1); (1, -1); (1, 0); (1, 1)]%Z.

(** [merging[k].push(c2)], creating the array on first use. *)
Fixpoint merging_push (m : list (Key * list Key)) (k c2 : Key)
  : list (Key * list Key) :=
  match m with
  | [] => [(k, [c2])]
  | (k', l) :: m' =>
      if bool_decide (k' = k) then (k', l ++ [c2]) :: m'
      else (k', l) :: merging_push m' k c2
  end.

Record Scan := mkScan {
  merging : list (Key * list Key);
  visited : gset Key
}.

Section Merge.
Variable grids : Grids.
Variable r : Q.

(** One pass of the two inner loops: the neighbour at offset [d]. *)
Definition scan_neighbour (c1 : Cluster) (s : Scan) (d : Z * Z) : Scan :=
  let key2 := (idx_add (key c1).1 d.1, idx_add (key c1).2 d.2) in
  match grids_get grids key2 with
  | Some c2 =>
      if within (center c1) (center c2) r
      then mkScan (merging_push (merging s) (key c1) key2)
                  ({[key c2]} ∪ visited s)
      else s
  | None => s
  end.

(** One pass of the first [for (const p in grids)] loop. *)
Definition scan_cell (s : Scan) (p : Key) : Scan :=
  match grids_get grids p with
  | Some c1 =>
      if bool_decide (key c1 ∈ visited s) then s
      else foldl (scan_neighbour c1) s neighbours
  | None => s
  end.

Definition find_merging : Scan :=
  foldl scan_cell (mkScan [] ∅) (names grids).
End Merge.

Record Merge := mkMerge { m_grids : Grids; m_clusterMap : gmap Key Key }.

(** [grid] after the four updates that add [toMerge[i]] to it. *)
Definition merge_into (grid t : Cluster) : Cluster :=
  mkCluster (coord_add (sum grid) (sum t)) (center grid)
            (count grid + count t)
            (textSumProperty grid + textSumProperty t)%Q
            (children grid ++ children t) (key grid) (parent grid).

(** [grid['center'] = grid['sum'].multi(1 / grid['count'])] *)
Definition recentre (grid : Cluster) : Cluster :=
  mkCluster (sum grid)
            (multi (sum grid) (1 / inject_Z (Z.of_nat (count grid)))%Q)
            (count grid) (textSumProperty grid) (children grid)
            (key grid) (parent grid).

(** The body of the loop over [toMerge]: [a] is the address of
    [toMerge[i]], [m] the address of [grid]. *)
Definition absorb (m : Key) (st : Merge) (a : Key) : Merge :=
  let g := m_grids st in
  match heap g !! a with
  | None => st
  | Some t =>
      match grids_get g (key t), heap g !! m with
      | Some _, Some grid =>
          mkMerge (mkGrids (filter (λ k, k ≠ key t) (names g))
                           (<[m := merge_into grid t]> (heap g)))
                  (<[key t := m]> (m_clusterMap st))
      | _, _ => st
      end
  end.

(** The last statement of the loop over [merging]. *)
Definition recenter (m : Key) (st : Merge) : Merge :=
  let g := m_grids st in
  match heap g !! m with
  | Some grid =>
      mkMerge (mkGrids (names g) (<[m := recentre grid]> (heap g)))
              (m_clusterMap st)
  | None => st
  end.

(** One pass of the loop [for (const m in merging)]. *)
Definition merge_entry (st : Merge) (e : Key * list Key) : Merge :=
  match grids_get (m_grids st) e.1 with
  | None => st
  | Some _ => recenter e.1 (foldl (absorb e.1) st e.2)
  end.

Definition _mergeClusters (grids : Grids) (r : Q) : LevelResult :=
  let clusterMap0 := foldl (λ cm p, <[p := p]> cm) (∅ : gmap Key Key) (names grids) in
  let s := find_merging grids r in
  let st := foldl merge_entry (mkMerge grids clusterMap0) (merging s) in
  mkLevelResult (heap (m_grids st)) (names (m_grids st)) (m_clusterMap st).

(** ** The map, the layer options and the level cache *)

Record Map := mkMap {
  getZoom : Z;
  getMinZoom : Z;
  getMaxZoom : Z;
  _getResolution : Z → Q
}.

Record Options := mkOptions {
  maxClusterRadius : Q;
  opt_textSumProperty : option string;
  noClusterWithOneMarker : bool;
  maxClusterZoom : option Z
}.

Abbreviation Cache := (gmap Z (option LevelResult)).

(** A cache entry that is a level result (neither [undefined] nor [null]). *)
Definition cache_get (cache : Cache) (z : Z) : option LevelResult :=
  match cache !! z with Some (Some lr) => Some lr | _ => None end.

Section ZoomGrid.
Variable map : Map.
Variable options : Options.
Variable markerExtent : option Extent.
Variable markerPoints : list MarkerPoint.

(** The cell size of a level. *)
Definition cellSize (zoom : Z) : Q :=
  (_getResolution map zoom * maxClusterRadius options)%Q.

Definition preT_of (zoom : Z) : option Q :=
  if truthyQ (_getResolution map (zoom - 1)) then Some (cellSize (zoom - 1))
  else None.

(** [_computeZoomGrid]; the recursion on [zoom - 1] stops below
    [getMinZoom], so [n] counts the levels down to it. *)
Fixpoint _computeZoomGrid_rec (n : nat) (cache : Cache) (zoom : Z)
  : Cache * option LevelResult :=
  match markerExtent with
  | None => (cache, None)
  | Some extent =>
      let r := cellSize zoom in
      let preT := preT_of zoom in
      let '(cache', preCache) :=
        match cache_get cache (zoom - 1) with
        | Some pc => (cache, Some pc)
        | None =>
            if (getMinZoom map <=? zoom - 1)%Z then
              match n with
              | S n' =>
                  let '(c1, pc) := _computeZoomGrid_rec n' cache (zoom - 1) in
                  (<[(zoom - 1)%Z := pc]> c1, pc)
              | O => (cache, None)
              end
            else (cache, None)
        end in
      let grids := bucket (opt_textSumProperty options) (getMin extent) r
                          preT preCache markerPoints in
      (cache', Some (_mergeClusters grids (r / 2)%Q))
  end.

Definition _computeZoomGrid (cache : Cache) (zoom : Z)
  : Cache * option LevelResult :=
  _computeZoomGrid_rec (Z.to_nat (zoom - getMinZoom map)) cache zoom.
End ZoomGrid.

(** ** The renderer: [_computeGrid], [draw], [identify] *)

Record Renderer := mkRenderer {
  _markerExtent : option Extent;
  _markerPoints : list MarkerPoint;     (* [[]] once deleted *)
  _clusterCache : option Cache;
  _clusterNeedRedraw : bool;
  _currentClusters : option (list Cluster);
  _markersToDraw : option (list Geometry)
}.

Inductive JsValue := JsUndefined | JsNumber (n : Z).

(** [a === b] *)
Definition strict_equals (a b : JsValue) : bool :=
  match a, b with
  | JsUndefined, JsUndefined => true
  | JsNumber x, JsNumber y => (x =? y)%Z
  | _, _ => false
  end.

(** A level result is the object literal [{ clusters, clusterMap }] built by
    [_mergeClusters]: reading its property [length] gives [undefined]. *)
Definition LevelResult_length (lr : LevelResult) : JsValue := JsUndefined.

Inductive Outcome (A : Type) := Ok (a : A) | Throw (msg : string).
Arguments Ok {A} a.
Arguments Throw {A} msg.

Inductive Identified :=
| IdCluster (c : Coordinate) (members : list Geometry)
| IdMarkers (hit : list Geometry)
| IdNull
| IdSuper.

Section Renderer.
Variable map : Map.
Variable options : Options.
Variable geoList : list Geometry.                 (* [layer._geoList] *)
(** Host services of the map and the sprite cache. *)
Variable inContainerExtent : Cluster → bool.
Variable coordinateToContainerPoint : Coordinate → Coordinate.
Variable _prjToContainerPoint : Coordinate → Coordinate.
Variable unproject : Coordinate → Coordinate.
Variable spriteWidth : Cluster → Q.
Variable _hitGeos : list Geometry → Coordinate → list Geometry.

Definition _clearDataCache (st : Renderer) : Renderer :=
  mkRenderer None [] None (_clusterNeedRedraw st)
             (_currentClusters st) (_markersToDraw st).

Definition _computeGrid (st : Renderer) : Renderer :=
  let zoom := getZoom map in
  let '(extent, points) :=
    match _markerExtent st with
    | Some e => (Some e, _markerPoints st)
    | None => _initGridSystem geoList
    end in
  let cache0 := default ∅ (_clusterCache st) in
  let pre :=
    if negb (Qle_bool (_getResolution map (getMinZoom map))
                      (_getResolution map (getMaxZoom map)))
    then (zoom - 1)%Z else (zoom + 1)%Z in
  let cache1 :=
    match cache_get cache0 pre with
    | Some lr =>
        if strict_equals (LevelResult_length lr)
                         (JsNumber (Z.of_nat (length geoList)))
        then <[zoom := Some lr]> cache0 else cache0
    | None => cache0
    end in
  let cache2 :=
    match cache_get cache1 zoom with
    | Some _ => cache1
    | None =>
        let '(c, res) := _computeZoomGrid map options extent points cache1 zoom in
        <[zoom := res]> c
    end in
  mkRenderer extent points (Some cache2) (_clusterNeedRedraw st)
             (_currentClusters st) (_markersToDraw st).

(** [_getClustersToDraw]: the markers drawn bare and the clusters drawn. *)
Definition clustersToDraw_step (acc : list Geometry * list Cluster) (c : Cluster)
  : list Geometry * list Cluster :=
  if (count c =? 1)%nat && noClusterWithOneMarker options then
    match children c with
    | marker :: _ => (acc.1 ++ [marker], acc.2)
    | [] => acc
    end
  else if inContainerExtent c then (acc.1, acc.2 ++ [c]) else acc.

Definition _getClustersToDraw (zoomClusters : option LevelResult)
  : list Geometry * list Cluster :=
  match zoomClusters with
  | Some lr => foldl clustersToDraw_step ([], []) (cluster_list lr)
  | None => ([], [])
  end.

Definition aboveMaxClusterZoom : bool :=
  match maxClusterZoom options with
  | Some mz => negb (mz =? 0)%Z && (mz <? getZoom map)%Z
  | None => false
  end.

Definition draw (st : Renderer) : Outcome Renderer :=
  if aboveMaxClusterZoom then
    Ok (mkRenderer (_markerExtent st) (_markerPoints st) (_clusterCache st)
                   (_clusterNeedRedraw st) None (Some geoList))
  else
    let st1 :=
      if _clusterNeedRedraw st then
        let st' := _computeGrid (_clearDataCache st) in
        mkRenderer (_markerExtent st') (_markerPoints st') (_clusterCache st')
                   false (_currentClusters st') (_markersToDraw st')
      else st in
    match _clusterCache st1 with
    | None => Throw "TypeError"
    | Some cache =>
        let toDraw := _getClustersToDraw (cache_get cache (getZoom map)) in
        Ok (mkRenderer (_markerExtent st1) (_markerPoints st1) (Some cache)
                       (_clusterNeedRedraw st1) (Some toDraw.2) (Some toDraw.1))
    end.

(** The [for] loop of [identify]: the first cluster whose sprite covers
    the point. *)
Fixpoint identify_scan (point : Coordinate) (cs : list Cluster) : option Cluster :=
  match cs with
  | [] => None
  | c :: cs' =>
      let pt := _prjToContainerPoint (center c) in
      let markerWidth := spriteWidth c in
      if within point pt markerWidth then Some c
      else identify_scan point cs'
  end.

Definition identify (st : Renderer) (coordinate : Coordinate) : Identified :=
  if aboveMaxClusterZoom then IdSuper
  else
    let hit :=
      match _currentClusters st with
      | Some cs => identify_scan (coordinateToContainerPoint coordinate) cs
      | None => None
      end in
    match hit with
    | Some c => IdCluster (unproject (center c)) (children c)
    | None =>
        match _markersToDraw st with
        | Some ms => IdMarkers (_hitGeos ms coordinate)
        | None => IdNull
        end
    end.
End Renderer.

(** ** [ClusterLayer.addGeometry] *)

Inductive Class := Marker | OtherClass.

Inductive JsVal :=
| VUndefined
| VNull
| VBoolean (b : bool)
| VNumber (q : Q)
| VString (s : string)
| VObject (cls : Class).

Definition js_truthy (v : JsVal) : bool :=
  match v with
  | VUndefined | VNull => false
  | VBoolean b => b
  | VNumber q => truthyQ q
  | VString s => negb (String.eqb s EmptyString)
  | VObject _ => true
  end.

(** [!v] is always a boolean. *)
Definition js_not (v : JsVal) : JsVal := VBoolean (negb (js_truthy v)).

(** [v instanceof C]: a primitive is an instance of no class. *)
Definition instanceof (v : JsVal) (C : Class) : bool :=
  match v, C with
  | VObject Marker, Marker => true
  | VObject OtherClass, OtherClass => true
  | _, _ => false
  end.

(** The argument of [addGeometry]: an array, or any other value (a
    geometry is an object without a property [length]). *)
Inductive MarkersArg := ArgArray (l : list JsVal) | ArgValue (v : JsVal).

(** The elements [s[0]], [s[1]], ... of a string. *)
Fixpoint chars (s : string) : list JsVal :=
  match s with
  | EmptyString => []
  | String a s' => VString (String a EmptyString) :: chars s'
  end.

Definition markers_at (l : list JsVal) (i : nat) : JsVal := nth i l VUndefined.

(** [for (i = 0; i <= len; i++) if (!markers[i] instanceof maptalks.Marker)],
    the operand of [instanceof] being [!markers[i]]. *)
Fixpoint check_loop (l : list JsVal) (i : nat) (todo : nat) : bool :=
  match todo with
  | O => false
  | S todo' =>
      if instanceof (js_not (markers_at l i)) Marker then true
      else check_loop l (S i) todo'
  end.

Section AddGeometry.
Variable Res : Type.
Variable super_addGeometry : MarkersArg → Res.

(** Reading [markers.length] raises a [TypeError] for [null] and
    [undefined]; it gives [undefined] for a boolean, a number and a
    geometry, and then [0 <= len] is false and the loop does not run. *)
Definition addGeometry (markers : MarkersArg) : Outcome Res :=
  match markers with
  | ArgValue VUndefined | ArgValue VNull => Throw "TypeError"
  | _ =>
      let thrown :=
        match markers with
        | ArgArray l => check_loop l 0 (S (length l))
        | ArgValue (VString s) => check_loop (chars s) 0 (S (length (chars s)))
        | ArgValue _ => false
        end in
      if thrown
      then Throw "Only a point(Marker) can be added into a ClusterLayer"
      else Ok (super_addGeometry markers)
  end.
End AddGeometry.

(** ** Notions used in the statements *)

(** A key made of two integers below [2^53] in magnitude: the keys of the
    eight cells around it are computed exactly. *)
Definition safe_key (k : Key) : Prop :=
  safe_idx k.1 = true ∧ safe_idx k.2 = true.

(** The cells of [grids] as objects: distinct property names, each naming
    a heap cell whose [key] field is that name. *)
Record wf_cells (g : Grids) : Prop := mk_wf_cells {
  wc_nodup : NoDup (names g);
  wc_key : ∀ k c, heap g !! k = Some c → key c = k;
  wc_heap : ∀ k, k ∈ names g → is_Some (heap g !! k)
}.

(** Well-formed [grids]: distinct property names made of integers below
    [2^53], each naming a heap cell whose [key] field is that name. *)
Record wf_grids (g : Grids) : Prop := mk_wf_grids {
  wf_nodup : NoDup (names g);
  wf_key : ∀ k c, heap g !! k = Some c → key c = k;
  wf_heap : ∀ k, k ∈ names g → is_Some (heap g !! k);
  wf_safe : ∀ k, k ∈ names g → safe_key k
}.

(** The points of an index all fall, for the cell size [r], in cells whose
    indices are integers below [2^53] in magnitude. *)
Definition safe_cells (min : Coordinate) (r : Q) (points : list MarkerPoint)
  : Prop :=
  Forall (λ pt, safe_key (cellKey min r (px pt) (py pt))) points.

#[global] Instance safe_key_dec (k : Key) : Decision (safe_key k).
Proof. unfold safe_key. apply _. Defined.

#[global] Instance safe_cells_dec (min : Coordinate) (r : Q)
    (points : list MarkerPoint) : Decision (safe_cells min r points).
Proof. unfold safe_cells. apply _. Defined.

(** [count] of the cell at an address ([0] if there is none). *)
Definition count_at (h : gmap Key Cluster) (k : Key) : nat :=
  from_option count 0%nat (h !! k).

Definition grids_count (g : Grids) : nat := sum_list_with (count_at (heap g)) (names g).

(** The sum of [count] over the clusters of a level. *)
Definition total_count (lr : LevelResult) : nat :=
  sum_list_with count (cluster_list lr).

(** [a] is one of the eight cells around [m]. *)
Definition adjacent (m a : Key) : Prop :=
  ∃ d, d ∈ neighbours ∧ a = (idx_add m.1 d.1, idx_add m.2 d.2).

(** [a] is a cell around [m] whose centre, before any merge, lies within
    [r] of the centre of [m]. *)
Definition near (grids : Grids) (r : Q) (m a : Key) : Prop :=
  ∃ c1 c2, grids_get grids m = Some c1 ∧ grids_get grids a = Some c2 ∧
           adjacent m a ∧ within (center c1) (center c2) r = true.

(** The array [merging[c1.key]] that the scan of the cells at the offsets
    [ds] around [c1] builds. *)
Definition hits_among (grids : Grids) (r : Q) (c1 : Cluster) (ds : list (Z * Z))
  : list Key :=
  omap (λ d, let key2 := (idx_add (key c1).1 d.1, idx_add (key c1).2 d.2) in
             match grids_get grids key2 with
             | Some c2 => if within (center c1) (center c2) r then Some key2 else None
             | None => None
             end) ds.

Definition hits_at (grids : Grids) (r : Q) (m : Key) : list Key :=
  match grids_get grids m with
  | Some c1 => hits_among grids r c1 neighbours
  | None => []
  end.

(** What the first loop of [_mergeClusters] has established once the cells
    [seen] are scanned. *)
Record scan_inv (grids : Grids) (r : Q) (seen : list Key) (s : Scan) : Prop :=
  mk_scan_inv {
  si_keys : sublist (merging s).*1 seen;
  si_hits : ∀ m l, (m, l) ∈ merging s →
            l = hits_at grids r m ∧ l ≠ [] ∧ m ∉ visited s;
  si_visited : ∀ a, a ∈ visited s ↔ ∃ m l, (m, l) ∈ merging s ∧ a ∈ l;
  si_seen : ∀ p, p ∈ seen →
            p ∈ visited s ∨ hits_at grids r p = [] ∨ p ∈ (merging s).*1
}.

(** The first property of [mg] whose array lists [k]. *)
Fixpoint owner (mg : list (Key * list Key)) (k : Key) : option Key :=
  match mg with
  | [] => None
  | (m, l) :: mg' => if bool_decide (k ∈ l) then Some m else owner mg' k
  end.

(** [x] comes before [y] in [l]. *)
Definition before (l : list Key) (x y : Key) : Prop :=
  ∃ l1 l2, l = l1 ++ x :: l2 ∧ y ∈ l2.

(** The cells that some array of [mg] lists. *)
Definition listed (mg : list (Key * list Key)) : gset Key :=
  ⋃ ((λ e, list_to_set e.2) <$> mg).

(** What the second loop of [_mergeClusters] maintains: [gone] are the
    cells deleted from [grids] so far, [keys] the property names of
    [merging]. *)
Record merge_inv (grids : Grids) (r : Q) (keys : list Key) (gone : gset Key)
    (st : Merge) : Prop := mk_merge_inv {
  mi_wf : wf_grids (m_grids st);
  mi_heap : ∀ k, k ∈ names grids → is_Some (heap (m_grids st) !! k);
  mi_names : ∀ k, k ∈ names (m_grids st) ↔ k ∈ names grids ∧ k ∉ gone;
  mi_self : ∀ k, k ∈ names (m_grids st) → m_clusterMap st !! k = Some k;
  mi_gone : ∀ k, k ∈ gone →
            ∃ m, m_clusterMap st !! k = Some m ∧ m ∈ keys ∧ near grids r m k;
  mi_dom : ∀ k, is_Some (m_clusterMap st !! k) → k ∈ names grids;
  mi_count : grids_count (m_grids st) = grids_count grids
}.

(** Equality of coordinates as rational numbers. *)
Definition coord_eq (a b : Coordinate) : Prop :=
  (cx a == cx b)%Q ∧ (cy a == cy b)%Q.

Definition coord_div (s : Coordinate) (n : nat) : Coordinate :=
  mkCoordinate (cx s / inject_Z (Z.of_nat n))%Q (cy s / inject_Z (Z.of_nat n))%Q.

(** The sum of the projected coordinates of some markers. *)
Definition members_sum (gs : list Geometry) : Coordinate :=
  foldr (λ g acc, coord_add (_getPrjCoordinates g) acc) (mkCoordinate 0 0) gs.

(** [center] is [sum / count]. *)
Definition centred (c : Cluster) : Prop :=
  coord_eq (center c) (coord_div (sum c) (count c)).

(** [sum] and [count] are those of the members. *)
Definition sums_members (c : Cluster) : Prop :=
  (1 ≤ count c)%nat ∧ count c = length (children c) ∧
  coord_eq (sum c) (members_sum (children c)).

(** A point of the index carries the coordinates of its marker. *)
Definition point_of_marker (pt : MarkerPoint) : Prop :=
  px pt = cx (_getPrjCoordinates (geometry pt)) ∧
  py pt = cy (_getPrjCoordinates (geometry pt)).

(** A property of every cell object. *)
Definition heap_all (P : Cluster → Prop) (h : gmap Key Cluster) : Prop :=
  ∀ k c, h !! k = Some c → P c.

(** [parent] is the entry of the coarser level's [clusterMap] for the cell
    that the first member of the cluster falls in at that level. *)
Definition parent_linked (min : Coordinate) (preT : option Q)
    (preCache : option LevelResult) (c : Cluster) : Prop :=
  ∃ g0 rest, children c = g0 :: rest ∧
    parent c = parent_of min preT preCache (cx (_getPrjCoordinates g0))
                                           (cy (_getPrjCoordinates g0)).

(** ** The claims that do not hold as stated, and example layers *)

(** "the counts of the clusters of a level add up to the number of
    indexed points". *)
Definition conserves_count (map : Map) (options : Options) (ext : Extent)
    (points : list MarkerPoint) (cache : Cache) (zoom : Z) : Prop :=
  ∃ lr, (_computeZoomGrid map options (Some ext) points cache zoom).2 = Some lr ∧
        total_count lr = length points.

(** "the keys of [clusterMap] include those of [clusters], and every key
    maps in [clusterMap] to a cluster that is in [clusters]". *)
Definition clusterMap_into_clusters (lr : LevelResult) : Prop :=
  (∀ k, k ∈ clusters lr → is_Some (clusterMap lr !! k)) ∧
  (∀ k a, clusterMap lr !! k = Some a → a ∈ clusters lr).

(** "parent is looked up, after merging, under the cell the cluster
    occupies at the coarser cell size": the cell of its centre. *)
Definition parent_from_merged_centre (map : Map) (options : Options)
    (ext : Extent) (points : list MarkerPoint) (cache : Cache) (zoom : Z) : Prop :=
  let result := _computeZoomGrid map options (Some ext) points cache zoom in
  ∀ lr c, result.2 = Some lr → c ∈ cluster_list lr →
    parent c = parent_of (getMin ext) (preT_of map options zoom)
                         (cache_get result.1 (zoom - 1))
                         (cx (center c)) (cy (center c)).

(** "a neighbouring cell is merged into the current cell exactly when
    their centres are within the radius". *)
Definition merged_exactly_when_within (grids : Grids) (r : Q) : Prop :=
  ∀ m k c1 c2,
    grids_get grids m = Some c1 → grids_get grids k = Some c2 → adjacent m k →
    (clusterMap (_mergeClusters grids r) !! k = Some m ↔
     within (center c1) (center c2) r = true).

(** "the type check never throws its error, and the call always falls
    through to the superclass". *)
Definition never_rejects (Res : Type) (super_addGeometry : MarkersArg → Res)
    (markers : MarkersArg) : Prop :=
  addGeometry Res super_addGeometry markers
  ≠ Throw "Only a point(Marker) can be added into a ClusterLayer" ∧
  addGeometry Res super_addGeometry markers = Ok (super_addGeometry markers).

(** "two runs of the pipeline on an identical point set and identical
    configuration give the same cluster keys, counts and centres, in the
    same order": the runs are those of [_computeGrid] on a renderer without
    data, the point sets those of two layers. *)
Definition same_point_set (geos1 geos2 : list Geometry) : Prop :=
  (λ g, (isVisible g, _getPrjCoordinates g, _getInternalId g, getProperties g))
    <$> geos1
  = (λ g, (isVisible g, _getPrjCoordinates g, _getInternalId g, getProperties g))
    <$> geos2.

Definition level_summary (level : option LevelResult)
  : list (Key * nat * Coordinate) :=
  match level with
  | Some lr => (λ c, (key c, count c, center c)) <$> cluster_list lr
  | None => []
  end.

Definition pipeline_deterministic_on (map : Map) (options : Options)
    (geos1 geos2 : list Geometry) : Prop :=
  same_point_set geos1 geos2 →
  ∀ st1 st2 cache1 cache2,
    _clusterCache (_computeGrid map options geos1 (_clearDataCache st1))
    = Some cache1 →
    _clusterCache (_computeGrid map options geos2 (_clearDataCache st2))
    = Some cache2 →
    level_summary (cache_get cache1 (getZoom map))
    = level_summary (cache_get cache2 (getZoom map)).

(** The level result without clusters. *)
Definition empty_level : LevelResult := mkLevelResult ∅ [] ∅.

Definition marker_at (x y : Q) (id : nat) : Geometry :=
  mkGeometry true (mkCoordinate x y) id None None.

(** A map with levels 0 to 3 whose resolution halves at each level. *)
Definition example_resolution (z : Z) : Q :=
  if (z =? 0)%Z then 4 else if (z =? 1)%Z then 2
  else if (z =? 2)%Z then 1 else if (z =? 3)%Z then 1 # 2 else 0.

Definition example_map (zoom : Z) : Map := mkMap zoom 0 3 example_resolution.

Definition example_options (radius : Q) : Options :=
  mkOptions radius None true None.

Definition fresh_renderer : Renderer := mkRenderer None [] None true None None.

(** A single marker. *)
Definition single_geos : list Geometry := [marker_at 0 0 0].
Definition single_extent : Extent := mkExtent 0 0 0 0.
Definition single_points : list MarkerPoint := (_initGridSystem single_geos).2.

(** Two markers [2^53] apart; with cell size 1 at level 2, the second one
    falls in the cell [2^53], which is its own neighbour: in binary64
    [2^53 + 1] is [2^53]. *)
Definition wide_geos : list Geometry :=
  [marker_at 0 0 0; marker_at (inject_Z (2 ^ 53)) 0 1].
Definition wide_extent : Extent := mkExtent 0 0 (inject_Z (2 ^ 53)) 0.
Definition wide_points : list MarkerPoint := (_initGridSystem wide_geos).2.

(** The same with two markers in the cells [2^53_0] and [2^53_1]. *)
Definition tall_geos : list Geometry :=
  [marker_at 0 0 0; marker_at (inject_Z (2 ^ 53)) (9 # 10) 1;
   marker_at (inject_Z (2 ^ 53)) (11 # 10) 2].
Definition tall_extent : Extent := mkExtent 0 0 (inject_Z (2 ^ 53)) (11 # 10).
Definition tall_points : list MarkerPoint := (_initGridSystem tall_geos).2.
Definition tall_grids : Grids :=
  bucket None (getMin tall_extent) 1 None None tall_points.

(** Scenario A of the specification: cell size 10 at level 2. *)
Definition scenarioA_geos : list Geometry :=
  [marker_at 0 0 0; marker_at 1 0 1; marker_at 100 100 2].
Definition scenarioA_extent : Extent := mkExtent 0 0 100 100.
Definition scenarioA_points : list MarkerPoint := (_initGridSystem scenarioA_geos).2.

(** Three markers in a row; cell size 2 at level 1 and 4 at level 0. *)
Definition row_geos : list Geometry :=
  [marker_at 0 0 0; marker_at (39 # 10) 0 1; marker_at (9 # 2) 0 2].
Definition row_extent : Extent := mkExtent 0 0 (9 # 2) 0.
Definition row_points : list MarkerPoint := (_initGridSystem row_geos).2.

(** Three markers around a cell corner, and two far ones fixing the
    extent; cell size 10. *)
Definition corner_geos : list Geometry :=
  [marker_at 9 9 0; marker_at 12 9 1; marker_at 13 13 2;
   marker_at 0 100 3; marker_at 100 0 4].
Definition corner_extent : Extent := mkExtent 0 0 100 100.
Definition corner_points : list MarkerPoint := (_initGridSystem corner_geos).2.
Definition corner_grids : Grids :=
  bucket None (getMin corner_extent) 10 None None corner_points.

(** A layer whose first marker is at (100, 100) and whose second is at the
    origin; the markers as a first indexing leaves them; the layer after
    the second marker is removed; and a layer that never held but the
    first marker. *)
Definition stale_geos : list Geometry := [marker_at 100 100 0; marker_at 0 0 1].
Definition stale_indexed : list Geometry := markers_after_initGridSystem stale_geos.
Definition stale_remaining : list Geometry :=
  filter (λ g, _getInternalId g ≠ 1%nat) stale_indexed.
Definition lone_geos : list Geometry := [marker_at 100 100 0].

(** Two markers far apart. *)
Definition far_geos : list Geometry := [marker_at 0 0 0; marker_at 100 100 1].

(** A renderer that drew [far_geos] at level 0 and is then asked for
    level 1. *)
Definition far_at_level0 : Renderer :=
  _computeGrid (example_map 0) (example_options 1) far_geos fresh_renderer.
Definition far_at_level1 : Renderer :=
  _computeGrid (example_map 1) (example_options 1) far_geos far_at_level0.

(** Two clusters on screen, the second one nearer to the origin than the
    first; every sprite is 40 wide. *)
Definition two_clusters : list Cluster :=
  [mkCluster (mkCoordinate 60 0) (mkCoordinate 30 0) 2 0
             [marker_at 20 0 0; marker_at 40 0 1] (Finite 0, Finite 0) None;
   mkCluster (mkCoordinate 0 0) (mkCoordinate 0 0) 2 0
             [marker_at (-1) 0 2; marker_at 1 0 3] (Finite 5, Finite 5) None].

Definition two_clusters_drawn : Renderer :=
  mkRenderer None [] None false (Some two_clusters) (Some []).

(** ** Members of cells and clusters *)

(** The children of the cell object at an address. *)
Definition children_at (h : gmap Key Cluster) (k : Key) : list Geometry :=
  from_option children [] (h !! k).

(** The members of the cells of [grids], cell by cell. *)
Definition grids_children (g : Grids) : list Geometry :=
  concat (children_at (heap g) <$> names g).

(** The members of the clusters of a level, cluster by cluster. *)
Definition level_children (lr : LevelResult) : list Geometry :=
  concat (children <$> cluster_list lr).

(** Every cell of [grids] is mapped to a cell object that has all the
    members the cell had before merging. *)
Definition keeps_members (grids : Grids) (st : Merge) : Prop :=
  ∀ k c0, k ∈ names grids → heap grids !! k = Some c0 →
    ∃ a c, m_clusterMap st !! k = Some a ∧ heap (m_grids st) !! a = Some c ∧
           children c0 ⊆ children c.

(** What the second loop of [_mergeClusters] keeps, whatever the keys of the
    cells are: the cells that are left are well formed, and in the order of
    [grids]. *)
Definition cells_kept (grids : Grids) (st : Merge) : Prop :=
  wf_cells (m_grids st) ∧ sublist (names (m_grids st)) (names grids).

(** ** The point index and the cells *)

(** A point of the index is a copy of the coordinates and the id of its
    marker. *)
Definition point_copies_marker (pt : MarkerPoint) : Prop :=
  px pt = cx (_getPrjCoordinates (geometry pt)) ∧
  py pt = cy (_getPrjCoordinates (geometry pt)) ∧
  pid pt = _getInternalId (geometry pt).

(** [e] is the bounding box of the points: it contains each of them, and
    its edges pass through some of them. *)
Definition bounding_box (e : Extent) (points : list MarkerPoint) : Prop :=
  (∀ pt, pt ∈ points →
     (xmin e <= px pt)%Q ∧ (px pt <= xmax e)%Q ∧
     (ymin e <= py pt)%Q ∧ (py pt <= ymax e)%Q) ∧
  (∃ pt, pt ∈ points ∧ (px pt == xmin e)%Q) ∧
  (∃ pt, pt ∈ points ∧ (py pt == ymin e)%Q) ∧
  (∃ pt, pt ∈ points ∧ (px pt == xmax e)%Q) ∧
  (∃ pt, pt ∈ points ∧ (py pt == ymax e)%Q).

(** The extent that [_getPrjExtent] gives for the marker is the marker's
    own position: the marker caches no extent, or one that no indexing has
    widened. *)
Definition extent_is_position (g : Geometry) : Prop :=
  _getPrjExtent g
  = mkExtent (cx (_getPrjCoordinates g)) (cy (_getPrjCoordinates g))
             (cx (_getPrjCoordinates g)) (cy (_getPrjCoordinates g)).

(** The cell that contains a cell of the grid twice as fine. *)
Definition idx_half (g : Idx) : Idx :=
  match g with
  | Finite z => Finite (z / 2)
  | _ => g
  end.

(** At the level [zoom], every visible marker of the layer falls in a cell
    with two integer indices below [2^53] in magnitude. *)
Definition safe_level (map : Map) (options : Options) (geoList : list Geometry)
    (zoom : Z) : Prop :=
  match (_initGridSystem geoList).1 with
  | Some ext =>
      safe_cells (getMin ext) (cellSize map options zoom) (_initGridSystem geoList).2
  | None => True
  end.

#[global] Instance safe_level_dec (map : Map) (options : Options)
    (geoList : list Geometry) (zoom : Z) :
  Decision (safe_level map options geoList zoom).
Proof. unfold safe_level. destruct (_initGridSystem geoList).1; apply _. Defined.

(** ** The level cache *)

(** The result of a level computed with an empty cache. *)
Definition level_from_scratch (map : Map) (options : Options) (ext : Extent)
    (points : list MarkerPoint) (z : Z) : option LevelResult :=
  (_computeZoomGrid map options (Some ext) points ∅ z).2.

(** Every level result in the cache is for a level at or above the minimum
    zoom, and is what computing that level with an empty cache gives. *)
Definition cache_coherent (map : Map) (options : Options) (ext : Extent)
    (points : list MarkerPoint) (cache : Cache) : Prop :=
  ∀ z lr, cache_get cache z = Some lr →
    (getMinZoom map ≤ z)%Z ∧ level_from_scratch map options ext points z = Some lr.

(** The index [_computeGrid] works with: the one the renderer has, or that
    of the layer when it has none. *)
Definition index_of (geoList : list Geometry) (st : Renderer)
  : option Extent * list MarkerPoint :=
  match _markerExtent st with
  | Some e => (Some e, _markerPoints st)
  | None => _initGridSystem geoList
  end.

(** ** The event handlers of the renderer

    The handlers are modelled on the clustering state; the calls they pass
    to the base renderer and the state of the animation are left out. *)

(** [this._clusterNeedRedraw = true] *)
Definition onGeometryShow (st : Renderer) : Renderer :=
  mkRenderer (_markerExtent st) (_markerPoints st) (_clusterCache st) true
             (_currentClusters st) (_markersToDraw st).

Definition onGeometryHide (st : Renderer) : Renderer :=
  mkRenderer (_markerExtent st) (_markerPoints st) (_clusterCache st) true
             (_currentClusters st) (_markersToDraw st).

Definition onGeometryAdd (st : Renderer) : Renderer :=
  mkRenderer (_markerExtent st) (_markerPoints st) (_clusterCache st) true
             (_currentClusters st) (_markersToDraw st).

Definition onGeometryRemove (st : Renderer) : Renderer :=
  mkRenderer (_markerExtent st) (_markerPoints st) (_clusterCache st) true
             (_currentClusters st) (_markersToDraw st).

Definition onGeometryPositionChange (st : Renderer) : Renderer :=
  mkRenderer (_markerExtent st) (_markerPoints st) (_clusterCache st) true
             (_currentClusters st) (_markersToDraw st).

Definition onRemove (st : Renderer) : Renderer := _clearDataCache st.

(** [layer.isEmpty()] *)
Definition isEmpty (geoList : list Geometry) : bool :=
  match geoList with [] => true | _ => false end.

Section Handlers.
Variable map : Map.
Variable options : Options.
Variable geoList : list Geometry.

Definition onSymbolChanged (st : Renderer) : Renderer :=
  _computeGrid map options geoList st.

(** [layerVisible] is [layer.isVisible()]. *)
Definition onZoomEnd (layerVisible : bool) (st : Renderer) : Renderer :=
  if isEmpty geoList || negb layerVisible then st
  else _computeGrid map options geoList st.

(** [ClusterLayer.getClusters], given the renderer of the layer if it has
    one. *)
Definition getClusters (renderer : option Renderer) : list Cluster :=
  match renderer with
  | Some st => default [] (_currentClusters st)
  | None => []
  end.
End Handlers.

(** The renderer after the first [draw] of Scenario A, every cluster being
    in view. *)
Definition scenarioA_drawn : Renderer :=
  match draw (example_map 2) (example_options 10) scenarioA_geos (λ _, true)
             fresh_renderer with
  | Ok st => st
  | Throw _ => fresh_renderer
  end.

(** ** Sequences of events

    What the map and the layer ask of the renderer, one call after the
    other.  Each call comes with the zoom of the map, the geometries of the
    layer and the clusters in view at that moment. *)

Inductive Event :=
| GeometryShow
| GeometryHide
| GeometryAdd
| GeometryRemove
| GeometryPositionChange
| SymbolChanged
| ZoomEnd (layerVisible : bool)
| Draw.

Definition is_geometry_event (ev : Event) : bool :=
  match ev with
  | GeometryShow | GeometryHide | GeometryAdd | GeometryRemove
  | GeometryPositionChange => true
  | _ => false
  end.

Record Moment := mkMoment {
  at_zoom : Z;
  layer_geos : list Geometry;
  in_view : Cluster → bool;
  event : Event
}.

(** The last moment of a history that starts after [p]. *)
Fixpoint last_moment (p : Moment) (trace : list Moment) : Moment :=
  match trace with
  | [] => p
  | m :: trace' => last_moment m trace'
  end.

(** A marker without the extent it caches. *)
Definition uncached (g : Geometry) : Geometry :=
  mkGeometry (isVisible g) (_getPrjCoordinates g) (_getInternalId g)
             (getProperties g) None.

(** From the moment [p] to the moment [m] the markers of the layer change
    only with a geometry event: without one they are the same markers,
    whatever extents they cache. *)
Definition layer_follows (p m : Moment) : Prop :=
  is_geometry_event (event m) = true ∨
  uncached <$> layer_geos m = uncached <$> layer_geos p.

Fixpoint layer_tracked (p : Moment) (trace : list Moment) : Prop :=
  match trace with
  | [] => True
  | m :: trace' => layer_follows p m ∧ layer_tracked m trace'
  end.

Definition layer_well_tracked (trace : list Moment) : Prop :=
  match trace with
  | [] => True
  | m :: trace' => layer_tracked m trace'
  end.

(** What the renderer keeps from one call to the next, for the layer
    [geos]: the order to recompute the grid, or a cache; and if no marker of
    the layer is visible, a cache without any level result, and no extent. *)
Definition settled (geos : list Geometry) (st : Renderer) : Prop :=
  _clusterNeedRedraw st = true ∨
  ∃ cache, _clusterCache st = Some cache ∧
    (Forall (λ g, isVisible g = false) geos →
     _markerExtent st = None ∧ ∀ z, cache_get cache z = None).

Section Lifecycle.
Variable minZoom maxZoom : Z.
Variable resolution : Z → Q.
Variable options : Options.

Definition map_at (zoom : Z) : Map := mkMap zoom minZoom maxZoom resolution.

Definition handle (m : Moment) (st : Renderer) : Outcome Renderer :=
  let map := map_at (at_zoom m) in
  match event m with
  | GeometryShow => Ok (onGeometryShow st)
  | GeometryHide => Ok (onGeometryHide st)
  | GeometryAdd => Ok (onGeometryAdd st)
  | GeometryRemove => Ok (onGeometryRemove st)
  | GeometryPositionChange => Ok (onGeometryPositionChange st)
  | SymbolChanged => Ok (onSymbolChanged map options (layer_geos m) st)
  | ZoomEnd v => Ok (onZoomEnd map options (layer_geos m) v st)
  | Draw => draw map options (layer_geos m) (in_view m) st
  end.

Fixpoint run (trace : list Moment) (st : Renderer) : Outcome Renderer :=
  match trace with
  | [] => Ok st
  | m :: trace' =>
      match handle m st with
      | Ok st' => run trace' st'
      | Throw msg => Throw msg
      end
  end.

(** [draw] has what it needs: the cache, or the order to compute it. *)
Definition drawable (st : Renderer) : Prop :=
  _clusterNeedRedraw st = true ∨ is_Some (_clusterCache st).
End Lifecycle.

(** A marker that is hidden. *)
Definition hidden (g : Geometry) : Geometry :=
  mkGeometry false (_getPrjCoordinates g) (_getInternalId g) (getProperties g)
             (_extent g).

(** A history: two far markers drawn at level 1, a zoom to level 2 that is
    reported while the layer is visible, and the two markers hidden; the
    markers cache their extents from the first draw on. *)
Definition hidden_history : list Moment :=
  [mkMoment 1 far_geos (λ _, true) Draw;
   mkMoment 2 (markers_after_initGridSystem far_geos) (λ _, true) (ZoomEnd true);
   mkMoment 2 (hidden <$> markers_after_initGridSystem far_geos) (λ _, true)
            GeometryHide;
   mkMoment 2 (hidden <$> markers_after_initGridSystem far_geos) (λ _, true)
            (ZoomEnd true)].

(** The [draw] that follows [hidden_history]. *)
Definition hidden_last_draw : Moment :=
  mkMoment 2 (hidden <$> markers_after_initGridSystem far_geos) (λ _, true) Draw.

(** ** What is drawn *)

(** The test of [_getClustersToDraw] for drawing the marker of a cluster
    instead of the cluster. *)
Definition drawn_bare (options : Options) (c : Cluster) : bool :=
  (count c =? 1)%nat && noClusterWithOneMarker options.

(** The clusters of a cache entry ([[]] for [null] or [undefined]). *)
Definition level_clusters (level : option LevelResult) : list Cluster :=
  from_option cluster_list [] level.

(** ** The parent lookup of [_drawClustersFrame]

    For a cluster [c] of [toClusters], the cluster of the level [z] of
    [parentClusters] that the frame moves [c] from: the entry of the
    [clusterMap] of the cached level [z] for the cell of the centre of
    [c]. *)
Definition frame_parent (map : Map) (options : Options) (st : Renderer) (z : Z)
    (c : Cluster) : Outcome (option Cluster) :=
  match _markerExtent st with
  | None => Throw "TypeError"
  | Some ext =>
      let r := (_getResolution map z * maxClusterRadius options)%Q in
      let min := getMin ext in
      let pkey := cellKey min r (cx (center c)) (cy (center c)) in
      match _clusterCache st with
      | None => Throw "TypeError"
      | Some cache =>
          Ok (match cache_get cache z with
              | Some lr => clusterMap_get lr pkey
              | None => None
              end)
      end
  end.

(** ** [ClusterLayer.fromJSON] and [toJSON] *)

Section Profile.
(** The layer objects, and the ids, options and geometry profiles that a
    layer profile carries. *)
Variable Layer Id Opts GeoJSON : Type.

Record LayerJSON := mkLayerJSON {
  json_type : JsVal;
  json_id : Id;
  json_options : Opts;
  json_geometries : option (list GeoJSON)
}.

Variable new_ClusterLayer : Id → Opts → Layer.
(** [maptalks.Geometry.fromJSON] builds a geometry, returns a falsy value,
    or throws. *)
Variable Geometry_fromJSON : GeoJSON → Outcome (option Class).
Variable super_addGeometry : Layer → MarkersArg → Layer.
Variable super_toJSON : Layer → LayerJSON.

(** [json['type'] !== 'ClusterLayer'] *)
Definition is_ClusterLayer (v : JsVal) : bool :=
  match v with
  | VString s => String.eqb s "ClusterLayer"
  | _ => false
  end.

(** One pass of the loop that pushes the geometries that
    [Geometry.fromJSON] returns; an exception ends the loop. *)
Definition parse_step (acc : Outcome (list JsVal)) (geoJSON : GeoJSON)
  : Outcome (list JsVal) :=
  match acc with
  | Throw msg => Throw msg
  | Ok geometries =>
      match Geometry_fromJSON geoJSON with
      | Throw msg => Throw msg
      | Ok (Some cls) => Ok (geometries ++ [VObject cls])
      | Ok None => Ok geometries
      end
  end.

Definition fromJSON (json : option LayerJSON) : Outcome (option Layer) :=
  match json with
  | None => Ok None
  | Some j =>
      if negb (is_ClusterLayer (json_type j)) then Ok None
      else
        let layer := new_ClusterLayer (json_id j) (json_options j) in
        match json_geometries j with
        | None => Throw "TypeError"
        | Some geoJSONs =>
            match foldl parse_step (Ok []) geoJSONs with
            | Throw msg => Throw msg
            | Ok geometries =>
                match addGeometry Layer (super_addGeometry layer)
                                  (ArgArray geometries) with
                | Ok layer' => Ok (Some layer')
                | Throw msg => Throw msg
                end
            end
        end
  end.

Definition toJSON (layer : Layer) : LayerJSON :=
  let json := super_toJSON layer in
  mkLayerJSON (VString "ClusterLayer") (json_id json) (json_options json)
              (json_geometries json).

(** [addMarker] *)
Definition addMarker (layer : Layer) (markers : MarkersArg) : Outcome Layer :=
  addGeometry Layer (super_addGeometry layer) markers.
End Profile.

(** A renderer that indexed [row_geos] and computed level 1, and with it
    level 0. *)
Definition row_at_level1 : Renderer :=
  _computeGrid (example_map 1) (example_options 1) row_geos fresh_renderer.

(** The levels 0 and 1 of [row_geos], and the first cluster of level 1,
    which is the marker at the origin alone. *)
Definition row_level0 : LevelResult :=
  default empty_level
    (level_from_scratch (example_map 1) (example_options 1) row_extent row_points 0).

Definition row_level1 : LevelResult :=
  default empty_level
    (level_from_scratch (example_map 1) (example_options 1) row_extent row_points 1).

Definition row_single : Cluster :=
  default (mkCluster (mkCoordinate 0 0) (mkCoordinate 0 0) 0 0 [] (NaN, NaN) None)
          (head (cluster_list row_level1)).

Arguments json_type {Id Opts GeoJSON} _.
Arguments json_id {Id Opts GeoJSON} _.
Arguments json_options {Id Opts GeoJSON} _.
Arguments json_geometries {Id Opts GeoJSON} _.
Arguments mkLayerJSON {Id Opts GeoJSON} _ _ _ _.
Arguments fromJSON {Layer Id Opts GeoJSON} _ _ _ _.
Arguments toJSON {Layer Id Opts GeoJSON} _ _.
Arguments parse_step {GeoJSON} _ _ _.
Arguments addMarker {Layer} _ _ _.

(** The points of the index that fall in the cell [k]. *)
Definition points_of_cell (min : Coordinate) (r : Q) (k : Key)
    (points : list MarkerPoint) : list MarkerPoint :=
  filter (λ pt, cellKey min r (px pt) (py pt) = k) points.

(** The cell object of [k] holds the points [mine], of which there is at
    least one: their markers in order, their number, and the parent looked
    up for the first of them. *)
Definition cell_holds (min : Coordinate) (preT : option Q)
    (preCache : option LevelResult) (k : Key) (mine : list MarkerPoint)
    (c : Cluster) : Prop :=
  key c = k ∧ children c = geometry <$> mine ∧ count c = length mine ∧
  ∃ pt0, head mine = Some pt0 ∧
         parent c = parent_of min preT preCache (px pt0) (py pt0).

(** * Verification *)

(** ** Sums over lists of names *)

Lemma sum_list_agree (f f' : Key → nat) (l : list Key) :
  (∀ j, j ∈ l → f' j = f j) → sum_list_with f' l = sum_list_with f l.
Proof.
  induction l as [|a l IH]; intros H; [done|]. simpl.
  rewrite H; [|by left]. rewrite IH; [done|]. intros j Hj. apply H. by right.
Qed.

Lemma sum_list_update (f f' : Key → nat) (l : list Key) (k : Key) :
  NoDup l → k ∈ l → (∀ j, j ≠ k → f' j = f j) →
  (sum_list_with f' l + f k = sum_list_with f l + f' k)%nat.
Proof.
  induction l as [|a l IH]; intros Hnd Hin Hoff; [by apply elem_of_nil in Hin|].
  apply NoDup_cons in Hnd as [Hnotin Hnd]. simpl.
  apply elem_of_cons in Hin as [->|Hin].
  - rewrite (sum_list_agree f f' l); [lia|].
    intros j Hj. apply Hoff. intros ->. done.
  - assert (a ≠ k) by (intros ->; done).
    rewrite (Hoff a); [|done]. specialize (IH Hnd Hin Hoff). lia.
Qed.

Lemma filter_ne_notin (l : list Key) (k : Key) :
  k ∉ l → filter (λ j, j ≠ k) l = l.
Proof.
  induction l as [|a l IH]; intros Hn; [done|].
  apply not_elem_of_cons in Hn as [Hne Hn].
  rewrite filter_cons_True; [by rewrite IH|done].
Qed.

Lemma sum_list_remove (f : Key → nat) (l : list Key) (k : Key) :
  NoDup l → k ∈ l →
  (sum_list_with f (filter (λ j, j ≠ k) l) + f k = sum_list_with f l)%nat.
Proof.
  induction l as [|a l IH]; intros Hnd Hin; [by apply elem_of_nil in Hin|].
  apply NoDup_cons in Hnd as [Hnotin Hnd].
  apply elem_of_cons in Hin as [->|Hin].
  - rewrite filter_cons_False; [|naive_solver].
    rewrite filter_ne_notin by done. simpl. lia.
  - assert (a ≠ k) by (intros ->; done).
    rewrite filter_cons_True by done. simpl.
    specialize (IH Hnd Hin). lia.
Qed.

(** ** Reading [grids] *)

Lemma grids_get_Some (g : Grids) (k : Key) (c : Cluster) :
  grids_get g k = Some c ↔ k ∈ names g ∧ heap g !! k = Some c.
Proof.
  unfold grids_get. case_bool_decide; split; try tauto; try done.
Qed.

Lemma wf_grids_cells (g : Grids) : wf_grids g → wf_cells g.
Proof. intros [Hnd Hkey Hheap _]. by split. Qed.

Lemma wf_grids_intro (g : Grids) :
  wf_cells g → (∀ k, k ∈ names g → safe_key k) → wf_grids g.
Proof. intros [Hnd Hkey Hheap] Hsafe. by split. Qed.

Lemma grids_get_None_cells (g : Grids) (k : Key) :
  wf_cells g → grids_get g k = None → k ∉ names g.
Proof.
  intros Hwf Hget Hin. unfold grids_get in Hget.
  rewrite bool_decide_eq_true_2 in Hget by done.
  destruct (wc_heap g Hwf k Hin) as [c Hc]. congruence.
Qed.

Lemma grids_get_is_Some (g : Grids) (k : Key) :
  wf_grids g → k ∈ names g → ∃ c, grids_get g k = Some c ∧ key c = k.
Proof.
  intros Hwf Hin. destruct (wf_heap g Hwf k Hin) as [c Hc].
  exists c. split; [by apply grids_get_Some | by eapply wf_key].
Qed.

Lemma count_insert_live (h : gmap Key Cluster) (l : list Key) (k : Key)
    (c c' : Cluster) :
  NoDup l → k ∈ l → h !! k = Some c →
  (sum_list_with (count_at (<[k := c']> h)) l + count c
   = sum_list_with (count_at h) l + count c')%nat.
Proof.
  intros Hnd Hin Hc.
  pose proof (sum_list_update (count_at h) (count_at (<[k := c']> h)) l k Hnd Hin)
    as Hupd.
  assert (count_at h k = count c) as <- by (unfold count_at; by rewrite Hc).
  assert (count_at (<[k := c']> h) k = count c') as <-
    by (unfold count_at; by rewrite lookup_insert_eq).
  apply Hupd. intros j Hj. unfold count_at. by rewrite lookup_insert_ne.
Qed.

(** ** Bucketing keeps [grids] well formed and counts every point once *)

Section BucketFacts.
Variable sumProperty : option string.
Variable min : Coordinate.
Variable r : Q.
Variable preT : option Q.
Variable preCache : option LevelResult.

Local Abbreviation step := (bucket_point sumProperty min r preT preCache).

Lemma bucket_point_cells (g : Grids) (pt : MarkerPoint) :
  wf_cells g → wf_cells (step g pt).
Proof.
  intros Hwf. unfold bucket_point.
  destruct (grids_get g _) as [c|] eqn:Hget.
  - apply grids_get_Some in Hget as [Hin Hc].
    destruct Hwf as [Hnd Hkey Hheap]. split; simpl.
    + done.
    + intros k c'. destruct (decide (cellKey min r (px pt) (py pt) = k)) as [<-|Hne].
      * rewrite lookup_insert_eq. intros [= <-]. simpl. by eapply Hkey.
      * rewrite lookup_insert_ne by done. apply Hkey.
    + intros k Hk. destruct (decide (cellKey min r (px pt) (py pt) = k)) as [<-|Hne].
      * rewrite lookup_insert_eq. by eexists.
      * rewrite lookup_insert_ne by done. by apply Hheap.
  - apply grids_get_None_cells in Hget; [|done].
    destruct Hwf as [Hnd Hkey Hheap]. split; simpl.
    + apply NoDup_app. split; [done|]. split; [|apply NoDup_singleton].
      intros k Hk ->%list_elem_of_singleton. done.
    + intros k c'. destruct (decide (cellKey min r (px pt) (py pt) = k)) as [<-|Hne].
      * rewrite lookup_insert_eq. by intros [= <-].
      * rewrite lookup_insert_ne by done. apply Hkey.
    + intros k Hk. destruct (decide (cellKey min r (px pt) (py pt) = k)) as [<-|Hne].
      * rewrite lookup_insert_eq. by eexists.
      * rewrite lookup_insert_ne by done. apply Hheap.
        apply elem_of_app in Hk as [Hk|Hk%list_elem_of_singleton]; done.
Qed.

Lemma bucket_point_names (g : Grids) (pt : MarkerPoint) (k : Key) :
  k ∈ names (step g pt) → k ∈ names g ∨ k = cellKey min r (px pt) (py pt).
Proof.
  unfold bucket_point. destruct (grids_get g _); simpl; [by left|].
  intros [Hk| ->%list_elem_of_singleton]%elem_of_app; [by left | by right].
Qed.

Lemma bucket_point_wf (g : Grids) (pt : MarkerPoint) :
  safe_key (cellKey min r (px pt) (py pt)) → wf_grids g → wf_grids (step g pt).
Proof.
  intros Hsafe Hwf. apply wf_grids_intro.
  - by apply bucket_point_cells, wf_grids_cells.
  - intros k [Hk| ->]%bucket_point_names; [by apply (wf_safe g Hwf)|done].
Qed.

Lemma bucket_point_count (g : Grids) (pt : MarkerPoint) :
  wf_cells g → grids_count (step g pt) = S (grids_count g).
Proof.
  intros Hwf. unfold bucket_point, grids_count.
  destruct (grids_get g _) as [c|] eqn:Hget; simpl.
  - apply grids_get_Some in Hget as [Hin Hc].
    pose proof (count_insert_live (heap g) (names g) _ c
      (add_point sumProperty c pt) (wc_nodup g Hwf) Hin Hc) as Hupd.
    simpl in Hupd. lia.
  - apply grids_get_None_cells in Hget; [|done].
    rewrite sum_list_with_app. simpl.
    unfold count_at at 2. rewrite lookup_insert_eq. simpl.
    rewrite (sum_list_agree (count_at (heap g))); [lia|].
    intros j Hj. unfold count_at. rewrite lookup_insert_ne; [done|].
    intros Heq. subst j. done.
Qed.

Lemma bucket_fold_cells (pts : list MarkerPoint) (g : Grids) :
  wf_cells g →
  wf_cells (foldl step g pts) ∧
  grids_count (foldl step g pts) = (grids_count g + length pts)%nat.
Proof.
  revert g. induction pts as [|pt pts IH]; intros g Hwf; simpl.
  - split; [done | lia].
  - destruct (IH (step g pt)) as [Hwf' Hcount]; [by apply bucket_point_cells|].
    split; [done|]. rewrite Hcount, bucket_point_count by done. lia.
Qed.

Lemma bucket_fold_wf (pts : list MarkerPoint) (g : Grids) :
  safe_cells min r pts → wf_grids g → wf_grids (foldl step g pts).
Proof.
  revert g. induction pts as [|pt pts IH]; intros g Hsafe Hwf; simpl; [done|].
  apply Forall_cons in Hsafe as [Hpt Hsafe].
  apply IH; [done|]. by apply bucket_point_wf.
Qed.

Lemma wf_cells_empty : wf_cells (mkGrids [] ∅).
Proof.
  split; simpl.
  - apply NoDup_nil_2.
  - intros k c. by rewrite lookup_empty.
  - intros k Hk. by apply elem_of_nil in Hk.
Qed.

Lemma wf_grids_empty : wf_grids (mkGrids [] ∅).
Proof.
  apply wf_grids_intro; [apply wf_cells_empty|].
  intros k Hk. by apply elem_of_nil in Hk.
Qed.

Lemma bucket_wf_cells (pts : list MarkerPoint) :
  wf_cells (bucket sumProperty min r preT preCache pts).
Proof. apply bucket_fold_cells, wf_cells_empty. Qed.

Lemma bucket_wf (pts : list MarkerPoint) :
  safe_cells min r pts → wf_grids (bucket sumProperty min r preT preCache pts).
Proof. intros Hsafe. by apply bucket_fold_wf; [|apply wf_grids_empty]. Qed.

Lemma bucket_count (pts : list MarkerPoint) :
  grids_count (bucket sumProperty min r preT preCache pts) = length pts.
Proof.
  unfold bucket.
  destruct (bucket_fold_cells pts (mkGrids [] ∅) wf_cells_empty) as [_ ->].
  done.
Qed.
End BucketFacts.

(** ** The neighbourhood relation *)

Lemma nearest_double_exact (z : Z) :
  (Z.abs z <= 2 ^ 53)%Z → nearest_double z = Finite z.
Proof.
  intros Hz. unfold nearest_double.
  by rewrite (proj2 (Z.leb_le _ _) Hz).
Qed.

Lemma safe_idx_Finite (g : Idx) :
  safe_idx g = true → ∃ z, g = Finite z ∧ (Z.abs z < 2 ^ 53)%Z.
Proof.
  destruct g as [z| | |]; simpl; try discriminate.
  intros Hz%Z.ltb_lt. by exists z.
Qed.

Lemma idx_add_safe (g : Idx) (i : Z) :
  safe_idx g = true → (-1 <= i <= 1)%Z →
  ∃ z, g = Finite z ∧ (Z.abs z < 2 ^ 53)%Z ∧ idx_add g i = Finite (z + i).
Proof.
  intros (z & -> & Hz)%safe_idx_Finite Hi. exists z. split; [done|].
  split; [done|]. simpl. apply nearest_double_exact. lia.
Qed.

Lemma neighbours_offsets (d : Z * Z) :
  d ∈ neighbours →
  (-1 <= d.1 <= 1)%Z ∧ (-1 <= d.2 <= 1)%Z ∧ (d.1 ≠ 0%Z ∨ d.2 ≠ 0%Z) ∧
  ((- d.1)%Z, (- d.2)%Z) ∈ neighbours.
Proof.
  unfold neighbours. rewrite !elem_of_cons, elem_of_nil.
  intros [->|[->|[->|[->|[->|[->|[->|[->|[]]]]]]]]]; simpl;
    (split; [lia|]); (split; [lia|]); (split; [lia|]); tauto.
Qed.

Lemma adjacent_sym (m a : Key) :
  safe_key m → safe_key a → adjacent m a → adjacent a m.
Proof.
  intros [Hm1 Hm2] [Ha1 Ha2] [d [Hd ->]].
  destruct (neighbours_offsets d Hd) as (Hd1 & Hd2 & _ & Hneg).
  destruct (idx_add_safe m.1 d.1 Hm1 Hd1) as (z1 & Hz1 & Hb1 & He1).
  destruct (idx_add_safe m.2 d.2 Hm2 Hd2) as (z2 & Hz2 & Hb2 & He2).
  simpl in Ha1, Ha2. rewrite He1 in Ha1. rewrite He2 in Ha2.
  exists ((- d.1)%Z, (- d.2)%Z). split; [done|]. simpl.
  rewrite He1, He2. simpl.
  apply Z.ltb_lt in Ha1, Ha2.
  rewrite !nearest_double_exact by lia.
  destruct m as [m1 m2]. simpl in *. subst m1 m2. f_equal; f_equal; lia.
Qed.

Lemma adjacent_irrefl (m : Key) : safe_key m → ¬ adjacent m m.
Proof.
  intros [Hm1 Hm2] [d [Hd Heq]].
  destruct (neighbours_offsets d Hd) as (Hd1 & Hd2 & Hnz & _).
  destruct (idx_add_safe m.1 d.1 Hm1 Hd1) as (z1 & Hz1 & _ & He1).
  destruct (idx_add_safe m.2 d.2 Hm2 Hd2) as (z2 & Hz2 & _ & He2).
  rewrite He1, He2 in Heq. destruct m as [m1 m2]. simpl in *. subst m1 m2.
  injection Heq as H1 H2. lia.
Qed.

Lemma distanceTo_sq_sym (c1 c2 : Coordinate) :
  (_distanceTo_sq c1 c2 == _distanceTo_sq c2 c1)%Q.
Proof. unfold _distanceTo_sq. ring. Qed.

Lemma within_sym (c1 c2 : Coordinate) (r : Q) :
  within c1 c2 r = within c2 c1 r.
Proof.
  unfold within. f_equal. apply eq_true_iff_eq.
  rewrite !Qle_bool_iff. by rewrite distanceTo_sq_sym.
Qed.

Lemma near_names (grids : Grids) (r : Q) (m a : Key) :
  near grids r m a → m ∈ names grids ∧ a ∈ names grids.
Proof.
  intros (c1 & c2 & H1 & H2 & _).
  apply grids_get_Some in H1 as [? _]. apply grids_get_Some in H2 as [? _]. done.
Qed.

Lemma near_sym (grids : Grids) (r : Q) (m a : Key) :
  wf_grids grids → near grids r m a → near grids r a m.
Proof.
  intros Hwf Hnear. destruct (near_names _ _ _ _ Hnear) as [Hm _].
  destruct Hnear as (c1 & c2 & H1 & H2 & Hadj & Hw).
  exists c2, c1. repeat split; try done.
  - destruct (near_names _ _ _ _ (ex_intro _ c1 (ex_intro _ c2
        (conj H1 (conj H2 (conj Hadj Hw)))))) as [_ Ha].
    apply adjacent_sym; [| |done]; by apply (wf_safe grids Hwf).
  - by rewrite within_sym.
Qed.

Lemma near_irrefl (grids : Grids) (r : Q) (m : Key) :
  wf_grids grids → ¬ near grids r m m.
Proof.
  intros Hwf Hnear. destruct (near_names _ _ _ _ Hnear) as [Hm _].
  destruct Hnear as (c1 & c2 & _ & _ & Hadj & _).
  eapply adjacent_irrefl; [|done]. by apply (wf_safe grids Hwf).
Qed.

Lemma elem_of_hits_among (grids : Grids) (r : Q) (c1 : Cluster) ds (a : Key) :
  a ∈ hits_among grids r c1 ds ↔
  ∃ d c2, d ∈ ds ∧ a = (idx_add (key c1).1 d.1, idx_add (key c1).2 d.2) ∧
          grids_get grids a = Some c2 ∧ within (center c1) (center c2) r = true.
Proof.
  unfold hits_among. rewrite list_elem_of_omap. split.
  - intros (d & Hd & Hsome). simpl in Hsome.
    destruct (grids_get grids _) as [c2|] eqn:Hget; [|done].
    destruct (within _ _ r) eqn:Hw; [|done].
    injection Hsome as <-. by exists d, c2.
  - intros (d & c2 & Hd & -> & Hget & Hw). exists d. split; [done|].
    simpl. by rewrite Hget, Hw.
Qed.

Lemma elem_of_hits_at (grids : Grids) (r : Q) (m a : Key) :
  wf_grids grids → a ∈ hits_at grids r m ↔ near grids r m a.
Proof.
  intros Hwf. unfold hits_at, near. split.
  - destruct (grids_get grids m) as [c1|] eqn:Hget; [|by intros ?%elem_of_nil].
    intros (d & c2 & Hd & -> & Hget2 & Hw)%elem_of_hits_among.
    assert (key c1 = m) as Hk.
    { apply grids_get_Some in Hget as [_ ?]. by eapply wf_key. }
    rewrite Hk in *. exists c1, c2. repeat split; try done. by exists d.
  - intros (c1 & c2 & Hget & Hget2 & [d [Hd ->]] & Hw). rewrite Hget.
    assert (key c1 = m) as Hk.
    { apply grids_get_Some in Hget as [_ ?]. by eapply wf_key. }
    apply elem_of_hits_among. exists d, c2. by rewrite Hk.
Qed.

(** ** The first loop of [_mergeClusters]: which cells it records *)

Lemma merging_push_fresh (m : list (Key * list Key)) (k a : Key) :
  k ∉ m.*1 → merging_push m k a = m ++ [(k, [a])].
Proof.
  induction m as [|[k' l] m IH]; intros Hk; simpl; [done|].
  rewrite fmap_cons in Hk. apply not_elem_of_cons in Hk as [Hne Hk]. simpl in Hne.
  rewrite bool_decide_eq_false_2 by done. by rewrite IH.
Qed.

Lemma merging_push_last (m : list (Key * list Key)) (k a : Key) (l : list Key) :
  k ∉ m.*1 → merging_push (m ++ [(k, l)]) k a = m ++ [(k, l ++ [a])].
Proof.
  induction m as [|[k' l'] m IH]; intros Hk; simpl.
  - by rewrite bool_decide_eq_true_2.
  - rewrite fmap_cons in Hk. apply not_elem_of_cons in Hk as [Hne Hk]. simpl in Hne.
    rewrite bool_decide_eq_false_2 by done. by rewrite IH.
Qed.

Lemma merging_push_more (m : list (Key * list Key)) (k : Key) (l0 l : list Key) :
  k ∉ m.*1 →
  foldl (λ acc a, merging_push acc k a) (m ++ [(k, l0)]) l = m ++ [(k, l0 ++ l)].
Proof.
  intros Hk. revert l0. induction l as [|b l IH]; intros l0; simpl.
  - by rewrite app_nil_r.
  - rewrite merging_push_last by done. rewrite IH.
    by rewrite <- (assoc_L (++) l0 [b] l).
Qed.

Lemma merging_push_all (m : list (Key * list Key)) (k : Key) (l : list Key) :
  k ∉ m.*1 → l ≠ [] →
  foldl (λ acc a, merging_push acc k a) m l = m ++ [(k, l)].
Proof.
  intros Hk Hl. destruct l as [|a l]; [done|]. simpl.
  rewrite merging_push_fresh by done. by rewrite merging_push_more.
Qed.

Section ScanFacts.
Variable grids : Grids.
Variable r : Q.
Hypothesis Hwf : wf_grids grids.

Lemma scan_neighbours_fold (c1 : Cluster) (ds : list (Z * Z)) (s : Scan) :
  foldl (scan_neighbour grids r c1) s ds
  = mkScan (foldl (λ acc a, merging_push acc (key c1) a) (merging s)
                  (hits_among grids r c1 ds))
           (list_to_set (hits_among grids r c1 ds) ∪ visited s).
Proof.
  revert s. induction ds as [|d ds IH]; intros s.
  - destruct s as [mg vis]. simpl. f_equal. by rewrite (left_id_L ∅ (∪)).
  - simpl. rewrite IH. unfold scan_neighbour at 1 2. unfold hits_among. simpl.
    destruct (grids_get grids _) as [c2|] eqn:Hget; [|done].
    destruct (within _ _ r) eqn:Hw; [|done]. simpl.
    assert (key c2 = (idx_add (key c1).1 d.1, idx_add (key c1).2 d.2)) as ->.
    { apply grids_get_Some in Hget as [_ ?]. by eapply wf_key. }
    f_equal. rewrite (assoc_L (∪)). f_equal. apply (comm_L (∪)).
Qed.

Lemma scan_cell_spec (s : Scan) (p : Key) :
  p ∈ names grids → p ∉ (merging s).*1 →
  scan_cell grids r s p
  = if bool_decide (p ∈ visited s) then s
    else match hits_at grids r p with
         | [] => s
         | l => mkScan (merging s ++ [(p, l)]) (list_to_set l ∪ visited s)
         end.
Proof.
  intros Hin Hfresh. unfold scan_cell, hits_at.
  destruct (grids_get_is_Some grids p Hwf Hin) as (c1 & -> & Hk).
  rewrite Hk. case_bool_decide; [done|].
  rewrite scan_neighbours_fold, Hk.
  destruct (hits_among grids r c1 neighbours) as [|a l] eqn:Hh.
  - destruct s as [mg vis]. simpl. f_equal. by rewrite (left_id_L ∅ (∪)).
  - by rewrite merging_push_all.
Qed.

Lemma scan_inv_nil : scan_inv grids r [] (mkScan [] ∅).
Proof.
  split; simpl.
  - done.
  - intros m l Hin. by apply elem_of_nil in Hin.
  - intros a. split; [set_solver|]. intros (m & l & Hin & _).
    by apply elem_of_nil in Hin.
  - intros p Hp. by apply elem_of_nil in Hp.
Qed.

Lemma scan_inv_step (seen : list Key) (s : Scan) (p : Key) :
  p ∈ names grids → p ∉ seen →
  scan_inv grids r seen s →
  scan_inv grids r (seen ++ [p]) (scan_cell grids r s p).
Proof.
  intros Hin Hnew [Hkeys Hhits Hvis Hseen].
  assert (p ∉ (merging s).*1) as Hfresh.
  { intros Hp. apply Hnew. by eapply elem_of_sublist. }
  rewrite scan_cell_spec by done.
  case_bool_decide as Hpv.
  { split; [by apply sublist_inserts_r|done|done|].
    intros q [Hq| ->%list_elem_of_singleton]%elem_of_app; [by apply Hseen | by left]. }
  destruct (hits_at grids r p) as [|a0 l0] eqn:Hh.
  { split; [by apply sublist_inserts_r|done|done|].
    intros q [Hq| ->%list_elem_of_singleton]%elem_of_app;
      [by apply Hseen | right; by left]. }
  assert (∀ a, a ∈ a0 :: l0 ↔ near grids r p a) as Hnear.
  { intros a. rewrite <- Hh. by apply elem_of_hits_at. }
  split; cbn [merging visited].
  - rewrite fmap_app. simpl. by apply sublist_app.
  - intros m l [Hml|Hml%list_elem_of_singleton]%elem_of_app.
    + destruct (Hhits m l Hml) as (Hl & Hne & Hmv). repeat split; try done.
      rewrite elem_of_union, elem_of_list_to_set. intros [Hm|Hm]; [|done].
      apply Hnear, near_sym in Hm; [|done]. apply Hpv, Hvis.
      exists m, l. split; [done|].
      rewrite Hl. by apply elem_of_hits_at.
    + injection Hml as -> ->. repeat split; try done.
      rewrite elem_of_union, elem_of_list_to_set. intros [Hm|Hm]; [|done].
      apply Hnear in Hm. by eapply (near_irrefl grids r p Hwf).
  - intros a. rewrite elem_of_union, elem_of_list_to_set, Hvis. split.
    + intros [Ha|(m & l & Hml & Ha)].
      * exists p, (a0 :: l0). split; [|done]. apply elem_of_app. right. by left.
      * exists m, l. split; [|done]. apply elem_of_app. by left.
    + intros (m & l & [Hml|Hml%list_elem_of_singleton]%elem_of_app & Ha).
      * right. by exists m, l.
      * injection Hml as -> ->. by left.
  - intros q [Hq| ->%list_elem_of_singleton]%elem_of_app.
    + destruct (Hseen q Hq) as [?|[?|?]].
      * left. apply elem_of_union. by right.
      * right. by left.
      * right. right. rewrite fmap_app. apply elem_of_app. by left.
    + right. right. rewrite fmap_app. apply elem_of_app. right. by left.
Qed.

Lemma scan_inv_fold (todo seen : list Key) (s : Scan) :
  NoDup (seen ++ todo) → (∀ p, p ∈ todo → p ∈ names grids) →
  scan_inv grids r seen s →
  scan_inv grids r (seen ++ todo) (foldl (scan_cell grids r) s todo).
Proof.
  revert seen s. induction todo as [|p todo IH]; intros seen s Hnd Hsub Hinv.
  - by rewrite app_nil_r.
  - simpl. replace (seen ++ p :: todo) with ((seen ++ [p]) ++ todo)
      by (by rewrite <- (assoc_L (++))).
    apply IH.
    + by rewrite <- (assoc_L (++)).
    + intros q Hq. apply Hsub. by right.
    + apply scan_inv_step; [apply Hsub; by left | | done].
      apply NoDup_app in Hnd as (_ & Hdisj & _). intros Hp.
      apply (Hdisj p Hp). by left.
Qed.

(** The state of the first loop when it ends. *)
Lemma find_merging_inv :
  scan_inv grids r (names grids) (find_merging grids r).
Proof.
  unfold find_merging.
  apply (scan_inv_fold (names grids) [] (mkScan [] ∅)); simpl.
  - by apply wf_nodup.
  - done.
  - apply scan_inv_nil.
Qed.
End ScanFacts.

(** ** The second loop of [_mergeClusters] *)

Section MergeFacts.
Variable grids : Grids.
Variable r : Q.
Variable keys : list Key.
Hypothesis Hwf : wf_grids grids.

Lemma absorb_inv (gone : gset Key) (st : Merge) (m a : Key) :
  merge_inv grids r keys gone st →
  m ∈ keys → m ∈ names (m_grids st) → near grids r m a →
  merge_inv grids r keys (gone ∪ {[a]}) (absorb m st a) ∧
  m ∈ names (m_grids (absorb m st a)) ∧
  m_clusterMap (absorb m st a)
  = if bool_decide (a ∈ gone) then m_clusterMap st
    else <[a := m]> (m_clusterMap st).
Proof.
  intros Hinv Hm Hlive Hnear.
  destruct Hinv as [Hwf' Hheap Hnames Hself Hgone Hdom Hcount].
  assert (a ≠ m) as Hne by (intros ->; by eapply (near_irrefl grids r m Hwf)).
  destruct (near_names _ _ _ _ Hnear) as [Hm0 Ha0].
  destruct (Hheap a Ha0) as [t Ht]. destruct (Hheap m Hm0) as [grid Hgrid].
  assert (key t = a) as Hkt by (by eapply wf_key).
  assert (key grid = m) as Hkg by (by eapply wf_key).
  unfold absorb. rewrite Ht, Hkt, Hgrid.
  destruct (grids_get (m_grids st) a) as [t'|] eqn:Hget.
  - (* [a] is still in [grids]: it is merged into [m] and deleted *)
    apply grids_get_Some in Hget as [Halive _].
    assert (a ∉ gone) as Hag by (by apply Hnames in Halive as [_ ?]).
    split; [|split; [simpl; apply list_elem_of_filter; by split|];
             simpl; by rewrite bool_decide_eq_false_2].
    split; simpl.
    + destruct Hwf' as [Hnd Hkey Hh Hfin]. split; simpl.
      * by apply NoDup_filter.
      * intros k c. destruct (decide (m = k)) as [<-|Hmk].
        -- rewrite lookup_insert_eq. by intros [= <-].
        -- rewrite lookup_insert_ne by done. apply Hkey.
      * intros k [_ Hk]%list_elem_of_filter.
        destruct (decide (m = k)) as [<-|Hmk].
        -- rewrite lookup_insert_eq. by eexists.
        -- rewrite lookup_insert_ne by done. by apply Hh.
      * intros k [_ Hk]%list_elem_of_filter. by apply Hfin.
    + intros k Hk. destruct (decide (m = k)) as [<-|Hmk].
      * rewrite lookup_insert_eq. by eexists.
      * rewrite lookup_insert_ne by done. by apply Hheap.
    + intros k. rewrite list_elem_of_filter, Hnames, elem_of_union,
        elem_of_singleton. tauto.
    + intros k [Hka Hk]%list_elem_of_filter.
      rewrite lookup_insert_ne by done. by apply Hself.
    + intros k [Hk| ->%elem_of_singleton]%elem_of_union.
      * destruct (Hgone k Hk) as (m' & Hcm & Hm' & Hn'). exists m'.
        rewrite lookup_insert_ne; [done|]. intros ->. done.
      * exists m. by rewrite lookup_insert_eq.
    + intros k. destruct (decide (a = k)) as [<-|Hak]; [done|].
      rewrite lookup_insert_ne by done. apply Hdom.
    + rewrite <- Hcount. unfold grids_count. simpl.
      pose proof (sum_list_remove (count_at (heap (m_grids st)))
                    (names (m_grids st)) a (wf_nodup _ Hwf') Halive) as Hrem.
      pose proof (count_insert_live (heap (m_grids st))
                    (filter (λ k, k ≠ a) (names (m_grids st))) m grid
                    (merge_into grid t)) as Hins.
      unfold count_at at 2 in Hrem. rewrite Ht in Hrem. simpl in *.
      rewrite <- Hrem. 
      assert (∀ x y z w : nat, (x + z = y + (z + w) → x = y + w)%nat) as Har by lia.
      apply (Har _ _ (count grid)). apply Hins; [|apply list_elem_of_filter|]; try done.
      by apply NoDup_filter, wf_nodup.
  - (* [a] was deleted before: nothing changes *)
    assert (a ∈ gone) as Hag.
    { destruct (decide (a ∈ gone)) as [|Hn]; [done|]. exfalso.
      assert (a ∈ names (m_grids st)) as Hal by (apply Hnames; by split).
      unfold grids_get in Hget. rewrite bool_decide_eq_true_2 in Hget by done.
      congruence. }
    split; [|split; [done|]; by rewrite bool_decide_eq_true_2].
    split; try done.
    + intros k. rewrite Hnames, elem_of_union, elem_of_singleton.
      split; [|tauto]. intros [? ?]. split; [done|]. intros [?| ->]; done.
    + intros k [Hk| ->%elem_of_singleton]%elem_of_union; by apply Hgone.
Qed.

Lemma absorb_fold_inv (l : list Key) (gone : gset Key) (st : Merge) (m : Key) :
  merge_inv grids r keys gone st →
  m ∈ keys → m ∈ names (m_grids st) → (∀ a, a ∈ l → near grids r m a) →
  merge_inv grids r keys (gone ∪ list_to_set l) (foldl (absorb m) st l) ∧
  m ∈ names (m_grids (foldl (absorb m) st l)) ∧
  ∀ k, m_clusterMap (foldl (absorb m) st l) !! k
       = if bool_decide (k ∈ gone) then m_clusterMap st !! k
         else if bool_decide (k ∈ l) then Some m
         else m_clusterMap st !! k.
Proof.
  revert gone st. induction l as [|a l IH]; intros gone st Hinv Hm Hlive Hnear.
  - cbn [foldl list_to_set]. rewrite (right_id_L ∅ (∪)).
    split; [done|]. split; [done|].
    intros k. case_bool_decide; [done|].
    rewrite bool_decide_eq_false_2; [done|]. by intros ?%elem_of_nil.
  - cbn [foldl list_to_set].
    destruct (absorb_inv gone st m a) as (Hinv' & Hlive' & Hcm'); try done.
    { apply Hnear. by left. }
    destruct (IH (gone ∪ {[a]}) (absorb m st a)) as (Hinv'' & Hlive'' & Hcm'');
      try done.
    { intros b Hb. apply Hnear. by right. }
    split; [by rewrite (assoc_L (∪))|]. split; [done|].
    intros k. rewrite Hcm'', Hcm'.
    destruct (decide (k ∈ gone)) as [Hkg|Hkg].
    + rewrite (bool_decide_eq_true_2 (k ∈ gone ∪ {[a]}))
        by (apply elem_of_union; by left).
      rewrite (bool_decide_eq_true_2 (k ∈ gone)) by done.
      case_bool_decide; [done|]. rewrite lookup_insert_ne; [done|].
      intros ->. done.
    + rewrite (bool_decide_eq_false_2 (k ∈ gone)) by done.
      destruct (decide (k = a)) as [->|Hka].
      * rewrite (bool_decide_eq_true_2 (a ∈ gone ∪ {[a]}))
          by (apply elem_of_union; right; by apply elem_of_singleton).
        rewrite (bool_decide_eq_false_2 (a ∈ gone)) by done.
        rewrite lookup_insert_eq.
        rewrite (bool_decide_eq_true_2 (a ∈ a :: l)) by (by left). done.
      * rewrite (bool_decide_eq_false_2 (k ∈ gone ∪ {[a]})).
        2:{ intros [?|?%elem_of_singleton]%elem_of_union; done. }
        assert (m_clusterMap st !! k
                = (if bool_decide (a ∈ gone) then m_clusterMap st
                   else <[a:=m]> (m_clusterMap st)) !! k) as <-.
        { case_bool_decide; [done|]. by rewrite lookup_insert_ne. }
        destruct (decide (k ∈ l)) as [Hkl|Hkl].
        -- rewrite (bool_decide_eq_true_2 (k ∈ l)) by done.
           rewrite (bool_decide_eq_true_2 (k ∈ a :: l)) by (by right). done.
        -- rewrite (bool_decide_eq_false_2 (k ∈ l)) by done.
           rewrite (bool_decide_eq_false_2 (k ∈ a :: l)); [done|].
           intros [?|?]%elem_of_cons; done.
Qed.

Lemma recenter_clusterMap (st : Merge) (m : Key) :
  m_clusterMap (recenter m st) = m_clusterMap st.
Proof. unfold recenter. by destruct (heap (m_grids st) !! m). Qed.

Lemma recenter_inv (gone : gset Key) (st : Merge) (m : Key) :
  merge_inv grids r keys gone st →
  merge_inv grids r keys gone (recenter m st).
Proof.
  intros Hinv. unfold recenter.
  destruct (heap (m_grids st) !! m) as [grid|] eqn:Hgrid; [|done].
  destruct Hinv as [Hwf' Hheap Hnames Hself Hgone Hdom Hcount].
  split; simpl; try done.
  - destruct Hwf' as [Hnd Hkey Hh Hfin]. split; simpl; [done| | |done].
    + intros k c. destruct (decide (m = k)) as [<-|Hmk].
      * rewrite lookup_insert_eq. intros [= <-]. simpl. by eapply Hkey.
      * rewrite lookup_insert_ne by done. apply Hkey.
    + intros k Hk. destruct (decide (m = k)) as [<-|Hmk].
      * rewrite lookup_insert_eq. by eexists.
      * rewrite lookup_insert_ne by done. by apply Hh.
  - intros k Hk. destruct (decide (m = k)) as [<-|Hmk].
    + rewrite lookup_insert_eq. by eexists.
    + rewrite lookup_insert_ne by done. by apply Hheap.
  - rewrite <- Hcount. unfold grids_count. simpl. apply sum_list_agree.
    intros j _. unfold count_at. destruct (decide (m = j)) as [<-|Hmj].
    + by rewrite lookup_insert_eq, Hgrid.
    + by rewrite lookup_insert_ne.
Qed.

Lemma merge_entry_inv (gone : gset Key) (st : Merge) (m : Key) (l : list Key) :
  merge_inv grids r keys gone st →
  m ∈ keys → m ∈ names grids → m ∉ gone → (∀ a, a ∈ l → near grids r m a) →
  merge_inv grids r keys (gone ∪ list_to_set l) (merge_entry st (m, l)) ∧
  ∀ k, m_clusterMap (merge_entry st (m, l)) !! k
       = if bool_decide (k ∈ gone) then m_clusterMap st !! k
         else if bool_decide (k ∈ l) then Some m
         else m_clusterMap st !! k.
Proof.
  intros Hinv Hm Hm0 Hmg Hnear.
  assert (m ∈ names (m_grids st)) as Hlive by (by apply (mi_names _ _ _ _ _ Hinv)).
  unfold merge_entry. simpl.
  destruct (grids_get_is_Some _ m (mi_wf _ _ _ _ _ Hinv) Hlive) as (c & -> & _).
  destruct (absorb_fold_inv l gone st m) as (Hinv' & _ & Hcm); try done.
  split; [by apply recenter_inv|]. intros k. by rewrite recenter_clusterMap.
Qed.

Lemma elem_of_listed (mg : list (Key * list Key)) (k : Key) :
  k ∈ listed mg ↔ ∃ m l, (m, l) ∈ mg ∧ k ∈ l.
Proof.
  unfold listed. rewrite elem_of_union_list. split.
  - intros (X & [[m l] [-> Hin]]%list_elem_of_fmap & Hk).
    exists m, l. split; [done|]. by apply elem_of_list_to_set in Hk.
  - intros (m & l & Hin & Hk). exists (list_to_set l). split.
    + apply list_elem_of_fmap. by exists (m, l).
    + by apply elem_of_list_to_set.
Qed.

Lemma merge_fold_inv (mg : list (Key * list Key)) (gone vis : gset Key) (st : Merge) :
  merge_inv grids r keys gone st →
  gone ⊆ vis →
  (∀ m l, (m, l) ∈ mg →
     m ∈ keys ∧ m ∈ names grids ∧ (m ∉ vis) ∧
     (∀ a, a ∈ l → near grids r m a ∧ a ∈ vis)) →
  merge_inv grids r keys (gone ∪ listed mg) (foldl merge_entry st mg) ∧
  ∀ k, m_clusterMap (foldl merge_entry st mg) !! k
       = if bool_decide (k ∈ gone) then m_clusterMap st !! k
         else match owner mg k with
              | Some m => Some m
              | None => m_clusterMap st !! k
              end.
Proof.
  revert gone st. induction mg as [|[m l] mg IH]; intros gone st Hinv Hsub Hmg.
  - simpl. unfold listed. simpl. rewrite (right_id_L ∅ (∪)).
    split; [done|]. intros k. by case_bool_decide.
  - simpl. destruct (Hmg m l) as (Hm & Hm0 & Hmv & Hl); [by left|].
    unfold listed. rewrite fmap_cons, union_list_cons, (assoc_L (∪)). simpl.
    destruct (merge_entry_inv gone st m l) as [Hinv' Hcm']; try done.
    { intros Hg. apply Hmv. by apply Hsub. }
    { intros a Ha. by apply Hl. }
    destruct (IH (gone ∪ list_to_set l) (merge_entry st (m, l))) as [Hinv'' Hcm''].
    + done.
    + intros k [Hk|Hk%elem_of_list_to_set]%elem_of_union; [by apply Hsub|].
      by apply Hl.
    + intros m' l' Hin. apply Hmg. by right.
    + split; [done|]. intros k. rewrite Hcm'', Hcm'.
      destruct (decide (k ∈ gone)) as [Hkg|Hkg].
      * rewrite (bool_decide_eq_true_2 (k ∈ gone ∪ list_to_set l))
          by (apply elem_of_union; by left).
        by rewrite (bool_decide_eq_true_2 (k ∈ gone)).
      * rewrite (bool_decide_eq_false_2 (k ∈ gone)) by done.
        destruct (decide (k ∈ l)) as [Hkl|Hkl].
        -- rewrite (bool_decide_eq_true_2 (k ∈ gone ∪ list_to_set l))
             by (apply elem_of_union; right; by apply elem_of_list_to_set).
           by rewrite !(bool_decide_eq_true_2 (k ∈ l)).
        -- rewrite (bool_decide_eq_false_2 (k ∈ gone ∪ list_to_set l)).
           2:{ intros [?|?%elem_of_list_to_set]%elem_of_union; done. }
           by rewrite !(bool_decide_eq_false_2 (k ∈ l)).
Qed.

Lemma clusterMap0_lookup (l : list Key) (cm : gmap Key Key) (k : Key) :
  (foldl (λ cm p, <[p := p]> cm) cm l) !! k
  = if bool_decide (k ∈ l) then Some k else cm !! k.
Proof.
  revert cm. induction l as [|p l IH]; intros cm; simpl; [done|].
  rewrite IH. destruct (decide (k = p)) as [->|Hne].
  - rewrite lookup_insert_eq, (bool_decide_eq_true_2 (p ∈ p :: l)) by (by left).
    by case_bool_decide.
  - rewrite lookup_insert_ne by done.
    case_bool_decide as H1; case_bool_decide as H2; try done.
    + exfalso. apply H2. by right.
    + exfalso. apply H1. by apply elem_of_cons in H2 as [?|?].
Qed.

Lemma merge_inv_init :
  merge_inv grids r keys ∅
    (mkMerge grids (foldl (λ cm p, <[p := p]> cm) ∅ (names grids))).
Proof.
  split; simpl.
  - done.
  - by apply wf_heap.
  - intros k. rewrite elem_of_empty. tauto.
  - intros k Hk. by rewrite clusterMap0_lookup, bool_decide_eq_true_2.
  - intros k Hk. by apply elem_of_empty in Hk.
  - intros k. rewrite clusterMap0_lookup. case_bool_decide; [done|].
    rewrite lookup_empty. by intros [? ?].
  - done.
Qed.

(** The state of [_mergeClusters] when it returns: the cells listed in
    some array of [merging], the visited ones, are gone, and each is
    mapped to the first cell of [merging] that lists it. *)
Lemma mergeClusters_inv :
  let s := find_merging grids r in
  let st := foldl merge_entry
              (mkMerge grids (foldl (λ cm p, <[p := p]> cm) ∅ (names grids)))
              (merging s) in
  keys = (merging s).*1 →
  merge_inv grids r keys (visited s) st ∧
  ∀ k m, owner (merging s) k = Some m → m_clusterMap st !! k = Some m.
Proof.
  intros s st Hkeys.
  pose proof (find_merging_inv grids r Hwf) as [Hk Hh Hv Hs]. fold s in Hk, Hh, Hv, Hs.
  assert (visited s = ∅ ∪ listed (merging s)) as ->.
  { rewrite (left_id_L ∅ (∪)). apply set_eq. intros k.
    by rewrite Hv, elem_of_listed. }
  destruct (merge_fold_inv (merging s) ∅ (visited s)
              (mkMerge grids (foldl (λ cm p, <[p := p]> cm) ∅ (names grids))))
    as [Hinv Hcm].
  - apply merge_inv_init.
  - apply empty_subseteq.
  - intros m l Hml. destruct (Hh m l Hml) as (Hl & Hne & Hmv).
    assert (m ∈ keys) as Hmk.
    { rewrite Hkeys. apply list_elem_of_fmap. by exists (m, l). }
    repeat split; try done.
    + rewrite Hkeys in Hmk. by eapply elem_of_sublist.
    + rewrite <- (elem_of_hits_at grids r m a Hwf). by rewrite <- Hl.
    + apply Hv. by exists m, l.
  - split; [done|]. intros k m Hown. fold st in Hcm. rewrite Hcm.
    rewrite bool_decide_eq_false_2 by (by intros ?%elem_of_empty).
    by rewrite Hown.
Qed.
End MergeFacts.

(** ** Properties of the cell objects that both loops keep *)

Lemma heap_all_insert (P : Cluster → Prop) (h : gmap Key Cluster) (k : Key) (c : Cluster) :
  heap_all P h → P c → heap_all P (<[k := c]> h).
Proof.
  intros Hall Hc k' c'. destruct (decide (k = k')) as [<-|Hne].
  - rewrite lookup_insert_eq. by intros [= <-].
  - rewrite lookup_insert_ne by done. apply Hall.
Qed.

Section ObjectInvariant.
Variable P : Cluster → Prop.
Hypothesis P_merge : ∀ grid t, P grid → P t → P (merge_into grid t).
Hypothesis P_recentre : ∀ grid, P grid → P (recentre grid).

Lemma absorb_heap_all (m a : Key) (st : Merge) :
  heap_all P (heap (m_grids st)) → heap_all P (heap (m_grids (absorb m st a))).
Proof.
  intros Hall. unfold absorb.
  destruct (heap (m_grids st) !! a) as [t|] eqn:Ht; [|done].
  destruct (grids_get _ _) as [live|]; [|done].
  destruct (heap (m_grids st) !! m) as [grid|] eqn:Hg; [|done]. simpl.
  apply heap_all_insert; [done|]. apply P_merge; by eapply Hall.
Qed.

Lemma absorb_fold_heap_all (m : Key) (l : list Key) (st : Merge) :
  heap_all P (heap (m_grids st)) →
  heap_all P (heap (m_grids (foldl (absorb m) st l))).
Proof.
  revert st. induction l as [|a l IH]; intros st Hall; [done|].
  simpl. by apply IH, absorb_heap_all.
Qed.

Lemma recenter_heap_all (m : Key) (st : Merge) :
  heap_all P (heap (m_grids st)) → heap_all P (heap (m_grids (recenter m st))).
Proof.
  intros Hall. unfold recenter.
  destruct (heap (m_grids st) !! m) as [grid|] eqn:Hg; [|done]. simpl.
  apply heap_all_insert; [done|]. apply P_recentre. by eapply Hall.
Qed.

Lemma merge_entry_heap_all (e : Key * list Key) (st : Merge) :
  heap_all P (heap (m_grids st)) →
  heap_all P (heap (m_grids (merge_entry st e))).
Proof.
  intros Hall. unfold merge_entry. destruct (grids_get _ _) as [live|]; [|done].
  by apply recenter_heap_all, absorb_fold_heap_all.
Qed.

Lemma mergeClusters_heap_all (grids : Grids) (r : Q) :
  heap_all P (heap grids) → heap_all P (objects (_mergeClusters grids r)).
Proof.
  intros Hall. unfold _mergeClusters. simpl.
  generalize (foldl (λ cm p, <[p := p]> cm) (∅ : gmap Key Key) (names grids)).
  intros cm. generalize (merging (find_merging grids r)). intros mg.
  assert (heap_all P (heap (m_grids (mkMerge grids cm)))) as Hst by done.
  revert Hst. generalize (mkMerge grids cm). 
  induction mg as [|e mg IH]; intros st Hst; [done|].
  simpl. by apply IH, merge_entry_heap_all.
Qed.
End ObjectInvariant.

(** Every pass of the second loop leaves every cell with
    [center = sum / count]. *)

Lemma recentre_centred (grid : Cluster) : centred (recentre grid).
Proof.
  unfold centred, coord_eq, recentre, coord_div, multi. simpl.
  split; unfold Qdiv; ring.
Qed.

Lemma absorb_heap_other (m a k : Key) (st : Merge) :
  k ≠ m → heap (m_grids (absorb m st a)) !! k = heap (m_grids st) !! k.
Proof.
  intros Hne. unfold absorb.
  destruct (heap (m_grids st) !! a) as [t|] eqn:Ht; [|done].
  destruct (grids_get _ _) as [live|]; [|done].
  destruct (heap (m_grids st) !! m) as [grid|] eqn:Hg; [|done]. simpl.
  by rewrite lookup_insert_ne.
Qed.

Lemma absorb_fold_heap_other (m k : Key) (l : list Key) (st : Merge) :
  k ≠ m → heap (m_grids (foldl (absorb m) st l)) !! k = heap (m_grids st) !! k.
Proof.
  intros Hne. revert st. induction l as [|a l IH]; intros st; [done|].
  simpl. by rewrite IH, absorb_heap_other.
Qed.

Lemma merge_entry_centred (e : Key * list Key) (st : Merge) :
  heap_all centred (heap (m_grids st)) →
  heap_all centred (heap (m_grids (merge_entry st e))).
Proof.
  intros Hall. unfold merge_entry. destruct (grids_get _ _) as [live|]; [|done].
  unfold recenter.
  destruct (heap (m_grids (foldl (absorb e.1) st e.2)) !! e.1) as [grid|] eqn:Hg.
  - simpl. intros k c. destruct (decide (e.1 = k)) as [<-|Hne].
    + rewrite lookup_insert_eq. intros [= <-]. apply recentre_centred.
    + rewrite lookup_insert_ne by done. rewrite absorb_fold_heap_other by done.
      apply Hall.
  - intros k c. destruct (decide (e.1 = k)) as [<-|Hne]; [by rewrite Hg|].
    rewrite absorb_fold_heap_other by done. apply Hall.
Qed.

Lemma mergeClusters_centred (grids : Grids) (r : Q) :
  heap_all centred (heap grids) →
  heap_all centred (objects (_mergeClusters grids r)).
Proof.
  intros Hall. unfold _mergeClusters. simpl.
  generalize (foldl (λ cm p, <[p := p]> cm) (∅ : gmap Key Key) (names grids)).
  intros cm. generalize (merging (find_merging grids r)). intros mg.
  assert (heap_all centred (heap (m_grids (mkMerge grids cm)))) as Hst by done.
  revert Hst. generalize (mkMerge grids cm).
  induction mg as [|e mg IH]; intros st Hst; [done|].
  simpl. by apply IH, merge_entry_centred.
Qed.

(** ** Properties of the cell objects that bucketing establishes *)

Section BucketObjects.
Variable sumProperty : option string.
Variable min : Coordinate.
Variable r : Q.
Variable preT : option Q.
Variable preCache : option LevelResult.
Variable P : Cluster → Prop.
Variable G : MarkerPoint → Prop.
Hypothesis P_new : ∀ k pt, G pt → P (new_cell sumProperty min preT preCache k pt).
Hypothesis P_add : ∀ c pt, G pt → P c → P (add_point sumProperty c pt).

Lemma bucket_point_heap_all (g : Grids) (pt : MarkerPoint) :
  G pt → heap_all P (heap g) →
  heap_all P (heap (bucket_point sumProperty min r preT preCache g pt)).
Proof.
  intros Hpt Hall. unfold bucket_point.
  destruct (grids_get g _) as [c|] eqn:Hget; simpl.
  - apply grids_get_Some in Hget as [_ Hc].
    apply heap_all_insert; [done|]. apply P_add; [done|]. by eapply Hall.
  - apply heap_all_insert; [done|]. by apply P_new.
Qed.

Lemma bucket_heap_all (pts : list MarkerPoint) :
  Forall G pts →
  heap_all P (heap (bucket sumProperty min r preT preCache pts)).
Proof.
  unfold bucket.
  assert (heap_all P (heap (mkGrids [] ∅))) as Hinit.
  { intros k c. simpl. by rewrite lookup_empty. }
  revert Hinit. generalize (mkGrids [] ∅).
  induction pts as [|pt pts IH]; intros g Hall Hpts; [done|].
  apply Forall_cons in Hpts as [Hpt Hpts]. simpl.
  apply IH; [|done]. by apply bucket_point_heap_all.
Qed.
End BucketObjects.

Lemma bucket_names_fold sumProperty min r preT preCache (pts : list MarkerPoint)
    (g : Grids) (k : Key) :
  k ∈ names (foldl (bucket_point sumProperty min r preT preCache) g pts) ↔
  k ∈ names g ∨ ∃ pt, pt ∈ pts ∧ k = cellKey min r (px pt) (py pt).
Proof.
  revert g. induction pts as [|pt pts IH]; intros g; simpl.
  - split; [by left|]. intros [?|(pt & Hpt & _)]; [done|].
    by apply elem_of_nil in Hpt.
  - rewrite IH. unfold bucket_point at 1.
    destruct (grids_get g _) as [c|] eqn:Hget; simpl.
    + apply grids_get_Some in Hget as [Hin _]. split.
      * intros [?|(q & Hq & ->)]; [by left|]. right. exists q. split; [by right|done].
      * intros [?|(q & [->|Hq]%elem_of_cons & ->)]; [by left|by left|].
        right. by exists q.
    + rewrite elem_of_app, list_elem_of_singleton. split.
      * intros [[?| ->]|(q & Hq & ->)]; [by left| |].
        -- right. exists pt. split; [by left|done].
        -- right. exists q. split; [by right|done].
      * intros [?|(q & [->|Hq]%elem_of_cons & ->)]; [left; by left|left; by right|].
        right. by exists q.
Qed.

Lemma bucket_names sumProperty min r preT preCache (pts : list MarkerPoint) (k : Key) :
  k ∈ names (bucket sumProperty min r preT preCache pts) ↔
  ∃ pt, pt ∈ pts ∧ k = cellKey min r (px pt) (py pt).
Proof.
  unfold bucket. rewrite bucket_names_fold. simpl.
  split; [|by right]. intros [Hk|?]; [|done]. by apply elem_of_nil in Hk.
Qed.

(** *** [center = sum / count] *)

Lemma new_cell_centred sumProperty min preT preCache k pt :
  centred (new_cell sumProperty min preT preCache k pt).
Proof.
  unfold centred, coord_eq, new_cell, coord_div. simpl.
  change (inject_Z (Z.of_nat 1)) with 1%Q. split; field.
Qed.

Lemma add_point_centred sumProperty c pt : centred (add_point sumProperty c pt).
Proof.
  unfold centred, coord_eq, add_point, coord_div, multi. simpl.
  split; unfold Qdiv; ring.
Qed.

(** *** [sum] and [count] are those of the members *)

Lemma members_sum_app (l1 l2 : list Geometry) :
  coord_eq (members_sum (l1 ++ l2))
           (coord_add (members_sum l1) (members_sum l2)).
Proof.
  induction l1 as [|g l1 [IHx IHy]]; unfold coord_eq; simpl.
  - split; ring.
  - rewrite IHx, IHy. simpl. split; ring.
Qed.

Lemma new_cell_sums_members sumProperty min preT preCache k pt :
  point_of_marker pt →
  sums_members (new_cell sumProperty min preT preCache k pt).
Proof.
  intros [Hx Hy]. unfold sums_members, coord_eq. simpl.
  repeat split; [lia| |]; rewrite ?Hx, ?Hy; ring.
Qed.

Lemma add_point_sums_members sumProperty c pt :
  point_of_marker pt → sums_members c →
  sums_members (add_point sumProperty c pt).
Proof.
  intros [Hx Hy] (Hpos & Hlen & Hsx & Hsy). unfold sums_members. simpl.
  split; [lia|]. split; [rewrite length_app; simpl; lia|].
  destruct (members_sum_app (children c) [geometry pt]) as [Hax Hay].
  unfold coord_eq. rewrite Hax, Hay. simpl. rewrite Hsx, Hsy, Hx, Hy.
  split; ring.
Qed.

Lemma merge_into_sums_members grid t :
  sums_members grid → sums_members t → sums_members (merge_into grid t).
Proof.
  intros (Hpos & Hlen & Hsx & Hsy) (Hpos' & Hlen' & Hsx' & Hsy').
  unfold sums_members. simpl.
  split; [lia|]. split; [rewrite length_app; lia|].
  destruct (members_sum_app (children grid) (children t)) as [Hax Hay].
  unfold coord_eq. rewrite Hax, Hay. simpl. by rewrite Hsx, Hsy, Hsx', Hsy'.
Qed.

Lemma recentre_sums_members grid : sums_members grid → sums_members (recentre grid).
Proof. done. Qed.

(** *** [parent] comes from the first member *)

Lemma new_cell_parent_linked sumProperty min preT preCache k pt :
  point_of_marker pt →
  parent_linked min preT preCache (new_cell sumProperty min preT preCache k pt).
Proof.
  intros [Hx Hy]. exists (geometry pt), []. simpl. by rewrite Hx, Hy.
Qed.

Lemma add_point_parent_linked sumProperty min preT preCache c pt :
  parent_linked min preT preCache c →
  parent_linked min preT preCache (add_point sumProperty c pt).
Proof.
  intros (g0 & rest & Hch & Hp). exists g0, (rest ++ [geometry pt]). simpl.
  by rewrite Hch.
Qed.

Lemma merge_into_parent_linked min preT preCache grid t :
  parent_linked min preT preCache grid →
  parent_linked min preT preCache (merge_into grid t).
Proof.
  intros (g0 & rest & Hch & Hp). exists g0, (rest ++ children t). simpl.
  by rewrite Hch.
Qed.

Lemma recentre_parent_linked min preT preCache grid :
  parent_linked min preT preCache grid →
  parent_linked min preT preCache (recentre grid).
Proof. done. Qed.

(** ** The point index *)

Lemma initGridSystem_fold (geoList : list Geometry) (acc : option Extent * list MarkerPoint) :
  Forall point_of_marker acc.2 →
  (acc.1 = None → acc.2 = []) →
  let res := foldl initGrid_step acc geoList in
  Forall point_of_marker res.2 ∧ (res.1 = None → res.2 = []).
Proof.
  revert acc. induction geoList as [|g l IH]; intros [e pts] Hall Hnone; simpl.
  - done.
  - apply IH; unfold initGrid_step; destruct (isVisible g); simpl; try done.
    apply Forall_app. split; [done|]. by apply Forall_singleton.
Qed.

Lemma initGridSystem_points (geoList : list Geometry) :
  Forall point_of_marker (_initGridSystem geoList).2.
Proof. by apply (initGridSystem_fold geoList (None, [])). Qed.

Lemma initGridSystem_None (geoList : list Geometry) :
  (_initGridSystem geoList).1 = None → (_initGridSystem geoList).2 = [].
Proof. by apply (initGridSystem_fold geoList (None, [])). Qed.

(** ** What [_mergeClusters] returns on well-formed [grids] *)

Lemma total_count_grids (h : gmap Key Cluster) (l : list Key) :
  sum_list_with count (omap (λ k, h !! k) l) = sum_list_with (count_at h) l.
Proof.
  induction l as [|k l IH]; [done|].
  cbn [omap list_omap sum_list_with]. unfold count_at at 1.
  destruct (h !! k) as [c|]; cbn [sum_list_with from_option]; by rewrite IH.
Qed.

Lemma elem_of_cluster_list (lr : LevelResult) (c : Cluster) :
  c ∈ cluster_list lr ↔ ∃ k, k ∈ clusters lr ∧ objects lr !! k = Some c.
Proof. unfold cluster_list. by rewrite list_elem_of_omap. Qed.

Section MergeResult.
Variable grids : Grids.
Variable r : Q.
Hypothesis Hwf : wf_grids grids.

Local Abbreviation lr := (_mergeClusters grids r).
Local Abbreviation s := (find_merging grids r).

Lemma mergeClusters_merge_inv :
  merge_inv grids r (merging s).*1 (visited s)
    (mkMerge (mkGrids (clusters lr) (objects lr)) (clusterMap lr)).
Proof.
  pose proof (mergeClusters_inv grids r (merging s).*1 Hwf eq_refl) as [Hinv _].
  simpl in Hinv. unfold _mergeClusters. simpl.
  by destruct (foldl merge_entry _ _) as [[nm hp] cm].
Qed.

Lemma mergeClusters_count : total_count lr = grids_count grids.
Proof.
  pose proof (mi_count _ _ _ _ _ mergeClusters_merge_inv) as Hc.
  unfold total_count, cluster_list. by rewrite total_count_grids.
Qed.

Lemma mergeClusters_survivor (k : Key) :
  k ∈ clusters lr ↔ k ∈ names grids ∧ k ∉ visited s.
Proof. apply (mi_names _ _ _ _ _ mergeClusters_merge_inv). Qed.

Lemma mergeClusters_key_survivor (m : Key) :
  m ∈ (merging s).*1 → m ∈ clusters lr.
Proof.
  intros [[m' l] [Heq Hin]]%list_elem_of_fmap. simpl in Heq. subst m'.
  pose proof (find_merging_inv grids r Hwf) as [Hk Hh _ _].
  apply mergeClusters_survivor. split.
  - eapply elem_of_sublist; [|done]. apply list_elem_of_fmap. by exists (m, l).
  - by destruct (Hh m l Hin) as (_ & _ & ?).
Qed.

Lemma mergeClusters_self (k : Key) :
  k ∈ clusters lr → clusterMap lr !! k = Some k.
Proof. apply (mi_self _ _ _ _ _ mergeClusters_merge_inv). Qed.

Lemma mergeClusters_absorbed (k : Key) :
  k ∈ names grids → k ∉ clusters lr →
  ∃ m, clusterMap lr !! k = Some m ∧ m ∈ clusters lr ∧ near grids r m k.
Proof.
  intros Hk Hgone.
  assert (k ∈ visited s) as Hv.
  { destruct (decide (k ∈ visited s)); [done|]. exfalso.
    by apply Hgone, mergeClusters_survivor. }
  destruct (mi_gone _ _ _ _ _ mergeClusters_merge_inv k Hv) as (m & Hcm & Hm & Hn).
  exists m. repeat split; try done. by apply mergeClusters_key_survivor.
Qed.

Lemma mergeClusters_lookup (k a : Key) :
  clusterMap lr !! k = Some a →
  k ∈ names grids ∧ a ∈ clusters lr ∧ (a = k ∨ near grids r a k).
Proof.
  intros Hcm.
  assert (k ∈ names grids) as Hk.
  { apply (mi_dom _ _ _ _ _ mergeClusters_merge_inv). simpl. by eexists. }
  split; [done|]. destruct (decide (k ∈ clusters lr)) as [Hin|Hout].
  - rewrite (mergeClusters_self k Hin) in Hcm. injection Hcm as <-.
    split; [done|by left].
  - destruct (mergeClusters_absorbed k Hk Hout) as (m & Hcm' & Hm & Hn).
    rewrite Hcm' in Hcm. injection Hcm as <-. split; [done|by right].
Qed.

Lemma mergeClusters_objects (k : Key) :
  k ∈ names grids → is_Some (objects lr !! k).
Proof. apply (mi_heap _ _ _ _ _ mergeClusters_merge_inv). Qed.

(** A surviving cell takes every cell it has within the radius, unless
    another surviving cell took it. *)
Lemma mergeClusters_near_absorbed (m k : Key) :
  m ∈ clusters lr → near grids r m k →
  (k ∉ clusters lr) ∧
  (∃ m', clusterMap lr !! k = Some m' ∧ m' ∈ clusters lr ∧ near grids r m' k).
Proof.
  intros Hm Hnear.
  pose proof (find_merging_inv grids r Hwf) as [Hk Hh Hv Hs].
  apply mergeClusters_survivor in Hm as [Hm0 Hmv].
  assert (k ∈ hits_at grids r m) as Hhit by (by apply elem_of_hits_at).
  assert (k ∈ visited s) as Hkv.
  { destruct (Hs m Hm0) as [?|[Hnil|Hkey]]; [done| |].
    - rewrite Hnil in Hhit. by apply elem_of_nil in Hhit.
    - apply list_elem_of_fmap in Hkey as [[m' l] [Heq Hin]]. simpl in Heq.
      subst m'. apply Hv. exists m, l. split; [done|].
      destruct (Hh m l Hin) as (-> & _ & _). done. }
  assert (k ∉ clusters lr) as Hout.
  { intros [_ ?]%mergeClusters_survivor. done. }
  split; [done|]. apply mergeClusters_absorbed; [|done].
  by destruct (near_names _ _ _ _ Hnear).
Qed.
End MergeResult.

(** ** The order of the scan decides which cluster takes a cell *)

Lemma before_cons (l : list Key) (x y z : Key) : before l x y → before (z :: l) x y.
Proof. intros (l1 & l2 & -> & Hy). by exists (z :: l1), l2. Qed.

Lemma before_head (l : list Key) (x y : Key) : y ∈ l → before (x :: l) x y.
Proof. intros Hy. by exists [], l. Qed.

Lemma before_inv_cons (l : list Key) (x y z : Key) :
  before (z :: l) x y → (z = x ∧ y ∈ l) ∨ before l x y.
Proof.
  intros (l1 & l2 & Heq & Hy). destruct l1 as [|z' l1]; simpl in Heq.
  - injection Heq as -> ->. by left.
  - injection Heq as -> ->. right. by exists l1, l2.
Qed.

Lemma before_elem (l : list Key) (x y : Key) : before l x y → x ∈ l ∧ y ∈ l.
Proof.
  intros (l1 & l2 & -> & Hy). split.
  - apply elem_of_app. right. by left.
  - apply elem_of_app. right. by right.
Qed.

Lemma before_asym (l : list Key) (x y : Key) :
  NoDup l → before l x y → before l y x → False.
Proof.
  induction l as [|z l IH]; intros Hnd Hxy Hyx.
  - destruct Hxy as (l1 & l2 & Heq & _). by destruct l1.
  - apply NoDup_cons in Hnd as [Hz Hnd].
    apply before_inv_cons in Hxy as [[-> Hy]|Hxy];
      apply before_inv_cons in Hyx as [[Heq Hx]|Hyx].
    + by subst.
    + apply before_elem in Hyx as [_ ?]. done.
    + subst. apply before_elem in Hxy as [_ ?]. done.
    + by apply IH.
Qed.

Lemma before_sublist (l' l : list Key) (x y : Key) :
  sublist l' l → before l' x y → before l x y.
Proof.
  intros Hsub. induction Hsub as [|z l1 l2 Hsub IH|z l1 l2 Hsub IH]; intros Hb.
  - destruct Hb as (l1 & l2 & Heq & _). by destruct l1.
  - apply before_inv_cons in Hb as [[-> Hy]|Hb].
    + apply before_head. by eapply elem_of_sublist.
    + by apply before_cons, IH.
  - by apply before_cons, IH.
Qed.

Lemma owner_Some (mg : list (Key * list Key)) (k m : Key) :
  owner mg k = Some m → ∃ l, (m, l) ∈ mg ∧ k ∈ l.
Proof.
  induction mg as [|[m0 l0] mg IH]; simpl; [done|].
  case_bool_decide as Hk.
  - intros [= <-]. exists l0. split; [by left|done].
  - intros (l & Hin & Hl)%IH. exists l. split; [by right|done].
Qed.

Lemma owner_None (mg : list (Key * list Key)) (k : Key) :
  owner mg k = None → ∀ m l, (m, l) ∈ mg → k ∉ l.
Proof.
  induction mg as [|[m0 l0] mg IH]; simpl.
  - intros _ m l Hin. by apply elem_of_nil in Hin.
  - case_bool_decide as Hk; [done|].
    intros Hnone m l [[= -> ->]|Hin]%elem_of_cons; [done|]. by eapply IH.
Qed.

(** An array that lists a cell belongs to its owner or to a later
    property. *)
Lemma owner_first (mg : list (Key * list Key)) (k m : Key) :
  owner mg k = Some m →
  ∀ m' l', (m', l') ∈ mg → k ∈ l' → m' = m ∨ before mg.*1 m m'.
Proof.
  induction mg as [|[m0 l0] mg IH]; simpl; [done|].
  case_bool_decide as Hk.
  - intros [= <-] m' l' [[= -> ->]|Hin]%elem_of_cons Hl'; [by left|].
    right. apply before_head. apply list_elem_of_fmap. by exists (m', l').
  - intros Hown m' l' [[= -> ->]|Hin]%elem_of_cons Hl'; [done|].
    destruct (IH Hown m' l' Hin Hl') as [->|Hb]; [by left|].
    right. by apply before_cons.
Qed.

Section MergeOrder.
Variable grids : Grids.
Variable r : Q.
Hypothesis Hwf : wf_grids grids.

Local Abbreviation lr := (_mergeClusters grids r).
Local Abbreviation s := (find_merging grids r).

Lemma mergeClusters_owner (k m : Key) :
owner (merging s) k = Some m → clusterMap lr !! k = Some m.
Proof.
intros Hown.
pose proof (mergeClusters_inv grids r (merging s).*1 Hwf eq_refl) as [_ Hcm].
simpl in Hcm. unfold _mergeClusters. simpl. by apply Hcm.
Qed.

(** The clusters that stay and have a cell within the radius are the
  properties of [merging] whose array lists the cell. *)
Lemma survivor_lists (m k : Key) :
m ∈ clusters lr → near grids r m k →
∃ l, (m, l) ∈ merging s ∧ k ∈ l.
Proof.
intros Hm Hnear.
pose proof (find_merging_inv grids r Hwf) as [Hk Hh Hv Hs].
apply (mergeClusters_survivor grids r Hwf) in Hm as [Hm0 Hmv].
assert (k ∈ hits_at grids r m) as Hhit by (by apply elem_of_hits_at).
destruct (Hs m Hm0) as [?|[Hnil|Hkey]]; [done| |].
- rewrite Hnil in Hhit. by apply elem_of_nil in Hhit.
- apply list_elem_of_fmap in Hkey as [[m' l] [Heq Hin]]. simpl in Heq.
  subst m'. exists l. split; [done|]. by destruct (Hh m l Hin) as (-> & _ & _).
Qed.

Lemma listed_near (m k : Key) (l : list Key) :
(m, l) ∈ merging s → k ∈ l → m ∈ clusters lr ∧ near grids r m k.
Proof.
intros Hin Hk.
pose proof (find_merging_inv grids r Hwf) as [_ Hh _ _].
destruct (Hh m l Hin) as (-> & _ & _). split.
- apply (mergeClusters_key_survivor grids r Hwf).
  apply list_elem_of_fmap. by exists (m, hits_at grids r m).
- by apply elem_of_hits_at.
Qed.

(** A cell is merged into [m] exactly when [m] is the first cell, in the
  order of the scan, among the clusters that stay and have it within the
  radius. *)
Lemma mergeClusters_merged_iff (m k : Key) :
k ≠ m →
clusterMap lr !! k = Some m ↔
m ∈ clusters lr ∧ near grids r m k ∧
∀ m', m' ∈ clusters lr → near grids r m' k →
      m' = m ∨ before (names grids) m m'.
Proof.
intros Hne.
pose proof (find_merging_inv grids r Hwf) as [Hkeys _ _ _].
split.
- intros Hcm.
  destruct (mergeClusters_lookup grids r Hwf k m Hcm) as (_ & Hm & [->|Hnear]);
    [done|].
  split; [done|]. split; [done|]. intros m' Hm' Hnear'.
  destruct (survivor_lists m' k Hm' Hnear') as (l' & Hin' & Hk').
  destruct (owner (merging s) k) as [m0|] eqn:Hown.
  + pose proof (mergeClusters_owner k m0 Hown) as Hcm0.
    rewrite Hcm0 in Hcm. injection Hcm as ->.
    destruct (owner_first _ _ _ Hown m' l' Hin' Hk') as [->|Hb]; [by left|].
    right. by eapply before_sublist.
  + exfalso. by eapply owner_None.
- intros (Hm & Hnear & Hfirst).
  destruct (survivor_lists m k Hm Hnear) as (l & Hin & Hk).
  destruct (owner (merging s) k) as [m0|] eqn:Hown.
  2:{ exfalso. by eapply owner_None. }
  rewrite (mergeClusters_owner k m0 Hown). f_equal.
  destruct (owner_Some _ _ _ Hown) as (l0 & Hin0 & Hk0).
  destruct (listed_near m0 k l0 Hin0 Hk0) as [Hm0 Hnear0].
  destruct (Hfirst m0 Hm0 Hnear0) as [->|Hb]; [done|].
  destruct (owner_first _ _ _ Hown m l Hin Hk) as [->|Hb']; [done|].
  exfalso. eapply (before_asym (names grids)); [by apply wf_nodup|done|].
  by eapply before_sublist.
Qed.
End MergeOrder.

(** ** [_computeZoomGrid] *)

Section ZoomGridFacts.
Variable map : Map.
Variable options : Options.
Variable ext : Extent.
Variable points : list MarkerPoint.

Local Abbreviation rec := (_computeZoomGrid_rec map options (Some ext) points).

(** The grid a level is merged from, given the coarser level found or
    computed. *)
Local Abbreviation level_grids preCache zoom :=
  (bucket (opt_textSumProperty options) (getMin ext) (cellSize map options zoom)
          (preT_of map options zoom) preCache points).

Lemma cache_get_insert (cache : Cache) (z : Z) (res : option LevelResult) :
  cache_get (<[z := res]> cache) z = res.
Proof. unfold cache_get. rewrite lookup_insert_eq. by destruct res. Qed.

(** The result is the merge of the bucketed points, the parents being
    taken from the entry of the cache for [zoom - 1] on return. *)
Lemma computeZoomGrid_rec_eq (n : nat) (cache : Cache) (zoom : Z) :
  (rec n cache zoom).2
  = Some (_mergeClusters
            (level_grids (cache_get (rec n cache zoom).1 (zoom - 1)) zoom)
            (cellSize map options zoom / 2)).
Proof.
  destruct n as [|n]; simpl.
  - destruct (cache_get cache (zoom - 1)) as [pc|] eqn:Hpc; simpl.
    + by rewrite Hpc.
    + destruct (getMinZoom map <=? zoom - 1)%Z; simpl; by rewrite Hpc.
  - destruct (cache_get cache (zoom - 1)) as [pc|] eqn:Hpc; simpl.
    + by rewrite Hpc.
    + destruct (getMinZoom map <=? zoom - 1)%Z; simpl; [|by rewrite Hpc].
      destruct (rec n cache (zoom - 1)) as [c1 pc]. simpl.
      by rewrite cache_get_insert.
Qed.

(** The recursion never runs out of levels: any count of at least
    [zoom - getMinZoom] gives the same result. *)
Lemma computeZoomGrid_rec_enough (n1 n2 : nat) (cache : Cache) (zoom : Z) :
  (zoom - getMinZoom map ≤ Z.of_nat n1)%Z →
  (zoom - getMinZoom map ≤ Z.of_nat n2)%Z →
  rec n1 cache zoom = rec n2 cache zoom.
Proof.
  revert n2 cache zoom.
  induction n1 as [|n1 IH]; intros n2 cache zoom H1 H2.
  - destruct n2 as [|n2]; [done|]. simpl.
    destruct (cache_get cache (zoom - 1)); [done|].
    destruct (Z.leb_spec (getMinZoom map) (zoom - 1)); [lia|done].
  - destruct n2 as [|n2]; simpl.
    + destruct (cache_get cache (zoom - 1)); [done|].
      destruct (Z.leb_spec (getMinZoom map) (zoom - 1)); [lia|done].
    + destruct (cache_get cache (zoom - 1)); [done|].
      destruct (Z.leb_spec (getMinZoom map) (zoom - 1)); [|done].
      rewrite (IH n2) by lia. done.
Qed.

Lemma computeZoomGrid_eq (cache : Cache) (zoom : Z) :
  (_computeZoomGrid map options (Some ext) points cache zoom).2
  = Some (_mergeClusters
            (level_grids
               (cache_get (_computeZoomGrid map options (Some ext) points cache zoom).1
                          (zoom - 1)) zoom)
            (cellSize map options zoom / 2)).
Proof. apply computeZoomGrid_rec_eq. Qed.
End ZoomGridFacts.

(** ** The clusters of a level *)

Section LevelFacts.
Variable map : Map.
Variable options : Options.
Variable ext : Extent.
Variable points : list MarkerPoint.
Variable cache : Cache.
Variable zoom : Z.

Local Abbreviation result :=
  (_computeZoomGrid map options (Some ext) points cache zoom).
Local Abbreviation level_grids :=
  (bucket (opt_textSumProperty options) (getMin ext) (cellSize map options zoom)
          (preT_of map options zoom) (cache_get result.1 (zoom - 1)) points).

Lemma level_count :
  safe_cells (getMin ext) (cellSize map options zoom) points →
  ∃ lr, result.2 = Some lr ∧ total_count lr = length points.
Proof.
  intros Hcell. eexists. split; [apply computeZoomGrid_eq|].
  rewrite mergeClusters_count by (by apply bucket_wf). by apply bucket_count.
Qed.

Lemma level_clusterMap :
  safe_cells (getMin ext) (cellSize map options zoom) points →
  ∃ lr, result.2 = Some lr ∧
    (∀ k, k ∈ clusters lr → clusterMap lr !! k = Some k) ∧
    (∀ pt, pt ∈ points →
       is_Some (clusterMap lr !! cellKey (getMin ext) (cellSize map options zoom)
                                   (px pt) (py pt))) ∧
    (∀ k a, clusterMap lr !! k = Some a →
       a ∈ clusters lr ∧ is_Some (objects lr !! a)).
Proof.
  intros Hcell. eexists. split; [apply computeZoomGrid_eq|].
  pose proof (bucket_wf (opt_textSumProperty options) (getMin ext)
                (cellSize map options zoom) (preT_of map options zoom)
                (cache_get result.1 (zoom - 1)) points Hcell) as Hwf.
  split; [|split].
  - intros k. by apply mergeClusters_self.
  - intros pt Hpt.
    assert (cellKey (getMin ext) (cellSize map options zoom) (px pt) (py pt)
            ∈ names level_grids) as Hk.
    { apply bucket_names. by exists pt. }
    destruct (decide (cellKey (getMin ext) (cellSize map options zoom) (px pt) (py pt)
                      ∈ clusters (_mergeClusters level_grids
                                    (cellSize map options zoom / 2)))) as [Hin|Hout].
    + rewrite mergeClusters_self by done. by eexists.
    + destruct (mergeClusters_absorbed _ _ Hwf _ Hk Hout) as (m & -> & _).
      by eexists.
  - intros k a Hka.
    destruct (mergeClusters_lookup _ _ Hwf k a Hka) as (_ & Ha & _).
    split; [done|]. apply mergeClusters_objects; [done|].
    by apply (mergeClusters_survivor _ _ Hwf) in Ha as [? _].
Qed.

Lemma level_centred :
  Forall point_of_marker points →
  ∃ lr, result.2 = Some lr ∧
    ∀ c, c ∈ cluster_list lr → centred c ∧ sums_members c.
Proof.
  intros Hpts. eexists. split; [apply computeZoomGrid_eq|].
  intros c (k & _ & Hc)%elem_of_cluster_list. split.
  - revert k c Hc. apply mergeClusters_centred.
    apply bucket_heap_all with (G := λ _, True).
    + intros. apply new_cell_centred.
    + intros. apply add_point_centred.
    + by apply Forall_true.
  - revert k c Hc. apply mergeClusters_heap_all.
    + apply merge_into_sums_members.
    + apply recentre_sums_members.
    + apply bucket_heap_all with (G := point_of_marker); [| |done].
      * intros. by apply new_cell_sums_members.
      * intros. by apply add_point_sums_members.
Qed.

Lemma level_parent :
  Forall point_of_marker points →
  ∃ lr, result.2 = Some lr ∧
    ∀ c, c ∈ cluster_list lr →
      parent_linked (getMin ext) (preT_of map options zoom)
                    (cache_get result.1 (zoom - 1)) c.
Proof.
  intros Hpts. eexists. split; [apply computeZoomGrid_eq|].
  intros c (k & _ & Hc)%elem_of_cluster_list.
  revert k c Hc. apply mergeClusters_heap_all.
  - intros. by apply merge_into_parent_linked.
  - intros. by apply recentre_parent_linked.
  - apply bucket_heap_all with (G := point_of_marker); [| |done].
    + intros. by apply new_cell_parent_linked.
    + intros. by apply add_point_parent_linked.
Qed.
End LevelFacts.

(** ** The merge test is the Euclidean distance test *)

Lemma distanceTo_sq_nonneg (c1 c2 : Coordinate) : (0 <= _distanceTo_sq c1 c2)%Q.
Proof.
  unfold _distanceTo_sq. simpl.
  generalize (cx c1 - cx c2)%Q (cy c1 - cy c2)%Q. intros a b. nra.
Qed.

Lemma within_spec (c1 c2 : Coordinate) (r : Q) :
  within c1 c2 r = true ↔ (0 <= r ∧ _distanceTo_sq c1 c2 <= r * r)%Q.
Proof. unfold within. by rewrite andb_true_iff, !Qle_bool_iff. Qed.

(** [_distanceTo c1 c2 <= r], with [_distanceTo] the square root. *)
Lemma within_distanceTo (c1 c2 : Coordinate) (r : Q) :
  within c1 c2 r = true ↔
  (sqrt (Q2R (_distanceTo_sq c1 c2)) <= Q2R r)%R.
Proof.
  rewrite within_spec.
  pose proof (Qle_Rle _ _ (distanceTo_sq_nonneg c1 c2)) as Hd.
  rewrite RMicromega.Q2R_0 in Hd. split.
  - intros [Hr Hle]. apply Qle_Rle in Hr, Hle.
    rewrite RMicromega.Q2R_0 in Hr. rewrite Q2R_mult in Hle.
    rewrite <- (sqrt_square (Q2R r)) by done. by apply sqrt_le_1_alt.
  - intros Hle.
    pose proof (sqrt_pos (Q2R (_distanceTo_sq c1 c2))) as Hs.
    assert (0 <= Q2R r)%R as Hr by lra.
    split.
    + apply Rle_Qle. by rewrite RMicromega.Q2R_0.
    + apply Rle_Qle. rewrite Q2R_mult.
      rewrite <- (sqrt_sqrt (Q2R (_distanceTo_sq c1 c2))) by done.
      by apply Rmult_le_compat.
Qed.

(** * The claims *)


(** The same loss with a cell size that is not zero: of two markers [2^53]
    apart, the second falls in the cell [2^53], whose neighbour at the offset
    [1] is the cell itself, since [2^53 + 1] is [2^53] in binary64; it is
    merged into itself and deleted, and one point of two is counted. *)
Lemma large_index_loses_points :
  ¬ conserves_count (example_map 2) (example_options 1)
      wide_extent wide_points ∅ 2.
Proof.
  intros (lr & Hlr & Hcount).
  assert (∃ lr0,
    (_computeZoomGrid (example_map 2) (example_options 1)
       (Some wide_extent) wide_points ∅ 2).2 = Some lr0 ∧
    total_count lr0 = 1%nat) as (lr0 & Hlr0 & Hcount0).
  { eexists. split; vm_compute; reflexivity. }
  rewrite Hlr0 in Hlr. injection Hlr as <-. rewrite Hcount0 in Hcount.
  discriminate.
Qed.




(** The same with a cell size that is not zero: the cell [2^53] of the
    second of two markers [2^53] apart is its own neighbour, is merged into
    itself and deleted from [clusters], while [clusterMap] still maps its key
    to it. *)
Lemma large_index_maps_to_deleted_cell :
  ¬ ∃ lr, (_computeZoomGrid (example_map 2) (example_options 1)
             (Some wide_extent) wide_points ∅ 2).2 = Some lr ∧
          clusterMap_into_clusters lr.
Proof.
  intros (lr & Hlr & _ & Hinto).
  assert (∃ lr0,
    (_computeZoomGrid (example_map 2) (example_options 1)
       (Some wide_extent) wide_points ∅ 2).2 = Some lr0 ∧
    clusterMap lr0 !! (Finite (2 ^ 53), Finite 0) = Some (Finite (2 ^ 53), Finite 0) ∧
    clusters lr0 = [(Finite 0, Finite 0)]) as (lr0 & Hlr0 & Hmap & Hnone).
  { eexists. split; [vm_compute; reflexivity|]. split; vm_compute; reflexivity. }
  rewrite Hlr0 in Hlr. injection Hlr as <-.
  apply Hinto in Hmap. rewrite Hnone in Hmap.
  apply list_elem_of_singleton in Hmap. discriminate.
Qed.



(** The branch of [_computeGrid] that would reuse the adjacent level is
    never taken: a level that is not cached is computed by
    [_computeZoomGrid], whatever the adjacent level holds. *)
Lemma computeGrid_computes_missing_level (map : Map) (options : Options)
    (geoList : list Geometry) (st : Renderer) :
  let index := match _markerExtent st with
               | Some e => (Some e, _markerPoints st)
               | None => _initGridSystem geoList
               end in
  let cache0 := default ∅ (_clusterCache st) in
  let computed := _computeZoomGrid map options index.1 index.2 cache0 (getZoom map) in
  cache_get cache0 (getZoom map) = None →
  _clusterCache (_computeGrid map options geoList st)
  = Some (<[getZoom map := computed.2]> computed.1).
Proof.
  intros index cache0 computed Hmiss. unfold _computeGrid.
  fold index. destruct index as [extent points] eqn:Hindex. fold cache0.
  assert (match cache_get cache0
                  (if negb (Qle_bool (_getResolution map (getMinZoom map))
                                     (_getResolution map (getMaxZoom map)))
                   then (getZoom map - 1)%Z else (getZoom map + 1)%Z) with
          | Some lr =>
              if strict_equals (LevelResult_length lr)
                               (JsNumber (Z.of_nat (length geoList)))
              then <[getZoom map := Some lr]> cache0 else cache0
          | None => cache0
          end = cache0) as ->.
  { clear Hmiss. destruct (cache_get cache0 _) as [lr|]; reflexivity. }
  rewrite Hmiss. simpl. unfold computed. simpl.
  by destruct (_computeZoomGrid map options extent points cache0 (getZoom map)).
Qed.

(** C4 (reuse of a singleton level).  At the failing input the coarser
    level 0 is cached with as many clusters as the layer has markers, and
    [_computeGrid] still computes level 1 anew: the test reads the
    property [length] of the cached level result, which it does not
    have, so the two cache entries differ. *)
Theorem computeGrid_recomputes_singleton_level :
  ∃ cache lr0 lr1,
    _clusterCache far_at_level1 = Some cache ∧
    cache_get cache 0 = Some lr0 ∧
    length (clusters lr0) = length far_geos ∧
    cache_get cache 1 = Some lr1 ∧
    clusters lr1 ≠ clusters lr0.
Proof.
  eexists _, _, _. split; [vm_compute; reflexivity|].
  split; [vm_compute; reflexivity|]. split; [vm_compute; reflexivity|].
  split; [vm_compute; reflexivity|]. vm_compute. discriminate.
Qed.

(** C5, as stated, fails: the cluster of level 1 made of the markers at
    3.9 and 4.5 has its centre at 4.2, in the coarser cell 1, but its
    [parent] is the cluster of the coarser cell 0, where its first marker
    lies. *)
Lemma parent_not_from_merged_centre :
  ¬ parent_from_merged_centre (example_map 1) (example_options 1)
      row_extent row_points ∅ 1.
Proof.
  intros Hclaim.
  assert (∃ lr c,
    (_computeZoomGrid (example_map 1) (example_options 1)
       (Some row_extent) row_points ∅ 1).2 = Some lr ∧
    cluster_list lr !! 1%nat = Some c ∧
    parent c = Some (Finite 0, Finite 0) ∧
    parent_of (getMin row_extent) (preT_of (example_map 1) (example_options 1) 1)
      (cache_get (_computeZoomGrid (example_map 1) (example_options 1)
                    (Some row_extent) row_points ∅ 1).1 (1 - 1))
      (cx (center c)) (cy (center c)) = Some (Finite 1, Finite 0))
    as (lr & c & Hlr & Hc & Hparent & Hcentre).
  { eexists _, _. split; [vm_compute; reflexivity|].
    split; [vm_compute; reflexivity|]. split; vm_compute; reflexivity. }
  specialize (Hclaim lr c Hlr (list_elem_of_lookup_2 _ _ _ Hc)).
  rewrite Hparent, Hcentre in Hclaim. discriminate.
Qed.

(** C5, amended.  Every cluster of a level has a first member, the marker
    that created its cell, and its [parent] is what the [clusterMap] of the
    coarser level, as cached when the level is computed, holds for the cell
    of that marker at the coarser cell size; there is no parent when the map
    has no resolution for the coarser level or no coarser level is
    cached. *)
Theorem parent_from_first_member (map : Map) (options : Options)
    (geoList : list Geometry) (ext : Extent) (points : list MarkerPoint)
    (cache : Cache) (zoom : Z) :
  _initGridSystem geoList = (Some ext, points) →
  let result := _computeZoomGrid map options (Some ext) points cache zoom in
  ∃ lr, result.2 = Some lr ∧
    ∀ c, c ∈ cluster_list lr →
      ∃ g0 rest, children c = g0 :: rest ∧
        parent c =
          match cache_get result.1 (zoom - 1) with
          | Some pc =>
              if truthyQ (_getResolution map (zoom - 1))
                 && truthyQ (cellSize map options (zoom - 1))
              then clusterMap pc !! cellKey (getMin ext)
                                    (cellSize map options (zoom - 1))
                                    (cx (_getPrjCoordinates g0))
                                    (cy (_getPrjCoordinates g0))
              else None
          | None => None
          end.
Proof.
  intros Hinit result.
  pose proof (initGridSystem_points geoList) as Hpts. rewrite Hinit in Hpts.
  destruct (level_parent map options ext points cache zoom Hpts)
    as (lr & Hlr & Hall).
  exists lr. split; [done|]. intros c Hc.
  destruct (Hall c Hc) as (g0 & rest & Hch & Hp).
  exists g0, rest. split; [done|]. rewrite Hp.
  unfold parent_of, preT_of. fold result.
  destruct (truthyQ (_getResolution map (zoom - 1)));
    destruct (cache_get result.1 (zoom - 1)); simpl; done.
Qed.

Lemma parent_from_first_member_witness :
  _initGridSystem row_geos = (Some row_extent, row_points) ∧
  let result := _computeZoomGrid (example_map 1) (example_options 1)
                  (Some row_extent) row_points ∅ 1 in
  ∃ lr, result.2 = Some lr ∧
    ∀ c, c ∈ cluster_list lr →
      ∃ g0 rest, children c = g0 :: rest ∧
        parent c =
          match cache_get result.1 (1 - 1) with
          | Some pc =>
              if truthyQ (_getResolution (example_map 1) (1 - 1))
                 && truthyQ (cellSize (example_map 1) (example_options 1) (1 - 1))
              then clusterMap pc !! cellKey (getMin row_extent)
                                    (cellSize (example_map 1) (example_options 1) (1 - 1))
                                    (cx (_getPrjCoordinates g0))
                                    (cy (_getPrjCoordinates g0))
              else None
          | None => None
          end.
Proof.
  split; [reflexivity|].
  apply (parent_from_first_member (example_map 1) (example_options 1)
           row_geos row_extent row_points ∅ 1).
  reflexivity.
Defined.


(** Beyond [2^53] a cell can be merged into a cell that does not stay: the
    cell [2^53_1] is merged into [2^53_0], which is its own neighbour and
    is deleted in the same pass. *)
Lemma large_index_merged_into_deleted_cell :
  let lr := _mergeClusters tall_grids (1 # 2) in
  clusterMap lr !! (Finite (2 ^ 53), Finite 1) = Some (Finite (2 ^ 53), Finite 0) ∧
  (Finite (2 ^ 53), Finite 0) ∉ clusters lr.
Proof.
  split; [vm_compute; reflexivity|].
  assert (clusters (_mergeClusters tall_grids (1 # 2)) = [(Finite 0, Finite 0)])
    as -> by (vm_compute; reflexivity).
  intros Hin%list_elem_of_singleton. discriminate.
Qed.



(** ** A layer without visible markers *)

Lemma initGridSystem_invisible (geoList : list Geometry) :
  Forall (λ g, isVisible g = false) geoList →
  _initGridSystem geoList = (None, []).
Proof.
  unfold _initGridSystem. generalize (@None Extent, @nil MarkerPoint).
  induction geoList as [|g l IH]; intros acc Hall; [done|].
  apply Forall_cons in Hall as [Hg Hall]. simpl.
  unfold initGrid_step at 2. destruct acc as [e pts]. rewrite Hg. by apply IH.
Qed.

Lemma computeZoomGrid_no_extent (map : Map) (options : Options)
    (points : list MarkerPoint) (cache : Cache) (zoom : Z) :
  _computeZoomGrid map options None points cache zoom = (cache, None).
Proof. unfold _computeZoomGrid. by destruct (Z.to_nat _). Qed.

Lemma cache_get_empty (z : Z) : cache_get ∅ z = None.
Proof. unfold cache_get. by rewrite lookup_empty. Qed.


(** ** [identify] *)

Section IdentifyFacts.
Variable map : Map.
Variable options : Options.
Variable coordinateToContainerPoint : Coordinate → Coordinate.
Variable _prjToContainerPoint : Coordinate → Coordinate.
Variable unproject : Coordinate → Coordinate.
Variable spriteWidth : Cluster → Q.
Variable _hitGeos : list Geometry → Coordinate → list Geometry.

(** The test of the loop for one cluster. *)
Local Abbreviation hit coordinate c :=
  (within (coordinateToContainerPoint coordinate)
          (_prjToContainerPoint (center c)) (spriteWidth c)).

Lemma identify_scan_first (point : Coordinate) (pre post : list Cluster)
    (c : Cluster) :
  (∀ c', c' ∈ pre →
     within point (_prjToContainerPoint (center c')) (spriteWidth c') = false) →
  within point (_prjToContainerPoint (center c)) (spriteWidth c) = true →
  identify_scan _prjToContainerPoint spriteWidth point (pre ++ c :: post) = Some c.
Proof.
  intros Hpre Hc. induction pre as [|c' pre IH]; simpl.
  - by rewrite Hc.
  - rewrite Hpre by (by left). apply IH. intros c'' Hc''. apply Hpre. by right.
Qed.

Lemma identify_scan_none (point : Coordinate) (cs : list Cluster) :
  (∀ c, c ∈ cs →
     within point (_prjToContainerPoint (center c)) (spriteWidth c) = false) →
  identify_scan _prjToContainerPoint spriteWidth point cs = None.
Proof.
  intros Hcs. induction cs as [|c cs IH]; simpl; [done|].
  rewrite Hcs by (by left). apply IH. intros c' Hc'. apply Hcs. by right.
Qed.

(** C8 (hit test).  Below the maximal cluster zoom, [identify] walks
    the current clusters in their order and answers with the first one
    whose centre is within the width of its sprite of the point, whatever
    comes after it; when no cluster is hit, or there is none, it answers
    with the markers hit among the markers drawn bare, or [null] when none
    is drawn.  It raises no error. *)
Theorem identify_first_hit_wins (st : Renderer) (coordinate : Coordinate) :
  aboveMaxClusterZoom map options = false →
  (∀ pre c post,
     _currentClusters st = Some (pre ++ c :: post) →
     (∀ c', c' ∈ pre → hit coordinate c' = false) →
     hit coordinate c = true →
     identify map options coordinateToContainerPoint _prjToContainerPoint
              unproject spriteWidth _hitGeos st coordinate
     = IdCluster (unproject (center c)) (children c)) ∧
  ((∀ cs c, _currentClusters st = Some cs → c ∈ cs → hit coordinate c = false) →
   identify map options coordinateToContainerPoint _prjToContainerPoint
            unproject spriteWidth _hitGeos st coordinate
   = match _markersToDraw st with
     | Some ms => IdMarkers (_hitGeos ms coordinate)
     | None => IdNull
     end).
Proof.
  intros Habove. unfold identify. rewrite Habove. split.
  - intros pre c post -> Hpre Hc. by rewrite identify_scan_first.
  - intros Hnone. destruct (_currentClusters st) as [cs|]; [|done].
    rewrite identify_scan_none; [done|]. intros c Hc. by eapply Hnone.
Qed.
End IdentifyFacts.

Lemma identify_first_hit_wins_witness :
  aboveMaxClusterZoom (example_map 1) (example_options 1) = false ∧
  (∀ pre c post,
     _currentClusters two_clusters_drawn = Some (pre ++ c :: post) →
     (∀ c', c' ∈ pre → within (mkCoordinate 0 0) (center c') 40 = false) →
     within (mkCoordinate 0 0) (center c) 40 = true →
     identify (example_map 1) (example_options 1) (λ p, p) (λ p, p) (λ p, p) (λ _, 40%Q) (λ _ _, [])
              two_clusters_drawn (mkCoordinate 0 0)
     = IdCluster (center c) (children c)) ∧
  ((∀ cs c, _currentClusters two_clusters_drawn = Some cs → c ∈ cs →
            within (mkCoordinate 0 0) (center c) 40 = false) →
   identify (example_map 1) (example_options 1) (λ p, p) (λ p, p) (λ p, p) (λ _, 40%Q) (λ _ _, [])
            two_clusters_drawn (mkCoordinate 0 0)
   = match _markersToDraw two_clusters_drawn with
     | Some ms => IdMarkers []
     | None => IdNull
     end).
Proof.
  split; [reflexivity|].
  apply (identify_first_hit_wins (example_map 1) (example_options 1)
           (λ p, p) (λ p, p) (λ p, p) (λ _, 40%Q) (λ _ _, []) two_clusters_drawn (mkCoordinate 0 0)).
  reflexivity.
Defined.

(** The first cluster hit is returned although the second is nearer. *)
Example identify_prefers_first_over_nearest :
  identify (example_map 1) (example_options 1) (λ p, p) (λ p, p) (λ p, p) (λ _, 40%Q) (λ _ _, [])
           two_clusters_drawn (mkCoordinate 0 0)
  = IdCluster (mkCoordinate 30 0) [marker_at 20 0 0; marker_at 40 0 1].
Proof. reflexivity. Qed.

(** ** Determinism *)

(** C9 (determinism), at the failing input.  The layer [stale_remaining]
    holds one marker, at (100, 100), which was indexed once together with a
    marker at the origin that has since been removed; the layer
    [lone_geos] holds the same marker and never held another.  The two
    layers have the same point set, and the pipeline, run with the same map
    and the same options from a renderer without data, puts the marker in
    the cell [10_10] for the first and in the cell [0_0] for the second:
    [_initGridSystem] starts the extent from the extent object that the
    marker caches, which the earlier indexing widened to the origin. *)
Theorem stale_extent_changes_keys :
  stale_remaining = [with_extent (mkExtent 0 0 100 100) (marker_at 100 100 0)] ∧
  same_point_set stale_remaining lone_geos ∧
  (∀ st,
     level_summary (cache_get (default ∅ (_clusterCache
       (_computeGrid (example_map 2) (example_options 10) stale_remaining
          (_clearDataCache st)))) 2)
     = [((Finite 10, Finite 10), 1%nat, mkCoordinate 100 100)]) ∧
  (∀ st,
     level_summary (cache_get (default ∅ (_clusterCache
       (_computeGrid (example_map 2) (example_options 10) lone_geos
          (_clearDataCache st)))) 2)
     = [((Finite 0, Finite 0), 1%nat, mkCoordinate 100 100)]) ∧
  ¬ pipeline_deterministic_on (example_map 2) (example_options 10)
      stale_remaining lone_geos.
Proof.
  assert (stale_remaining
          = [with_extent (mkExtent 0 0 100 100) (marker_at 100 100 0)]) as Hrem
    by (vm_compute; reflexivity).
  assert (same_point_set stale_remaining lone_geos) as Hsame
    by (rewrite Hrem; reflexivity).
  assert (∀ st,
     level_summary (cache_get (default ∅ (_clusterCache
       (_computeGrid (example_map 2) (example_options 10) stale_remaining
          (_clearDataCache st)))) 2)
     = [((Finite 10, Finite 10), 1%nat, mkCoordinate 100 100)]) as Hstale.
  { intros st. rewrite Hrem.
    unfold _computeGrid, _clearDataCache. cbn [_markerExtent _clusterCache].
    vm_compute. reflexivity. }
  assert (∀ st,
     level_summary (cache_get (default ∅ (_clusterCache
       (_computeGrid (example_map 2) (example_options 10) lone_geos
          (_clearDataCache st)))) 2)
     = [((Finite 0, Finite 0), 1%nat, mkCoordinate 100 100)]) as Hlone.
  { intros st.
    unfold _computeGrid, _clearDataCache. cbn [_markerExtent _clusterCache].
    vm_compute. reflexivity. }
  split; [done|]. split; [done|]. split; [done|]. split; [done|].
  intros Hclaim.
  pose proof (Hstale fresh_renderer) as H1.
  pose proof (Hlone fresh_renderer) as H2.
  destruct (_clusterCache (_computeGrid (example_map 2) (example_options 10)
              stale_remaining (_clearDataCache fresh_renderer)))
    as [cache1|] eqn:Hc1; [|by vm_compute in Hc1].
  destruct (_clusterCache (_computeGrid (example_map 2) (example_options 10)
              lone_geos (_clearDataCache fresh_renderer)))
    as [cache2|] eqn:Hc2; [|by vm_compute in Hc2].
  pose proof (Hclaim Hsame fresh_renderer fresh_renderer cache1 cache2 Hc1 Hc2)
    as Heq.
  cbn [default from_option] in H1, H2. unfold Datatypes.id in H1, H2.
  cbn [getZoom example_map] in Heq. rewrite H1, H2 in Heq. discriminate.
Qed.

(** ** [addGeometry] *)

Lemma instanceof_not (v : JsVal) (C : Class) : instanceof (js_not v) C = false.
Proof. by destruct C. Qed.

Lemma check_loop_false (l : list JsVal) (i todo : nat) : check_loop l i todo = false.
Proof.
  revert i. induction todo as [|todo IH]; intros i; [done|].
  cbn [check_loop]. by rewrite instanceof_not.
Qed.

(** C10, as stated, fails: for the argument [null] the call does not reach
    the [addGeometry] of the superclass; reading [markers.length] raises a
    [TypeError]. *)
Lemma addGeometry_null_raises :
  ¬ never_rejects nat (λ _, 0%nat) (ArgValue VNull).
Proof. intros [_ Hok]. discriminate. Qed.

(** C10, amended (the type check of [addGeometry]).  Whatever the
    argument, no element makes the loop throw 'Only a point(Marker) can be
    added into a ClusterLayer'; the call goes on to the [addGeometry] of the
    superclass for every argument but [null] and [undefined], for which
    reading [markers.length] raises a [TypeError]. *)
Theorem addGeometry_never_throws_its_error (Res : Type)
    (super_addGeometry : MarkersArg → Res) (markers : MarkersArg) :
  addGeometry Res super_addGeometry markers
  ≠ Throw "Only a point(Marker) can be added into a ClusterLayer" ∧
  addGeometry Res super_addGeometry markers
  = match markers with
    | ArgValue VNull | ArgValue VUndefined => Throw "TypeError"
    | _ => Ok (super_addGeometry markers)
    end.
Proof.
  unfold addGeometry. destruct markers as [l|v].
  - by rewrite check_loop_false.
  - destruct v as [| | | |s|]; try done. by rewrite check_loop_false.
Qed.

(** An array that holds no marker at all is passed on. *)
Example addGeometry_accepts_non_markers :
  addGeometry nat (λ _, 0%nat)
    (ArgArray [VString "x"; VNull; VObject OtherClass; VNumber 3])
  = Ok 0%nat.
Proof. reflexivity. Qed.

(** ** Scenario A of the specification *)

Example scenario_A :
  ∃ lr, (_computeZoomGrid (example_map 2) (example_options 10)
           (Some scenarioA_extent) scenarioA_points ∅ 2).2 = Some lr ∧
        (λ c, (key c, count c, Qred (cx (center c)), Qred (cy (center c))))
          <$> cluster_list lr
        = [((Finite 0, Finite 0), 2%nat, 1 # 2, 0%Q);
           ((Finite 10, Finite 10), 1%nat, 100%Q, 100%Q)].
Proof. eexists. split; vm_compute; reflexivity. Qed.

(** * Further properties of the clustering engine *)

(** ** Invariants of the second loop of [_mergeClusters], generically *)

Section MergeInvariant.
Variable grids : Grids.
Variable r : Q.
Variable keys : list Key.
Hypothesis Hwf : wf_grids grids.
Variable J : Merge → Prop.
Hypothesis J_absorb : ∀ gone st m a grid t,
  merge_inv grids r keys gone st →
  m ≠ a → m ∈ names (m_grids st) → a ∈ names (m_grids st) →
  heap (m_grids st) !! m = Some grid → heap (m_grids st) !! a = Some t →
  J st →
  J (mkMerge (mkGrids (filter (λ k, k ≠ a) (names (m_grids st)))
                      (<[m := merge_into grid t]> (heap (m_grids st))))
             (<[a := m]> (m_clusterMap st))).
Hypothesis J_recenter : ∀ gone st m grid,
  merge_inv grids r keys gone st →
  heap (m_grids st) !! m = Some grid → J st →
  J (mkMerge (mkGrids (names (m_grids st))
                      (<[m := recentre grid]> (heap (m_grids st))))
             (m_clusterMap st)).

Lemma absorb_keeps (gone : gset Key) (st : Merge) (m a : Key) :
  merge_inv grids r keys gone st →
  m ∈ keys → m ∈ names (m_grids st) → near grids r m a →
  J st → J (absorb m st a).
Proof.
  intros Hinv Hm Hlive Hnear HJ.
  assert (m ≠ a) as Hne by (intros ->; by eapply (near_irrefl grids r a Hwf)).
  destruct (near_names _ _ _ _ Hnear) as [Hm0 Ha0].
  destruct (mi_heap _ _ _ _ _ Hinv a Ha0) as [t Ht].
  destruct (mi_heap _ _ _ _ _ Hinv m Hm0) as [grid Hgrid].
  assert (key t = a) as Hkt by (by eapply wf_key, Ht; eapply mi_wf).
  unfold absorb. rewrite Ht, Hkt, Hgrid.
  destruct (grids_get (m_grids st) a) as [t'|] eqn:Hget; [|done].
  apply grids_get_Some in Hget as [Halive _].
  by eapply J_absorb.
Qed.

Lemma absorb_fold_keeps (l : list Key) (gone : gset Key) (st : Merge) (m : Key) :
  merge_inv grids r keys gone st →
  m ∈ keys → m ∈ names (m_grids st) → (∀ a, a ∈ l → near grids r m a) →
  J st → J (foldl (absorb m) st l).
Proof.
  revert gone st. induction l as [|a l IH]; intros gone st Hinv Hm Hlive Hnear HJ.
  - done.
  - cbn [foldl].
    destruct (absorb_inv grids r keys Hwf gone st m a) as (Hinv' & Hlive' & _);
      try done.
    { apply Hnear. by left. }
    apply (IH (gone ∪ {[a]})); try done.
    + intros b Hb. apply Hnear. by right.
    + eapply absorb_keeps; try done. apply Hnear. by left.
Qed.

Lemma merge_entry_keeps (gone : gset Key) (st : Merge) (m : Key) (l : list Key) :
  merge_inv grids r keys gone st →
  m ∈ keys → m ∈ names grids → m ∉ gone → (∀ a, a ∈ l → near grids r m a) →
  J st → J (merge_entry st (m, l)).
Proof.
  intros Hinv Hm Hm0 Hmg Hnear HJ.
  assert (m ∈ names (m_grids st)) as Hlive by (by apply (mi_names _ _ _ _ _ Hinv)).
  unfold merge_entry. simpl.
  destruct (grids_get_is_Some _ m (mi_wf _ _ _ _ _ Hinv) Hlive) as (c & -> & _).
  destruct (absorb_fold_inv grids r keys Hwf l gone st m) as (Hinv' & _ & _);
    try done.
  pose proof (absorb_fold_keeps l gone st m Hinv Hm Hlive Hnear HJ) as HJ'.
  unfold recenter.
  destruct (heap (m_grids (foldl (absorb m) st l)) !! m) as [grid|] eqn:Hgrid;
    [|done].
  by eapply J_recenter.
Qed.

Lemma merge_fold_keeps (mg : list (Key * list Key)) (gone vis : gset Key)
    (st : Merge) :
  merge_inv grids r keys gone st →
  gone ⊆ vis →
  (∀ m l, (m, l) ∈ mg →
     m ∈ keys ∧ m ∈ names grids ∧ (m ∉ vis) ∧
     (∀ a, a ∈ l → near grids r m a ∧ a ∈ vis)) →
  J st → J (foldl merge_entry st mg).
Proof.
  revert gone st. induction mg as [|[m l] mg IH]; intros gone st Hinv Hsub Hmg HJ.
  - done.
  - simpl. destruct (Hmg m l) as (Hm & Hm0 & Hmv & Hl); [by left|].
    destruct (merge_entry_inv grids r keys Hwf gone st m l) as [Hinv' _]; try done.
    { intros Hg. apply Hmv. by apply Hsub. }
    { intros a Ha. by apply Hl. }
    apply (IH (gone ∪ list_to_set l)).
    + done.
    + intros k [Hk|Hk%elem_of_list_to_set]%elem_of_union; [by apply Hsub|].
      by apply Hl.
    + intros m' l' Hin. apply Hmg. by right.
    + eapply merge_entry_keeps; try done.
      * intros Hg. apply Hmv. by apply Hsub.
      * intros a Ha. by apply Hl.
Qed.

Lemma mergeClusters_keeps :
  keys = (merging (find_merging grids r)).*1 →
  J (mkMerge grids (foldl (λ cm p, <[p := p]> cm) ∅ (names grids))) →
  J (mkMerge (mkGrids (clusters (_mergeClusters grids r))
                      (objects (_mergeClusters grids r)))
             (clusterMap (_mergeClusters grids r))).
Proof.
  intros Hkeys HJ.
  pose proof (find_merging_inv grids r Hwf) as [Hk Hh Hv Hs].
  unfold _mergeClusters. simpl.
  set (st := foldl merge_entry _ _).
  assert (J st) as HJ'.
  { apply (merge_fold_keeps _ ∅ (visited (find_merging grids r))); try done.
    - apply merge_inv_init. done.
    - intros m l Hml. destruct (Hh m l Hml) as (Hl & Hne & Hmv).
      assert (m ∈ keys) as Hmk.
      { rewrite Hkeys. apply list_elem_of_fmap. by exists (m, l). }
      repeat split; try done.
      + rewrite Hkeys in Hmk. by eapply elem_of_sublist.
      + rewrite <- (elem_of_hits_at grids r m a Hwf). by rewrite <- Hl.
      + apply Hv. by exists m, l. }
  by destruct st as [[] ?].
Qed.
End MergeInvariant.

(** ** The members of a level *)

Lemma concat_agree (f f' : Key → list Geometry) (l : list Key) :
  (∀ j, j ∈ l → f' j = f j) → concat (f' <$> l) = concat (f <$> l).
Proof.
  induction l as [|j l IH]; intros Hag; [done|].
  rewrite !fmap_cons. cbn [concat]. rewrite Hag by (by left).
  rewrite IH; [done|]. intros i Hi. apply Hag. by right.
Qed.

Lemma concat_update (f f' : Key → list Geometry) (l : list Key) (k : Key)
    (extra : list Geometry) :
  NoDup l → k ∈ l → (∀ j, j ≠ k → f' j = f j) → f' k = f k ++ extra →
  concat (f' <$> l) ≡ₚ concat (f <$> l) ++ extra.
Proof.
  intros Hnd Hk Hoth Hat. induction Hnd as [|j l Hj Hnd IH].
  - by apply elem_of_nil in Hk.
  - rewrite !fmap_cons. cbn [concat].
    apply elem_of_cons in Hk as [<-|Hk].
    + rewrite Hat, (concat_agree f f' l).
      * rewrite <- !(assoc_L (++)). apply Permutation_app_head, Permutation_app_comm.
      * intros i Hi. apply Hoth. by intros ->.
    + rewrite Hoth by (by intros ->). rewrite IH by done. by rewrite (assoc_L (++)).
Qed.

Lemma concat_remove (f : Key → list Geometry) (l : list Key) (k : Key) :
  NoDup l → k ∈ l →
  concat (f <$> filter (λ j, j ≠ k) l) ++ f k ≡ₚ concat (f <$> l).
Proof.
  intros Hnd Hk. induction Hnd as [|j l Hj Hnd IH].
  - by apply elem_of_nil in Hk.
  - apply elem_of_cons in Hk as [<-|Hk].
    + rewrite filter_cons_False by (by intros ?).
      rewrite filter_ne_notin by done. rewrite fmap_cons. cbn [concat].
      apply Permutation_app_comm.
    + rewrite filter_cons_True by (by intros ->).
      rewrite !fmap_cons. cbn [concat]. rewrite <- (assoc_L (++)).
      by rewrite IH.
Qed.

Lemma children_at_insert (h : gmap Key Cluster) (k : Key) (c : Cluster) :
  children_at (<[k := c]> h) k = children c.
Proof. unfold children_at. by rewrite lookup_insert_eq. Qed.

Lemma children_at_insert_ne (h : gmap Key Cluster) (k j : Key) (c : Cluster) :
  j ≠ k → children_at (<[k := c]> h) j = children_at h j.
Proof. intros. unfold children_at. by rewrite lookup_insert_ne. Qed.

Lemma concat_children_omap (h : gmap Key Cluster) (l : list Key) :
  concat (children <$> omap (λ k, h !! k) l) = concat (children_at h <$> l).
Proof.
  induction l as [|k l IH]; [done|].
  rewrite fmap_cons. cbn [concat]. rewrite <- IH. unfold children_at. simpl.
  by destruct (h !! k) as [c|].
Qed.

Lemma level_children_grids (lr : LevelResult) :
  level_children lr = grids_children (mkGrids (clusters lr) (objects lr)).
Proof. apply concat_children_omap. Qed.

Section BucketMembers.
Variable sumProperty : option string.
Variable min : Coordinate.
Variable r : Q.
Variable preT : option Q.
Variable preCache : option LevelResult.

Local Abbreviation step := (bucket_point sumProperty min r preT preCache).

Lemma bucket_point_children (g : Grids) (pt : MarkerPoint) :
  wf_cells g →
  grids_children (step g pt) ≡ₚ grids_children g ++ [geometry pt].
Proof.
  intros Hwf. unfold bucket_point, grids_children.
  destruct (grids_get g _) as [c|] eqn:Hget; simpl.
  - apply grids_get_Some in Hget as [Hin Hc].
    apply concat_update with (k := cellKey min r (px pt) (py pt)).
    + by apply wc_nodup.
    + done.
    + intros j Hj. by apply children_at_insert_ne.
    + rewrite children_at_insert. unfold children_at. by rewrite Hc.
  - apply grids_get_None_cells in Hget; [|done].
    rewrite fmap_app, concat_app. cbn [fmap list_fmap concat].
    rewrite app_nil_r, children_at_insert. simpl.
    apply Permutation_app_tail. erewrite concat_agree; [done|].
    intros j Hj. apply children_at_insert_ne. by intros ->.
Qed.

Lemma bucket_fold_children (pts : list MarkerPoint) (g : Grids) :
  wf_cells g →
  grids_children (foldl step g pts) ≡ₚ grids_children g ++ (geometry <$> pts).
Proof.
  revert g. induction pts as [|pt pts IH]; intros g Hwf.
  - simpl. by rewrite app_nil_r.
  - cbn [foldl]. rewrite IH by (by apply bucket_point_cells).
    rewrite bucket_point_children by done.
    by rewrite fmap_cons, <- (assoc_L (++)).
Qed.

Lemma bucket_children (pts : list MarkerPoint) :
  grids_children (bucket sumProperty min r preT preCache pts) ≡ₚ geometry <$> pts.
Proof.
  unfold bucket. rewrite bucket_fold_children by apply wf_cells_empty. done.
Qed.

(** The cell of a point holds the marker of the point. *)
Lemma bucket_fold_member (pts : list MarkerPoint) (g : Grids) (k : Key)
    (geo : Geometry) :
  wf_cells g →
  (k ∈ names g ∧ geo ∈ children_at (heap g) k) ∨
  (∃ pt, pt ∈ pts ∧ k = cellKey min r (px pt) (py pt) ∧ geo = geometry pt) →
  k ∈ names (foldl step g pts) ∧ geo ∈ children_at (heap (foldl step g pts)) k.
Proof.
  revert g. induction pts as [|pt pts IH]; intros g Hwf Hcase.
  - destruct Hcase as [?|(pt & []%elem_of_nil & _)]. done.
  - cbn [foldl]. apply IH; [by apply bucket_point_cells|].
    destruct Hcase as [[Hk Hgeo]|(pt' & [->|Hin]%elem_of_cons & -> & ->)].
    + left. unfold bucket_point.
      destruct (grids_get g _) as [c|] eqn:Hget; simpl.
      * split; [done|]. apply grids_get_Some in Hget as [Hin Hc].
        destruct (decide (k = cellKey min r (px pt) (py pt))) as [->|Hne].
        -- rewrite children_at_insert. simpl. unfold children_at in Hgeo.
           rewrite Hc in Hgeo. apply elem_of_app. by left.
        -- by rewrite children_at_insert_ne.
      * apply grids_get_None_cells in Hget; [|done].
        split; [apply elem_of_app; by left|].
        rewrite children_at_insert_ne; [done|]. by intros ->.
    + left. unfold bucket_point.
      destruct (grids_get g _) as [c|] eqn:Hget; simpl.
      * apply grids_get_Some in Hget as [Hin Hc]. split; [done|].
        rewrite children_at_insert. simpl. apply elem_of_app. right. by left.
      * split; [apply elem_of_app; right; by left|].
        rewrite children_at_insert. simpl. by left.
    + right. by exists pt'.
Qed.

Lemma bucket_member (pts : list MarkerPoint) (pt : MarkerPoint) :
  pt ∈ pts →
  let g := bucket sumProperty min r preT preCache pts in
  ∃ c0, cellKey min r (px pt) (py pt) ∈ names g ∧
        heap g !! cellKey min r (px pt) (py pt) = Some c0 ∧
        geometry pt ∈ children c0.
Proof.
  intros Hin g.
  destruct (bucket_fold_member pts (mkGrids [] ∅)
              (cellKey min r (px pt) (py pt)) (geometry pt) wf_cells_empty)
    as [Hk Hgeo].
  { right. by exists pt. }
  fold (bucket sumProperty min r preT preCache pts) in Hk, Hgeo. fold g in Hk, Hgeo.
  unfold children_at in Hgeo.
  destruct (heap g !! _) as [c0|] eqn:Hc0; [|by apply elem_of_nil in Hgeo].
  by exists c0.
Qed.
End BucketMembers.

Section MergeMembers.
Variable grids : Grids.
Variable r : Q.
Hypothesis Hwf : wf_grids grids.

Local Abbreviation lr := (_mergeClusters grids r).

Lemma mergeClusters_children : level_children lr ≡ₚ grids_children grids.
Proof.
  rewrite level_children_grids.
  apply (mergeClusters_keeps grids r (merging (find_merging grids r)).*1 Hwf
           (λ st, grids_children (m_grids st) ≡ₚ grids_children grids));
    try done.
  - intros gone st m a grid t Hinv Hne Hm Ha Hgrid Ht HJ. simpl.
    rewrite <- HJ. unfold grids_children. simpl.
    pose proof (wf_nodup _ (mi_wf _ _ _ _ _ Hinv)) as Hnd.
    rewrite <- (concat_remove (children_at (heap (m_grids st))) _ a Hnd Ha).
    apply concat_update with (k := m).
    + by apply NoDup_filter.
    + apply list_elem_of_filter. by split.
    + intros j Hj. by apply children_at_insert_ne.
    + rewrite children_at_insert. simpl. unfold children_at.
      by rewrite Hgrid, Ht.
  - intros gone st m grid Hinv Hgrid HJ. simpl. rewrite <- HJ.
    unfold grids_children. simpl. erewrite concat_agree; [done|].
    intros j _. destruct (decide (j = m)) as [->|Hne].
    + rewrite children_at_insert. simpl. unfold children_at. by rewrite Hgrid.
    + by apply children_at_insert_ne.
Qed.

Lemma mergeClusters_keeps_members :
  keeps_members grids
    (mkMerge (mkGrids (clusters lr) (objects lr)) (clusterMap lr)).
Proof.
  apply (mergeClusters_keeps grids r (merging (find_merging grids r)).*1 Hwf
           (keeps_members grids)); try done.
  - intros gone st m a grid t Hinv Hne Hm Ha Hgrid Ht HJ k c0 Hk Hc0. simpl.
    destruct (HJ k c0 Hk Hc0) as (a' & c & Hcm & Hc & Hsub).
    destruct (decide (k = a)) as [->|Hka].
    + exists m, (merge_into grid t). rewrite !lookup_insert_eq.
      split; [done|]. split; [done|]. simpl.
      rewrite (mi_self _ _ _ _ _ Hinv a Ha) in Hcm. injection Hcm as <-.
      rewrite Ht in Hc. injection Hc as <-.
      intros x Hx. apply elem_of_app. right. by apply Hsub.
    + rewrite lookup_insert_ne by done.
      destruct (decide (a' = m)) as [->|Ham].
      * exists m, (merge_into grid t). rewrite lookup_insert_eq.
        split; [done|]. split; [done|]. simpl.
        rewrite Hgrid in Hc. injection Hc as <-.
        intros x Hx. apply elem_of_app. left. by apply Hsub.
      * exists a', c. by rewrite lookup_insert_ne.
  - intros gone st m grid Hinv Hgrid HJ k c0 Hk Hc0. simpl.
    destruct (HJ k c0 Hk Hc0) as (a' & c & Hcm & Hc & Hsub).
    destruct (decide (a' = m)) as [->|Ham].
    + exists m, (recentre grid). rewrite lookup_insert_eq.
      split; [done|]. split; [done|]. simpl.
      rewrite Hgrid in Hc. by injection Hc as <-.
    + exists a', c. by rewrite lookup_insert_ne.
  - intros k c0 Hk Hc0. exists k, c0. simpl.
    rewrite clusterMap0_lookup, bool_decide_eq_true_2 by done. done.
Qed.
End MergeMembers.
(** ** [_initGridSystem] indexes the visible markers *)

Lemma initGridSystem_geometries_fold (geoList : list Geometry)
    (acc : option Extent * list MarkerPoint) :
  geometry <$> (foldl initGrid_step acc geoList).2
  = (geometry <$> acc.2) ++ filter (λ g, isVisible g) geoList.
Proof.
  revert acc. induction geoList as [|g l IH]; intros [e pts].
  - simpl. by rewrite app_nil_r.
  - cbn [foldl]. rewrite IH. unfold initGrid_step.
    destruct (isVisible g) eqn:Hv.
    + rewrite filter_cons_True by (rewrite Hv; exact I). simpl.
      by rewrite fmap_app, <- (assoc_L (++)).
    + rewrite filter_cons_False by (rewrite Hv; exact (λ x, x)). done.
Qed.

Lemma initGridSystem_geometries (geoList : list Geometry) :
  geometry <$> (_initGridSystem geoList).2 = filter (λ g, isVisible g) geoList.
Proof. apply initGridSystem_geometries_fold. Qed.

(** ** Members of the clusters of a level *)

Section LevelMembers.
Variable map : Map.
Variable options : Options.
Variable ext : Extent.
Variable points : list MarkerPoint.
Variable cache : Cache.
Variable zoom : Z.

Local Abbreviation result :=
  (_computeZoomGrid map options (Some ext) points cache zoom).

Lemma level_children_points :
  safe_cells (getMin ext) (cellSize map options zoom) points →
  ∃ lr, result.2 = Some lr ∧ level_children lr ≡ₚ geometry <$> points.
Proof.
  intros Hcell. eexists. split; [apply computeZoomGrid_eq|].
  rewrite mergeClusters_children by (by apply bucket_wf).
  by apply bucket_children.
Qed.

Lemma level_member :
  safe_cells (getMin ext) (cellSize map options zoom) points →
  ∃ lr, result.2 = Some lr ∧
    ∀ pt, pt ∈ points →
      ∃ c, clusterMap_get lr (cellKey (getMin ext) (cellSize map options zoom)
                                      (px pt) (py pt)) = Some c ∧
           c ∈ cluster_list lr ∧ geometry pt ∈ children c.
Proof.
  intros Hcell. eexists. split; [apply computeZoomGrid_eq|].
  intros pt Hpt.
  set (grids := bucket _ _ _ _ _ _).
  assert (wf_grids grids) as Hwf by (by apply bucket_wf).
  destruct (bucket_member (opt_textSumProperty options) (getMin ext)
              (cellSize map options zoom) (preT_of map options zoom)
              (cache_get result.1 (zoom - 1)) points pt Hpt)
    as (c0 & Hk & Hc0 & Hgeo).
  fold grids in Hk, Hc0.
  destruct (mergeClusters_keeps_members grids (cellSize map options zoom / 2) Hwf
              _ c0 Hk Hc0) as (a & c & Hcm & Hc & Hsub).
  cbn [m_clusterMap m_grids heap] in Hcm, Hc. exists c.
  unfold clusterMap_get. rewrite Hcm. cbn [mbind option_bind].
  split; [done|]. split; [|by apply Hsub].
  apply elem_of_cluster_list. exists a. split; [|done].
  by destruct (mergeClusters_lookup grids _ Hwf _ _ Hcm) as (_ & ? & _).
Qed.

(** Whatever the cell size, a member of a cluster is the marker of an
    indexed point. *)
Lemma level_children_indexed :
  ∃ lr, result.2 = Some lr ∧
    ∀ c g, c ∈ cluster_list lr → g ∈ children c → g ∈ geometry <$> points.
Proof.
  eexists. split; [apply computeZoomGrid_eq|].
  intros c g (k & _ & Hc)%elem_of_cluster_list. revert g. revert k c Hc.
  apply (mergeClusters_heap_all
           (λ c, ∀ g, g ∈ children c → g ∈ geometry <$> points)).
  - intros grid t Hgrid Ht g. cbn [merge_into children].
    intros [?|?]%elem_of_app; [by apply Hgrid|by apply Ht].
  - intros grid Hgrid. exact Hgrid.
  - apply (bucket_heap_all _ _ _ _ _ _ (λ pt, geometry pt ∈ geometry <$> points)).
    + intros k pt Hpt g. cbn [new_cell children].
      by intros ->%list_elem_of_singleton.
    + intros c pt Hpt Hc g. cbn [add_point children].
      intros [?| ->%list_elem_of_singleton]%elem_of_app; [by apply Hc|done].
    + apply Forall_forall. intros pt Hpt. apply list_elem_of_fmap. by exists pt.
Qed.
End LevelMembers.

Lemma safe_key_truthy (min : Coordinate) (r x y : Q) :
  safe_key (cellKey min r x y) → truthyQ r = true.
Proof.
  intros [H1 _]. unfold cellKey, floor_div, truthyQ in *. cbn [fst] in H1.
  destruct (Qeq_bool r 0); [|done].
  by destruct (Qle_bool (x - cx min) 0), (Qle_bool 0 (x - cx min)).
Qed.





(** ** The extent of the index and the cells of the grid *)

Lemma initGridSystem_index_fold (geoList : list Geometry)
    (acc : option Extent * list MarkerPoint) :
  Forall point_copies_marker acc.2 →
  Forall point_copies_marker (foldl initGrid_step acc geoList).2.
Proof.
  revert acc. induction geoList as [|g l IH]; intros [e pts] Hacc; [done|].
  cbn [foldl]. apply IH. unfold initGrid_step.
  destruct (isVisible g); [|done]. simpl. apply Forall_app. split; [done|].
  by repeat constructor.
Qed.

Lemma initGridSystem_extent_fold (geoList : list Geometry)
    (acc : option Extent * list MarkerPoint) :
  (acc.1 = None ↔ acc.2 = []) →
  let res := foldl initGrid_step acc geoList in
  (res.1 = None ↔ acc.1 = None ∧ Forall (λ g, isVisible g = false) geoList) ∧
  (res.1 = None ↔ res.2 = []).
Proof.
  revert acc. induction geoList as [|g l IH]; intros [e pts] Hacc.
  - simpl. split; [|done]. split; [by intros ->|]. by intros [-> _].
  - cbn [foldl].
    assert (((initGrid_step (e, pts) g).1 = None ↔ (initGrid_step (e, pts) g).2 = []) ∧
            ((initGrid_step (e, pts) g).1 = None ↔ e = None ∧ isVisible g = false))
      as [Hs1 Hs2].
    { unfold initGrid_step. destruct (isVisible g); simpl.
      - split; (split; [done|]).
        + by intros [? ?]%app_eq_nil.
        + by intros [_ ?].
      - split; [done|]. split; [done|]. by intros [? _]. }
    destruct (IH _ Hs1) as [IH1 IH2]. split; [|done].
    rewrite IH1, Hs2, Forall_cons. simpl. tauto.
Qed.

Lemma bounding_box_single (g : Geometry) (pt : MarkerPoint) :
  extent_is_position g →
  px pt = cx (_getPrjCoordinates g) → py pt = cy (_getPrjCoordinates g) →
  bounding_box (_getPrjExtent g) [pt].
Proof.
  intros -> Hx Hy. split.
  - intros pt' ->%list_elem_of_singleton. simpl. rewrite Hx, Hy.
    repeat split; apply Qle_refl.
  - repeat split; exists pt; (split; [by left|]); simpl; by rewrite ?Hx, ?Hy.
Qed.

Lemma bounding_box_combine (e : Extent) (pts : list MarkerPoint) (g : Geometry)
    (pt : MarkerPoint) :
  extent_is_position g →
  px pt = cx (_getPrjCoordinates g) → py pt = cy (_getPrjCoordinates g) →
  bounding_box e pts →
  bounding_box (_combine e (_getPrjExtent g)) (pts ++ [pt]).
Proof.
  intros -> Hx Hy (Hin & (p1 & Hp1 & Hx1) & (p2 & Hp2 & Hy1) & (p3 & Hp3 & Hx2)
                & (p4 & Hp4 & Hy2)).
  split; [|repeat split].
  - intros pt' [Hpt'| ->%list_elem_of_singleton]%elem_of_app; simpl.
    + destruct (Hin pt' Hpt') as (H1 & H2 & H3 & H4).
      repeat split.
      * eapply Qle_trans; [apply Q.le_min_l|done].
      * eapply Qle_trans; [done|apply Q.le_max_l].
      * eapply Qle_trans; [apply Q.le_min_l|done].
      * eapply Qle_trans; [done|apply Q.le_max_l].
    + rewrite Hx, Hy. repeat split;
        first [apply Q.le_min_r | apply Q.le_max_r].
  - simpl. destruct (Q.min_spec (xmin e) (cx (_getPrjCoordinates g)))
      as [[_ Hm]|[_ Hm]].
    + exists p1. split; [apply elem_of_app; by left|by rewrite Hm].
    + exists pt. split; [apply elem_of_app; right; by left|]. by rewrite Hm, Hx.
  - simpl. destruct (Q.min_spec (ymin e) (cy (_getPrjCoordinates g)))
      as [[_ Hm]|[_ Hm]].
    + exists p2. split; [apply elem_of_app; by left|by rewrite Hm].
    + exists pt. split; [apply elem_of_app; right; by left|]. by rewrite Hm, Hy.
  - simpl. destruct (Q.max_spec (xmax e) (cx (_getPrjCoordinates g)))
      as [[_ Hm]|[_ Hm]].
    + exists pt. split; [apply elem_of_app; right; by left|]. by rewrite Hm, Hx.
    + exists p3. split; [apply elem_of_app; by left|by rewrite Hm].
  - simpl. destruct (Q.max_spec (ymax e) (cy (_getPrjCoordinates g)))
      as [[_ Hm]|[_ Hm]].
    + exists pt. split; [apply elem_of_app; right; by left|]. by rewrite Hm, Hy.
    + exists p4. split; [apply elem_of_app; by left|by rewrite Hm].
Qed.

Lemma initGridSystem_box_fold (geoList : list Geometry)
    (acc : option Extent * list MarkerPoint) :
  Forall (λ g, isVisible g = true → extent_is_position g) geoList →
  match acc.1 with Some e => bounding_box e acc.2 | None => acc.2 = [] end →
  let res := foldl initGrid_step acc geoList in
  match res.1 with Some e => bounding_box e res.2 | None => res.2 = [] end.
Proof.
  revert acc. induction geoList as [|g l IH]; intros [e pts] Hown Hacc; [done|].
  apply Forall_cons in Hown as [Hg Hown].
  cbn [foldl]. apply IH; [done|]. unfold initGrid_step.
  destruct (isVisible g); [|done]. cbn [fst snd] in *. destruct e as [e|].
  - by apply bounding_box_combine; [apply Hg| | |].
  - rewrite Hacc. by apply bounding_box_single; [apply Hg| |].
Qed.

Lemma Qfloor_unique (q : Q) (k : Z) :
  (inject_Z k <= q)%Q → (q < inject_Z (k + 1))%Q → Qfloor q = k.
Proof.
  intros Hlo Hhi.
  assert (k ≤ Qfloor q)%Z.
  { rewrite <- (Qfloor_Z k). by apply Qfloor_resp_le. }
  assert (Qfloor q < k + 1)%Z.
  { rewrite Zlt_Qlt. eapply Qle_lt_trans; [apply Qfloor_le|done]. }
  lia.
Qed.

Lemma Qfloor_half (q : Q) : Qfloor (q / 2) = (Qfloor q / 2)%Z.
Proof.
  pose proof (Qfloor_le q) as Hlo. pose proof (Qlt_floor q) as Hhi.
  set (g := Qfloor q) in *.
  pose proof (Z.div_mod g 2 ltac:(lia)) as Hdm.
  pose proof (Z.mod_pos_bound g 2 ltac:(lia)) as Hm.
  apply Qfloor_unique.
  - apply Qle_shift_div_l; [reflexivity|].
    eapply Qle_trans; [|exact Hlo].
    change 2%Q with (inject_Z 2). rewrite <- inject_Z_mult, <- Zle_Qle. lia.
  - apply Qlt_shift_div_r; [reflexivity|].
    eapply Qlt_le_trans; [exact Hhi|].
    change 2%Q with (inject_Z 2). rewrite <- inject_Z_mult, <- Zle_Qle. lia.
Qed.

Lemma floor_div_double (d r : Q) :
  floor_div d (2 * r) = idx_half (floor_div d r).
Proof.
  unfold floor_div.
  assert (Qeq_bool (2 * r) 0 = Qeq_bool r 0) as ->.
  { destruct (Qeq_bool r 0) eqn:Hr.
    - apply Qeq_bool_iff. apply Qeq_bool_iff in Hr. rewrite Hr. reflexivity.
    - apply not_true_iff_false. intros H2%Qeq_bool_iff.
      apply not_true_iff_false in Hr. apply Hr, Qeq_bool_iff. lra. }
  destruct (Qeq_bool r 0) eqn:Hr.
  - by destruct (Qle_bool d 0), (Qle_bool 0 d).
  - cbn [idx_half]. f_equal. rewrite <- Qfloor_half. apply Qfloor_comp.
    field. intros Heq. apply not_true_iff_false in Hr. by apply Hr, Qeq_bool_iff.
Qed.

Lemma floor_div_proper (d r r' : Q) : (r == r')%Q → floor_div d r = floor_div d r'.
Proof.
  intros Heq. unfold floor_div.
  assert (Qeq_bool r 0 = Qeq_bool r' 0) as ->.
  { destruct (Qeq_bool r' 0) eqn:Hr.
    - apply Qeq_bool_iff. apply Qeq_bool_iff in Hr. by rewrite Heq.
    - apply not_true_iff_false. intros H2%Qeq_bool_iff.
      apply not_true_iff_false in Hr. apply Hr, Qeq_bool_iff. by rewrite <- Heq. }
  destruct (Qeq_bool r' 0); [done|]. f_equal. apply Qfloor_comp. by rewrite Heq.
Qed.

(** X5 (the point index).  [_initGridSystem] indexes exactly the visible
    markers of the layer, in the order of the layer, each point being a
    copy of the projected coordinates and the id of its marker; it leaves
    the extent undefined exactly when no marker is visible, and then the
    index is empty. *)
Theorem initGridSystem_indexes_visible (geoList : list Geometry) :
  geometry <$> (_initGridSystem geoList).2 = filter (λ g, isVisible g) geoList ∧
  Forall point_copies_marker (_initGridSystem geoList).2 ∧
  ((_initGridSystem geoList).1 = None ↔
   Forall (λ g, isVisible g = false) geoList) ∧
  ((_initGridSystem geoList).1 = None ↔ (_initGridSystem geoList).2 = []).
Proof.
  split; [apply initGridSystem_geometries|].
  split; [by apply initGridSystem_index_fold|].
  destruct (initGridSystem_extent_fold geoList (None, [])) as [H1 H2]; [done|].
  split; [|done]. unfold _initGridSystem. rewrite H1. simpl. tauto.
Qed.

(** X6 (the extent of the index).  When the extent of every visible marker
    is the marker's own position (no marker caches an extent that an
    earlier indexing has widened), the extent that [_initGridSystem]
    accumulates is the bounding box of the indexed points: every point lies
    inside it, and each of its four edges passes through a point; so the
    origin of the grid, [getMin], is the least [x] and the least [y] of the
    points. *)
Theorem markerExtent_is_bounding_box (geoList : list Geometry) (ext : Extent)
    (points : list MarkerPoint) :
  Forall (λ g, isVisible g = true → extent_is_position g) geoList →
  _initGridSystem geoList = (Some ext, points) → bounding_box ext points.
Proof.
  intros Hown Hinit.
  pose proof (initGridSystem_box_fold geoList (None, []) Hown eq_refl) as Hbox.
  fold (_initGridSystem geoList) in Hbox. by rewrite Hinit in Hbox.
Qed.

Lemma markerExtent_is_bounding_box_witness :
  Forall (λ g, isVisible g = true → extent_is_position g) corner_geos ∧
  _initGridSystem corner_geos = (Some corner_extent, corner_points) ∧
  bounding_box corner_extent corner_points.
Proof.
  assert (Forall (λ g, isVisible g = true → extent_is_position g) corner_geos)
    as Hown by (repeat constructor).
  split; [exact Hown|]. split; [reflexivity|].
  apply (markerExtent_is_bounding_box corner_geos corner_extent corner_points);
    [exact Hown|reflexivity].
Defined.

(** A marker that caches a widened extent keeps the origin of the grid
    away from the markers: the only marker of [stale_remaining] is at
    (100, 100), and the extent of its index still reaches the origin. *)
Example stale_extent_reaches_origin :
  _initGridSystem stale_remaining
  = (Some (mkExtent 0 0 100 100),
     [mkMarkerPoint 100 100 0 (with_extent (mkExtent 0 0 100 100)
                                           (marker_at 100 100 0))]).
Proof. vm_compute. reflexivity. Qed.

(** X8 (the grids of two levels nest).  When the resolution of the level
    [zoom - 1] is twice that of the level [zoom], the cell of a point at
    the coarser level is the cell of the point at the finer level with
    both indices halved and rounded down: the points of one cell of
    [zoom] fall in one cell of [zoom - 1]. *)
Theorem coarser_cell_is_half (map : Map) (options : Options) (min : Coordinate)
    (zoom : Z) (x y : Q) :
  (_getResolution map (zoom - 1) == 2 * _getResolution map zoom)%Q →
  cellKey min (cellSize map options (zoom - 1)) x y
  = (idx_half (cellKey min (cellSize map options zoom) x y).1,
     idx_half (cellKey min (cellSize map options zoom) x y).2).
Proof.
  intros Hres. unfold cellKey. cbn [fst snd].
  assert (cellSize map options (zoom - 1) == 2 * cellSize map options zoom)%Q
    as Hsize.
  { unfold cellSize. rewrite Hres. ring. }
  by rewrite !(floor_div_proper _ _ _ Hsize), !floor_div_double.
Qed.

Lemma coarser_cell_is_half_witness :
  (_getResolution (example_map 2) (2 - 1)
   == 2 * _getResolution (example_map 2) 2)%Q ∧
  cellKey (mkCoordinate 0 0) (cellSize (example_map 2) (example_options 10) (2 - 1))
          35 7
  = (idx_half (cellKey (mkCoordinate 0 0)
                 (cellSize (example_map 2) (example_options 10) 2) 35 7).1,
     idx_half (cellKey (mkCoordinate 0 0)
                 (cellSize (example_map 2) (example_options 10) 2) 35 7).2).
Proof.
  split; [reflexivity|].
  apply (coarser_cell_is_half (example_map 2) (example_options 10)
           (mkCoordinate 0 0) 2 35 7).
  reflexivity.
Defined.

(** ** The cache of levels *)

Section CacheFacts.
Variable map : Map.
Variable options : Options.
Variable ext : Extent.
Variable points : list MarkerPoint.

Local Abbreviation rec := (_computeZoomGrid_rec map options (Some ext) points).

Lemma computeZoomGrid_rec_cache (n : nat) (cache : Cache) (zoom : Z) :
  (rec n cache zoom).1
  = match cache_get cache (zoom - 1) with
    | Some _ => cache
    | None =>
        if (getMinZoom map <=? zoom - 1)%Z then
          match n with
          | S n' => <[(zoom - 1)%Z := (rec n' cache (zoom - 1)).2]>
                      (rec n' cache (zoom - 1)).1
          | O => cache
          end
        else cache
    end.
Proof.
  destruct n as [|n]; simpl.
  - destruct (cache_get cache (zoom - 1)); [done|].
    by destruct (getMinZoom map <=? zoom - 1)%Z.
  - destruct (cache_get cache (zoom - 1)); [done|].
    destruct (getMinZoom map <=? zoom - 1)%Z; [|done].
    by destruct (rec n cache (zoom - 1)).
Qed.

Lemma computeZoomGrid_rec_is_Some (n : nat) (cache : Cache) (zoom : Z) :
  is_Some (rec n cache zoom).2.
Proof. rewrite computeZoomGrid_rec_eq. by eexists. Qed.

Lemma cache_get_insert_ne (cache : Cache) (z z' : Z) (res : option LevelResult) :
  z ≠ z' → cache_get (<[z := res]> cache) z' = cache_get cache z'.
Proof. intros. unfold cache_get. by rewrite lookup_insert_ne. Qed.

(** What a call leaves in the cache. *)
Lemma computeZoomGrid_rec_writes (n : nat) (cache : Cache) (zoom : Z) :
  (∀ z lr, cache_get cache z = Some lr →
           cache_get (rec n cache zoom).1 z = Some lr) ∧
  (∀ z, (zoom ≤ z ∨ z < getMinZoom map)%Z →
        (rec n cache zoom).1 !! z = cache !! z) ∧
  (∀ z, (rec n cache zoom).1 !! z ≠ cache !! z →
        cache_get cache z = None ∧ is_Some (cache_get (rec n cache zoom).1 z)).
Proof.
  revert cache zoom. induction n as [|n IH]; intros cache zoom;
    rewrite computeZoomGrid_rec_cache.
  - destruct (cache_get cache (zoom - 1)); [done|].
    by destruct (getMinZoom map <=? zoom - 1)%Z.
  - destruct (cache_get cache (zoom - 1)) as [pc|] eqn:Hpc; [done|].
    destruct (Z.leb_spec (getMinZoom map) (zoom - 1)) as [Hmin|Hmin]; [|done].
    destruct (IH cache (zoom - 1)%Z) as (Hkeep & Hout & Hnew).
    split; [|split].
    + intros z lr Hz. rewrite cache_get_insert_ne; [by apply Hkeep|].
      intros <-. congruence.
    + intros z Hz. rewrite lookup_insert_ne by lia. apply Hout. lia.
    + intros z Hz. destruct (decide (z = zoom - 1)%Z) as [->|Hne].
      * split; [done|]. rewrite cache_get_insert.
        apply computeZoomGrid_rec_is_Some.
      * rewrite lookup_insert_ne in Hz by done.
        rewrite cache_get_insert_ne by done. by apply Hnew.
Qed.

Lemma computeZoomGrid_rec_fills (n : nat) (cache : Cache) (zoom : Z) :
  (getMinZoom map ≤ zoom - 1)%Z → (zoom - getMinZoom map ≤ Z.of_nat n)%Z →
  is_Some (cache_get (rec n cache zoom).1 (zoom - 1)).
Proof.
  intros Hmin Hn. rewrite computeZoomGrid_rec_cache.
  destruct (cache_get cache (zoom - 1)) as [pc|] eqn:Hpc; [by rewrite Hpc|].
  destruct (Z.leb_spec (getMinZoom map) (zoom - 1)); [|lia].
  destruct n as [|n]; [lia|].
  rewrite cache_get_insert. apply computeZoomGrid_rec_is_Some.
Qed.

Lemma cache_coherent_empty : cache_coherent map options ext points ∅.
Proof. intros z lr Hz. unfold cache_get in Hz. by rewrite lookup_empty in Hz. Qed.

(** With a coherent cache a level is computed as with an empty cache, and
    the cache stays coherent. *)
Lemma computeZoomGrid_rec_coherent (n : nat) (cache : Cache) (zoom : Z) :
  cache_coherent map options ext points cache →
  (zoom - getMinZoom map ≤ Z.of_nat n)%Z →
  cache_get (rec n cache zoom).1 (zoom - 1)
  = (if (getMinZoom map <=? zoom - 1)%Z
     then level_from_scratch map options ext points (zoom - 1) else None) ∧
  cache_coherent map options ext points (rec n cache zoom).1.
Proof.
  revert cache zoom. induction n as [|n IH]; intros cache zoom Hco Hn;
    rewrite computeZoomGrid_rec_cache.
  - destruct (cache_get cache (zoom - 1)) as [pc|] eqn:Hpc.
    + destruct (Hco _ _ Hpc) as [Hmin Hlr]. lia.
    + destruct (Z.leb_spec (getMinZoom map) (zoom - 1)); [lia|by split].
  - destruct (cache_get cache (zoom - 1)) as [pc|] eqn:Hpc.
    + destruct (Hco _ _ Hpc) as [Hmin Hlr]. split; [|done].
      destruct (Z.leb_spec (getMinZoom map) (zoom - 1)); [|lia].
      by rewrite Hpc, Hlr.
    + destruct (Z.leb_spec (getMinZoom map) (zoom - 1)) as [Hmin|Hmin];
        [|by split].
      destruct (IH cache (zoom - 1)%Z Hco ltac:(lia)) as [Hpre Hco1].
      destruct (IH ∅ (zoom - 1)%Z cache_coherent_empty ltac:(lia)) as [Hpre0 _].
      assert ((rec n cache (zoom - 1)).2
              = level_from_scratch map options ext points (zoom - 1)) as Hsame.
      { unfold level_from_scratch, _computeZoomGrid.
        rewrite (computeZoomGrid_rec_enough map options ext points _ n ∅ (zoom - 1))
          by lia.
        rewrite !computeZoomGrid_rec_eq. by rewrite Hpre, Hpre0. }
      rewrite cache_get_insert. split; [done|].
      intros z lr Hz. destruct (decide (z = zoom - 1)%Z) as [->|Hne].
      * rewrite cache_get_insert in Hz. split; [done|]. by rewrite <- Hsame.
      * rewrite cache_get_insert_ne in Hz by done. by apply Hco1.
Qed.

Lemma computeZoomGrid_coherent (cache : Cache) (zoom : Z) :
  cache_coherent map options ext points cache →
  (_computeZoomGrid map options (Some ext) points cache zoom).2
  = level_from_scratch map options ext points zoom ∧
  cache_coherent map options ext points
    (_computeZoomGrid map options (Some ext) points cache zoom).1.
Proof.
  intros Hco. unfold level_from_scratch, _computeZoomGrid.
  destruct (computeZoomGrid_rec_coherent
              (Z.to_nat (zoom - getMinZoom map)) cache zoom Hco ltac:(lia))
    as [Hpre Hco'].
  destruct (computeZoomGrid_rec_coherent
              (Z.to_nat (zoom - getMinZoom map)) ∅ zoom cache_coherent_empty
              ltac:(lia)) as [Hpre0 _].
  split; [|done]. rewrite !computeZoomGrid_rec_eq. by rewrite Hpre, Hpre0.
Qed.
End CacheFacts.


(** X10 (the cache is transparent).  If every cached level is what an
    empty cache would give for it, then [_computeZoomGrid] returns for
    [zoom] what it returns with an empty cache, and the levels it adds to
    the cache are again what an empty cache would give. *)
Theorem cached_levels_equal_fresh_ones (map : Map) (options : Options)
    (ext : Extent) (points : list MarkerPoint) (cache : Cache) (zoom : Z) :
  cache_coherent map options ext points cache →
  (_computeZoomGrid map options (Some ext) points cache zoom).2
  = level_from_scratch map options ext points zoom ∧
  cache_coherent map options ext points
    (_computeZoomGrid map options (Some ext) points cache zoom).1.
Proof. apply computeZoomGrid_coherent. Qed.

Lemma cached_levels_equal_fresh_ones_witness :
  cache_coherent (example_map 2) (example_options 2) row_extent row_points
    (_computeZoomGrid (example_map 2) (example_options 2) (Some row_extent)
       row_points ∅ 1).1 ∧
  (_computeZoomGrid (example_map 2) (example_options 2) (Some row_extent) row_points
     (_computeZoomGrid (example_map 2) (example_options 2) (Some row_extent)
        row_points ∅ 1).1 2).2
  = level_from_scratch (example_map 2) (example_options 2) row_extent row_points 2 ∧
  cache_coherent (example_map 2) (example_options 2) row_extent row_points
    (_computeZoomGrid (example_map 2) (example_options 2) (Some row_extent) row_points
       (_computeZoomGrid (example_map 2) (example_options 2) (Some row_extent)
          row_points ∅ 1).1 2).1.
Proof.
  assert (cache_coherent (example_map 2) (example_options 2) row_extent row_points
            (_computeZoomGrid (example_map 2) (example_options 2) (Some row_extent)
               row_points ∅ 1).1) as Hco.
  { apply computeZoomGrid_coherent, cache_coherent_empty. }
  split; [exact Hco|].
  exact (cached_levels_equal_fresh_ones (example_map 2) (example_options 2)
           row_extent row_points _ 2 Hco).
Defined.

Lemma truthyQ_mult_l (a b : Q) : truthyQ (a * b) = true → truthyQ a = true.
Proof.
  unfold truthyQ. intros Hab. destruct (Qeq_bool a 0) eqn:Ha; [|done].
  apply Qeq_bool_iff in Ha. exfalso.
  apply negb_true_iff, not_true_iff_false in Hab. apply Hab, Qeq_bool_iff.
  rewrite Ha. ring.
Qed.



(** ** [_computeGrid] and [draw] *)

Section ComputeGridFacts.
Variable map : Map.
Variable options : Options.
Variable geoList : list Geometry.

Lemma computeGrid_spec (st : Renderer) :
  let index := index_of geoList st in
  let cache0 := default ∅ (_clusterCache st) in
  let computed :=
    _computeZoomGrid map options index.1 index.2 cache0 (getZoom map) in
  _computeGrid map options geoList st
  = mkRenderer index.1 index.2
      (Some match cache_get cache0 (getZoom map) with
            | Some _ => cache0
            | None => <[getZoom map := computed.2]> computed.1
            end)
      (_clusterNeedRedraw st) (_currentClusters st) (_markersToDraw st).
Proof.
  intros index cache0 computed. unfold _computeGrid.
  fold (index_of geoList st). fold index. destruct index as [extent points] eqn:Hindex.
  fold cache0.
  assert (match cache_get cache0
                  (if negb (Qle_bool (_getResolution map (getMinZoom map))
                                     (_getResolution map (getMaxZoom map)))
                   then (getZoom map - 1)%Z else (getZoom map + 1)%Z) with
          | Some lr =>
              if strict_equals (LevelResult_length lr)
                               (JsNumber (Z.of_nat (length geoList)))
              then <[getZoom map := Some lr]> cache0 else cache0
          | None => cache0
          end = cache0) as ->.
  { destruct (cache_get cache0 _) as [lr|]; reflexivity. }
  cbn [fst snd]. f_equal. f_equal.
  destruct (cache_get cache0 (getZoom map)); [done|].
  unfold computed. cbn [fst snd].
  by destruct (_computeZoomGrid map options extent points cache0 (getZoom map)).
Qed.

Lemma index_of_computeGrid (st : Renderer) :
  index_of geoList (_computeGrid map options geoList st) = index_of geoList st.
Proof.
  rewrite computeGrid_spec. unfold index_of at 1. cbn [_markerExtent _markerPoints].
  destruct (index_of geoList st) as [[e|] pts] eqn:Hindex; [done|]. cbn [fst snd].
  unfold index_of in Hindex. by destruct (_markerExtent st).
Qed.

Lemma computeZoomGrid_is_Some (ext : Extent) (points : list MarkerPoint)
    (cache : Cache) (zoom : Z) :
  is_Some (_computeZoomGrid map options (Some ext) points cache zoom).2.
Proof. rewrite computeZoomGrid_eq. by eexists. Qed.

Lemma computeGrid_idem (st : Renderer) :
  _computeGrid map options geoList (_computeGrid map options geoList st)
  = _computeGrid map options geoList st.
Proof.
  pose proof (computeGrid_spec st) as Hst. cbn zeta in Hst.
  pose proof (index_of_computeGrid st) as Hindex.
  set (st' := _computeGrid map options geoList st) in *.
  set (cache0 := default ∅ (_clusterCache st)) in *.
  set (cache2 := match cache_get cache0 (getZoom map) with
                 | Some _ => cache0
                 | None => _
                 end) in *.
  assert (_clusterCache st' = Some cache2) as Hc by (by rewrite Hst).
  assert (_clusterNeedRedraw st' = _clusterNeedRedraw st) as Hf by (by rewrite Hst).
  assert (_currentClusters st' = _currentClusters st) as Hcc by (by rewrite Hst).
  assert (_markersToDraw st' = _markersToDraw st) as Hm by (by rewrite Hst).
  rewrite (computeGrid_spec st'). cbn zeta.
  rewrite Hindex, Hc, Hf, Hcc, Hm. cbn [default from_option].
  unfold Datatypes.id. rewrite Hst.
  f_equal. f_equal. unfold cache2.
  destruct (index_of geoList st) as [extent points]. cbn [fst snd].
  destruct (cache_get cache0 (getZoom map)) as [lr|] eqn:Hlr.
  - by rewrite Hlr.
  - rewrite cache_get_insert. destruct extent as [ext|].
    + by destruct (computeZoomGrid_is_Some ext points cache0 (getZoom map))
        as [lr' ->].
    + rewrite !computeZoomGrid_no_extent. cbn [fst snd].
      by rewrite insert_insert_eq.
Qed.
End ComputeGridFacts.

Section DrawFacts.
Variable map : Map.
Variable options : Options.
Variable geoList : list Geometry.
Variable inContainerExtent : Cluster → bool.

Local Abbreviation draw' := (draw map options geoList inContainerExtent).

(** A [draw] that finds [_clusterNeedRedraw] set computes everything from
    the layer. *)
Lemma draw_recomputed (st : Renderer) :
  aboveMaxClusterZoom map options = false →
  _clusterNeedRedraw st = true →
  let index := _initGridSystem geoList in
  let computed := _computeZoomGrid map options index.1 index.2 ∅ (getZoom map) in
  let toDraw := _getClustersToDraw options inContainerExtent computed.2 in
  draw' st
  = Ok (mkRenderer index.1 index.2
          (Some (<[getZoom map := computed.2]> computed.1)) false
          (Some toDraw.2) (Some toDraw.1)).
Proof.
  intros Habove Hflag index computed toDraw. unfold draw.
  rewrite Habove, Hflag, computeGrid_spec. cbn zeta.
  cbn [_markerExtent _markerPoints _clusterCache _clusterNeedRedraw
       _currentClusters _markersToDraw _clearDataCache default from_option].
  unfold index_of. cbn [_clearDataCache _markerExtent].
  rewrite cache_get_empty, cache_get_insert. done.
Qed.

Lemma draw_idem (st st1 : Renderer) : draw' st = Ok st1 → draw' st1 = Ok st1.
Proof.
  unfold draw. destruct (aboveMaxClusterZoom map options).
  - intros [= <-]. done.
  - set (st0 := if _clusterNeedRedraw st then _ else st).
    destruct (_clusterCache st0) as [cache|] eqn:Hcache; [|done].
    intros [= <-]. cbn [_clusterNeedRedraw _clusterCache _markerExtent _markerPoints].
    assert (_clusterNeedRedraw st0 = false) as ->; [|done].
    unfold st0. by destruct (_clusterNeedRedraw st) eqn:Hflag.
Qed.
End DrawFacts.

(** X12 ([_computeGrid] is idempotent).  Calling [_computeGrid] again, at
    the same zoom and with the same layer, changes nothing: the index is
    kept, and the level of the map is found in the cache or, when the layer
    has no visible marker, stored as [null] again. *)
Theorem computeGrid_idempotent (map : Map) (options : Options)
    (geoList : list Geometry) (st : Renderer) :
  _computeGrid map options geoList (_computeGrid map options geoList st)
  = _computeGrid map options geoList st.
Proof. apply computeGrid_idem. Qed.

(** X13 ([draw] is idempotent).  When [draw] returns, drawing again with
    the same map, options and layer returns the same state: nothing is
    recomputed and the same clusters and markers are drawn. *)
Theorem draw_idempotent (map : Map) (options : Options)
    (geoList : list Geometry) (inContainerExtent : Cluster → bool)
    (st st1 : Renderer) :
  draw map options geoList inContainerExtent st = Ok st1 →
  draw map options geoList inContainerExtent st1 = Ok st1.
Proof. apply draw_idem. Qed.

Lemma draw_idempotent_witness :
  draw (example_map 2) (example_options 10) scenarioA_geos (λ _, true)
       fresh_renderer = Ok scenarioA_drawn ∧
  draw (example_map 2) (example_options 10) scenarioA_geos (λ _, true)
       scenarioA_drawn = Ok scenarioA_drawn.
Proof.
  assert (draw (example_map 2) (example_options 10) scenarioA_geos (λ _, true)
               fresh_renderer = Ok scenarioA_drawn) as Hdraw.
  { vm_compute. reflexivity. }
  split; [exact Hdraw|].
  exact (draw_idempotent _ _ _ _ _ _ Hdraw).
Defined.



(** ** Sequences of events *)

Section LifecycleFacts.
Variable minZoom maxZoom : Z.
Variable resolution : Z → Q.
Variable options : Options.

Local Abbreviation map_at' := (map_at minZoom maxZoom resolution).
Local Abbreviation handle' := (handle minZoom maxZoom resolution options).
Local Abbreviation run' := (run minZoom maxZoom resolution options).

Lemma run_app (t1 t2 : list Moment) (st : Renderer) :
  run' (t1 ++ t2) st
  = match run' t1 st with
    | Ok st' => run' t2 st'
    | Throw msg => Throw msg
    end.
Proof.
  revert st. induction t1 as [|m t1 IH]; intros st; simpl; [done|].
  by destruct (handle' m st).
Qed.

(** [draw] never fails on the cache. *)
Lemma handle_drawable (m : Moment) (st : Renderer) :
  drawable st → ∃ st', handle' m st = Ok st' ∧ drawable st'.
Proof.
  intros Hd. unfold handle.
  destruct (event m) as [| | | | | |v|];
    try (eexists; split; [reflexivity|]; by left).
  - eexists. split; [reflexivity|]. right. unfold onSymbolChanged.
    rewrite computeGrid_spec. by eexists.
  - eexists. split; [reflexivity|]. unfold onZoomEnd.
    destruct (isEmpty (layer_geos m) || negb v); [done|].
    right. rewrite computeGrid_spec. by eexists.
  - unfold draw. destruct (aboveMaxClusterZoom _ options).
    + eexists. split; [reflexivity|]. exact Hd.
    + destruct (_clusterNeedRedraw st) eqn:Hflag.
      * rewrite computeGrid_spec. cbn [_clusterCache].
        eexists. split; [reflexivity|]. right. by eexists.
      * destruct Hd as [?|[cache Hcache]]; [congruence|]. rewrite Hcache.
        eexists. split; [reflexivity|]. right. by eexists.
Qed.

Lemma run_drawable (trace : list Moment) (st : Renderer) :
  drawable st → ∃ st', run' trace st = Ok st' ∧ drawable st'.
Proof.
  revert st. induction trace as [|m trace IH]; intros st Hd.
  - by exists st.
  - simpl. destruct (handle_drawable m st Hd) as (st' & -> & Hd').
    by apply IH.
Qed.
End LifecycleFacts.

(** X15 ([draw] always finds its cache).  From the state the constructor
    leaves, every sequence of geometry events, symbol changes, zoom ends
    and draws runs to its end without [draw] failing for want of
    [_clusterCache], and leaves a state in which the cache is defined or
    is to be recomputed. *)
Theorem draw_always_finds_its_cache (minZoom maxZoom : Z) (resolution : Z → Q)
    (options : Options) (trace : list Moment) :
  ∃ st, run minZoom maxZoom resolution options trace fresh_renderer = Ok st ∧
        drawable st.
Proof. apply run_drawable. by left. Qed.

(** ** A layer without visible markers, through the life of the renderer *)

Lemma uncached_visible (l1 l2 : list Geometry) :
  uncached <$> l1 = uncached <$> l2 →
  Forall (λ g, isVisible g = false) l1 → Forall (λ g, isVisible g = false) l2.
Proof.
  revert l2. induction l1 as [|g1 l1 IH]; intros [|g2 l2] Heq Hall; try done.
  rewrite !fmap_cons in Heq.
  pose proof (f_equal (λ l, match l with g :: _ => isVisible g | [] => true end)
                Heq) as Hv.
  pose proof (f_equal tail Heq) as Hl. cbn [tail uncached isVisible] in Hv, Hl.
  apply Forall_cons in Hall as [Hg1 Hall]. constructor; [|by apply IH].
  cbn beta. congruence.
Qed.

Lemma filter_invisible (l : list Geometry) :
  Forall (λ g, isVisible g = false) l → filter (λ g, isVisible g) l = [].
Proof.
  induction 1 as [|g l Hg _ IH]; [done|].
  rewrite filter_cons_False; [done|]. rewrite Hg. exact (λ x, x).
Qed.

Lemma layer_tracked_app (p m : Moment) (trace : list Moment) :
  layer_tracked p (trace ++ [m]) →
  layer_tracked p trace ∧ layer_follows (last_moment p trace) m.
Proof.
  revert p. induction trace as [|m' trace IH]; intros p; simpl.
  - by intros [? _].
  - intros [Hfol Htr]. destruct (IH m' Htr) as [? ?]. done.
Qed.

Section EmptyLayer.
Variable minZoom maxZoom : Z.
Variable resolution : Z → Q.
Variable options : Options.

Local Abbreviation map_at' := (map_at minZoom maxZoom resolution).
Local Abbreviation handle' := (handle minZoom maxZoom resolution options).
Local Abbreviation run' := (run minZoom maxZoom resolution options).

Lemma computeGrid_settled (map : Map) (geos : list Geometry) (st : Renderer) :
  settled geos st → settled geos (_computeGrid map options geos st).
Proof.
  intros Hst. rewrite computeGrid_spec. cbn zeta.
  destruct Hst as [Hflag|(cache & Hcache & Hempty)]; [by left|].
  right. eexists. split; [reflexivity|]. intros Hinv.
  destruct (Hempty Hinv) as [Hext Hnone].
  unfold index_of. rewrite Hext, Hcache.
  rewrite (initGridSystem_invisible geos Hinv).
  cbn [fst snd default from_option _markerExtent]. unfold Datatypes.id.
  split; [done|]. rewrite Hnone, computeZoomGrid_no_extent. cbn [fst snd].
  intros z. destruct (decide (z = getZoom map)) as [->|Hne].
  - by rewrite cache_get_insert.
  - by rewrite cache_get_insert_ne.
Qed.

Lemma cleared_computeGrid_settled (map : Map) (geos : list Geometry)
    (st : Renderer) :
  ∃ cache,
    _clusterCache (_computeGrid map options geos (_clearDataCache st))
    = Some cache ∧
    (Forall (λ g, isVisible g = false) geos →
     _markerExtent (_computeGrid map options geos (_clearDataCache st)) = None ∧
     ∀ z, cache_get cache z = None).
Proof.
  rewrite computeGrid_spec. cbn zeta. eexists. split; [reflexivity|].
  intros Hinv. unfold index_of.
  cbn [_clearDataCache _markerExtent _clusterCache default from_option].
  rewrite (initGridSystem_invisible geos Hinv). cbn [fst snd].
  split; [done|]. rewrite cache_get_empty, computeZoomGrid_no_extent.
  cbn [fst snd]. intros z. destruct (decide (z = getZoom map)) as [->|Hne].
  - by rewrite cache_get_insert.
  - by rewrite cache_get_insert_ne, cache_get_empty.
Qed.

(** A [draw] in a settled state succeeds, leaves a settled state, and
    draws nothing if no marker is visible. *)
Lemma draw_settled (map : Map) (geos : list Geometry)
    (inContainerExtent : Cluster → bool) (st : Renderer) :
  settled geos st →
  ∃ st', draw map options geos inContainerExtent st = Ok st' ∧
         settled geos st' ∧
         (Forall (λ g, isVisible g = false) geos →
          getClusters (Some st') = [] ∧
          filter (λ g, isVisible g) (default [] (_markersToDraw st')) = [] ∧
          (aboveMaxClusterZoom map options = false →
           (∃ cache, _clusterCache st' = Some cache ∧
                     cache_get cache (getZoom map) = None) ∧
           _currentClusters st' = Some [] ∧ _markersToDraw st' = Some [])).
Proof.
  intros Hst. unfold draw.
  destruct (aboveMaxClusterZoom map options) eqn:Habove.
  - eexists. split; [reflexivity|]. split; [exact Hst|].
    intros Hinv. cbn [getClusters _currentClusters _markersToDraw default
                      from_option]. unfold Datatypes.id.
    split; [done|]. split; [by apply filter_invisible|done].
  - destruct (_clusterNeedRedraw st) eqn:Hflag.
    + destruct (cleared_computeGrid_settled map geos st)
        as (cache & Hcache & Hempty).
      cbn [_clusterCache]. rewrite Hcache.
      eexists. split; [reflexivity|]. split.
      * right. exists cache. split; [done|]. exact Hempty.
      * intros Hinv. destruct (Hempty Hinv) as [_ Hnone].
        cbn [getClusters _currentClusters _markersToDraw _clusterCache default
             from_option]. unfold Datatypes.id.
        rewrite Hnone. cbn [_getClustersToDraw fst snd].
        split; [done|]. split; [done|]. intros _. split; [|done].
        by exists cache.
    + destruct Hst as [?|(cache & Hcache & Hempty)]; [congruence|].
      rewrite Hcache. eexists. split; [reflexivity|]. split.
      * right. exists cache. split; [done|]. exact Hempty.
      * intros Hinv. destruct (Hempty Hinv) as [_ Hnone].
        cbn [getClusters _currentClusters _markersToDraw _clusterCache default
             from_option]. unfold Datatypes.id.
        rewrite Hnone. cbn [_getClustersToDraw fst snd].
        split; [done|]. split; [done|]. intros _. split; [|done].
        by exists cache.
Qed.

Lemma handle_settled (p m : Moment) (st : Renderer) :
  _clusterNeedRedraw st = true ∨
  (layer_follows p m ∧ settled (layer_geos p) st) →
  ∃ st', handle' m st = Ok st' ∧ settled (layer_geos m) st'.
Proof.
  intros Hst.
  assert (is_geometry_event (event m) = true ∨ settled (layer_geos m) st)
    as [Hgeo|Hsettled].
  { destruct Hst as [Hflag|[[Hgeo|Hsame] Hset]]; [right; by left|by left|].
    right. destruct Hset as [Hflag|(cache & Hcache & Hempty)]; [by left|].
    right. exists cache. split; [done|]. intros Hinv. apply Hempty.
    by apply (uncached_visible (layer_geos m)). }
  - unfold handle. destruct (event m); try discriminate;
      (eexists; split; [reflexivity|]; by left).
  - unfold handle.
    destruct (event m) as [| | | | | |v|];
      try (eexists; split; [reflexivity|]; by left).
    + eexists. split; [reflexivity|]. by apply computeGrid_settled.
    + eexists. split; [reflexivity|]. unfold onZoomEnd.
      destruct (isEmpty (layer_geos m) || negb v); [done|].
      by apply computeGrid_settled.
    + destruct (draw_settled (map_at' (at_zoom m)) (layer_geos m) (in_view m)
                  st Hsettled) as (st' & Hdraw & Hset & _).
      by exists st'.
Qed.

Lemma run_settled (trace : list Moment) (p : Moment) (st : Renderer) :
  layer_tracked p trace → settled (layer_geos p) st →
  ∃ st', run' trace st = Ok st' ∧
         settled (layer_geos (last_moment p trace)) st'.
Proof.
  revert p st. induction trace as [|m trace IH]; intros p st Htr Hst.
  - by exists st.
  - destruct Htr as [Hfol Htr].
    destruct (handle_settled p m st) as (st1 & Hst1 & Hset1); [by right|].
    destruct (IH m st1 Htr Hset1) as (st' & Hrun & Hset').
    exists st'. cbn [run last_moment]. by rewrite Hst1.
Qed.
End EmptyLayer.




(** ** What [_getClustersToDraw] selects *)

Section ToDrawFacts.
Variable options : Options.
Variable inContainerExtent : Cluster → bool.

Local Abbreviation step := (clustersToDraw_step options inContainerExtent).

Lemma clustersToDraw_fold (cs : list Cluster) (acc : list Geometry * list Cluster) :
  foldl step acc cs
  = (acc.1 ++ omap (λ c, if drawn_bare options c then head (children c) else None) cs,
     acc.2 ++ filter (λ c, negb (drawn_bare options c) && inContainerExtent c) cs).
Proof.
  revert acc. induction cs as [|c cs IH]; intros [ms ds].
  - simpl. by rewrite !app_nil_r.
  - cbn [foldl]. rewrite IH. cbn [omap list_omap]. unfold clustersToDraw_step.
    fold (drawn_bare options c). cbn [fst snd].
    destruct (drawn_bare options c) eqn:Hbare.
    + rewrite filter_cons_False by (rewrite Hbare; exact (λ x, x)).
      destruct (children c) as [|marker rest]; cbn [head fst snd]; [done|].
      by rewrite <- (assoc_L (++)).
    + destruct (inContainerExtent c) eqn:Hin.
      * rewrite filter_cons_True by (rewrite Hbare, Hin; exact I).
        cbn [fst snd]. by rewrite <- (assoc_L (++)).
      * rewrite filter_cons_False by (rewrite Hbare, Hin; exact (λ x, x)).
        done.
Qed.

Lemma getClustersToDraw_spec (level : option LevelResult) :
  _getClustersToDraw options inContainerExtent level
  = (omap (λ c, if drawn_bare options c then head (children c) else None)
          (level_clusters level),
     filter (λ c, negb (drawn_bare options c) && inContainerExtent c)
            (level_clusters level)).
Proof.
  unfold _getClustersToDraw. destruct level as [lr|]; [|done].
  by rewrite clustersToDraw_fold.
Qed.

Lemma toDraw_accounts (cs : list Cluster) :
  Forall sums_members cs →
  omap (λ c, if drawn_bare options c then head (children c) else None) cs
  ++ concat (children <$>
               filter (λ c, negb (drawn_bare options c) && inContainerExtent c) cs)
  ++ concat (children <$>
               filter (λ c, negb (drawn_bare options c)
                            && negb (inContainerExtent c)) cs)
  ≡ₚ concat (children <$> cs).
Proof.
  induction 1 as [|c cs (Hpos & Hlen & _) _ IH]; [done|].
  rewrite fmap_cons. cbn [omap list_omap concat].
  destruct (drawn_bare options c) eqn:Hbare.
  - rewrite !filter_cons_False by (rewrite Hbare; exact (λ x, x)).
    apply andb_true_iff in Hbare as [Hone%Nat.eqb_eq _].
    destruct (children c) as [|g [|g' rest]]; simpl in Hlen; try lia.
    cbn [head]. simpl. by rewrite IH.
  - destruct (inContainerExtent c) eqn:Hin.
    + rewrite filter_cons_True by (rewrite Hbare, Hin; exact I).
      rewrite filter_cons_False by (rewrite Hbare, Hin; exact (λ x, x)).
      rewrite fmap_cons. cbn [concat]. rewrite <- IH.
      rewrite <- !(assoc_L (++)). apply Permutation_app_swap_app.
    + rewrite filter_cons_False by (rewrite Hbare, Hin; exact (λ x, x)).
      rewrite filter_cons_True by (rewrite Hbare, Hin; exact I).
      rewrite fmap_cons. cbn [concat]. rewrite <- IH.
      rewrite !(assoc_L (++)). rewrite <- (assoc_L (++) _ (children c)).
      rewrite Permutation_app_swap_app. by rewrite !(assoc_L (++)).
Qed.
End ToDrawFacts.



(** ** Grids in which no two cells are near *)

Lemma find_merging_no_near (grids : Grids) (r : Q) :
  wf_grids grids → (∀ m a, ¬ near grids r m a) →
  merging (find_merging grids r) = [].
Proof.
  intros Hwf Hno. pose proof (find_merging_inv grids r Hwf) as [_ Hh _ _].
  destruct (merging (find_merging grids r)) as [|[m l] mg]; [done|].
  destruct (Hh m l) as (Hl & Hne & _); [by left|].
  destruct l as [|a l]; [done|]. exfalso. apply (Hno m a).
  apply elem_of_hits_at; [done|]. rewrite <- Hl. by left.
Qed.

Lemma mergeClusters_no_near (grids : Grids) (r : Q) :
  wf_grids grids → (∀ m a, ¬ near grids r m a) →
  _mergeClusters grids r
  = mkLevelResult (heap grids) (names grids)
                  (foldl (λ cm p, <[p := p]> cm) ∅ (names grids)).
Proof.
  intros Hwf Hno. unfold _mergeClusters.
  by rewrite (find_merging_no_near grids r Hwf Hno).
Qed.

Lemma not_near_negative (grids : Grids) (r : Q) (m a : Key) :
  (r < 0)%Q → ¬ near grids r m a.
Proof.
  intros Hr (c1 & c2 & _ & _ & _ & Hwithin). apply within_spec in Hwithin as [Hle _].
  apply (Qlt_irrefl 0). by eapply Qle_lt_trans.
Qed.





(** ** The parent lookup of [_drawClustersFrame] *)

Lemma floor_div_proper_l (d d' r : Q) : (d == d')%Q → floor_div d r = floor_div d' r.
Proof.
  intros Heq. unfold floor_div.
  rewrite (Qleb_comp d d' Heq 0%Q 0%Q (Qeq_refl 0)).
  rewrite (Qleb_comp 0%Q 0%Q (Qeq_refl 0) d d' Heq).
  destruct (Qeq_bool r 0); [done|]. f_equal. apply Qfloor_comp. by rewrite Heq.
Qed.

Lemma cellKey_proper (min : Coordinate) (r x x' y y' : Q) :
  (x == x')%Q → (y == y')%Q → cellKey min r x y = cellKey min r x' y'.
Proof.
  intros Hx Hy. unfold cellKey.
  rewrite (floor_div_proper_l (x - cx min) (x' - cx min)) by (by rewrite Hx).
  by rewrite (floor_div_proper_l (y - cy min) (y' - cy min)) by (by rewrite Hy).
Qed.



(** ** The order of the clusters *)

Lemma absorb_cells (grids : Grids) (m a : Key) (st : Merge) :
  cells_kept grids st → cells_kept grids (absorb m st a).
Proof.
  intros [[Hnd Hkey Hheap] Hsub]. unfold absorb.
  destruct (heap (m_grids st) !! a) as [t|] eqn:Ht; [|done].
  destruct (grids_get _ _) as [live|]; [|done].
  destruct (heap (m_grids st) !! m) as [grid|] eqn:Hg; [|done].
  split; [split|]; cbn [m_grids names heap].
  - by apply NoDup_filter.
  - intros k c. destruct (decide (m = k)) as [<-|Hne].
    + rewrite lookup_insert_eq. intros [= <-]. cbn [merge_into key].
      by apply Hkey.
    + rewrite lookup_insert_ne by done. apply Hkey.
  - intros k [_ Hk]%list_elem_of_filter. destruct (decide (m = k)) as [<-|Hne].
    + rewrite lookup_insert_eq. by eexists.
    + rewrite lookup_insert_ne by done. by apply Hheap.
  - etrans; [apply sublist_filter|done].
Qed.

Lemma recenter_cells (grids : Grids) (m : Key) (st : Merge) :
  cells_kept grids st → cells_kept grids (recenter m st).
Proof.
  intros [[Hnd Hkey Hheap] Hsub]. unfold recenter.
  destruct (heap (m_grids st) !! m) as [grid|] eqn:Hg; [|done].
  split; [split|]; cbn [m_grids names heap]; [done| | |done].
  - intros k c. destruct (decide (m = k)) as [<-|Hne].
    + rewrite lookup_insert_eq. intros [= <-]. cbn [recentre key].
      by apply Hkey.
    + rewrite lookup_insert_ne by done. apply Hkey.
  - intros k Hk. destruct (decide (m = k)) as [<-|Hne].
    + rewrite lookup_insert_eq. by eexists.
    + rewrite lookup_insert_ne by done. by apply Hheap.
Qed.

Lemma merge_entry_cells (grids : Grids) (e : Key * list Key) (st : Merge) :
  cells_kept grids st → cells_kept grids (merge_entry st e).
Proof.
  intros Hst. unfold merge_entry. destruct (grids_get _ _) as [live|]; [|done].
  apply recenter_cells. generalize dependent st.
  induction e.2 as [|a l IH]; intros st Hst; [done|].
  cbn [foldl]. by apply IH, absorb_cells.
Qed.

Lemma mergeClusters_cells (grids : Grids) (r : Q) :
  wf_cells grids →
  wf_cells (mkGrids (clusters (_mergeClusters grids r))
                    (objects (_mergeClusters grids r))) ∧
  sublist (clusters (_mergeClusters grids r)) (names grids).
Proof.
  intros Hwf. unfold _mergeClusters. cbn [clusters objects].
  generalize (foldl (λ cm p, <[p := p]> cm) (∅ : gmap Key Key) (names grids)).
  intros cm. generalize (merging (find_merging grids r)). intros mg.
  assert (cells_kept grids (mkMerge grids cm)) as Hst by (by split).
  revert Hst. generalize (mkMerge grids cm).
  induction mg as [|e mg IH]; intros st Hst.
  - destruct Hst as [Hcells Hsub]. by destruct st as [[] ?].
  - cbn [foldl]. by apply IH, merge_entry_cells.
Qed.

Lemma cluster_list_keys (h : gmap Key Cluster) (l : list Key) :
  (∀ k, k ∈ l → is_Some (h !! k)) → (∀ k c, h !! k = Some c → key c = k) →
  key <$> omap (λ k, h !! k) l = l.
Proof.
  intros Hheap Hkey. induction l as [|k l IH]; [done|].
  cbn [omap list_omap]. destruct (Hheap k) as [c Hc]; [by left|]. rewrite Hc.
  rewrite fmap_cons, (Hkey k c Hc). f_equal. apply IH.
  intros j Hj. apply Hheap. by right.
Qed.

(** X21 (the order and the keys of the clusters).  For the cells bucketed
    with a cell size that is not zero, the clusters that [_mergeClusters]
    returns are some of the cells, in the order in which the cells were
    created, none of them twice; each has a cluster object, and the [key]
    fields of the clusters, in the order of the walk over [clusters], are
    the property names themselves. *)
Theorem clusters_keep_cell_order (sumProperty : option string) (min : Coordinate)
    (r : Q) (preT : option Q) (preCache : option LevelResult)
    (points : list MarkerPoint) (radius : Q) :
  truthyQ r = true →
  let grids := bucket sumProperty min r preT preCache points in
  let lr := _mergeClusters grids radius in
  sublist (clusters lr) (names grids) ∧ NoDup (clusters lr) ∧
  key <$> cluster_list lr = clusters lr.
Proof.
  intros Hr grids lr.
  destruct (mergeClusters_cells grids radius
              (bucket_wf_cells sumProperty min r preT preCache points))
    as [[Hnd Hkey Hheap] Hsub].
  split; [done|]. split; [done|].
  by apply cluster_list_keys.
Qed.

Lemma clusters_keep_cell_order_witness :
  truthyQ 10 = true ∧
  let grids := corner_grids in
  let lr := _mergeClusters grids 5 in
  sublist (clusters lr) (names grids) ∧ NoDup (clusters lr) ∧
  key <$> cluster_list lr = clusters lr.
Proof.
  split; [reflexivity|].
  apply (clusters_keep_cell_order None (getMin corner_extent) 10 None None
           corner_points 5).
  reflexivity.
Defined.

(** ** [fromJSON] and [toJSON] *)

Section ProfileFacts.
Variable Layer Id Opts GeoJSON : Type.
Variable new_ClusterLayer : Id → Opts → Layer.
Variable Geometry_fromJSON : GeoJSON → Outcome (option Class).
Variable super_addGeometry : Layer → MarkersArg → Layer.
Variable super_toJSON : Layer → LayerJSON Id Opts GeoJSON.

Lemma parse_fold_throw (geoJSONs : list GeoJSON) (msg : string) :
  foldl (parse_step Geometry_fromJSON) (Throw msg) geoJSONs = Throw msg.
Proof. by induction geoJSONs. Qed.

Lemma parse_fold (geoJSONs : list GeoJSON) (built : list (option Class))
    (acc : list JsVal) :
  Forall2 (λ geoJSON geo, Geometry_fromJSON geoJSON = Ok geo) geoJSONs built →
  foldl (parse_step Geometry_fromJSON) (Ok acc) geoJSONs
  = Ok (acc ++ omap (fmap VObject) built).
Proof.
  intros Hall. revert acc.
  induction Hall as [|geoJSON geo l built Hgeo _ IH]; intros acc.
  - simpl. by rewrite app_nil_r.
  - cbn [foldl omap list_omap parse_step]. rewrite Hgeo.
    destruct geo as [cls|]; cbn [fmap option_fmap option_map]; rewrite IH.
    + by rewrite <- (assoc_L (++)).
    + done.
Qed.

Lemma parse_fold_fails (pre post : list GeoJSON) (geoJSON : GeoJSON)
    (built : list (option Class)) (msg : string) (acc : list JsVal) :
  Forall2 (λ geoJSON geo, Geometry_fromJSON geoJSON = Ok geo) pre built →
  Geometry_fromJSON geoJSON = Throw msg →
  foldl (parse_step Geometry_fromJSON) (Ok acc) (pre ++ geoJSON :: post)
  = Throw msg.
Proof.
  intros Hpre Hthrow. rewrite foldl_app, (parse_fold pre built acc Hpre).
  cbn [foldl parse_step]. rewrite Hthrow. apply parse_fold_throw.
Qed.

(** X22 ([fromJSON]).  [fromJSON] returns [null] for no profile and for a
    profile whose type is not ['ClusterLayer'].  For a profile of that
    type with geometries: if [Geometry.fromJSON] throws for an entry,
    having returned for the entries before it, [fromJSON] throws the
    same; if it returns for every entry, [fromJSON] returns a new layer to
    which the geometries built are added, in their order and whatever
    their class, the type check of [addGeometry] rejecting none.  What
    [toJSON] exports is of that type, so [fromJSON] does not return
    [null] for it. *)
Theorem fromJSON_rebuilds_layer :
  fromJSON new_ClusterLayer Geometry_fromJSON super_addGeometry None = Ok None ∧
  (∀ j, is_ClusterLayer (json_type j) = false →
        fromJSON new_ClusterLayer Geometry_fromJSON super_addGeometry (Some j)
        = Ok None) ∧
  (∀ j pre geoJSON post built msg,
     is_ClusterLayer (json_type j) = true →
     json_geometries j = Some (pre ++ geoJSON :: post) →
     Forall2 (λ geoJSON geo, Geometry_fromJSON geoJSON = Ok geo) pre built →
     Geometry_fromJSON geoJSON = Throw msg →
     fromJSON new_ClusterLayer Geometry_fromJSON super_addGeometry (Some j)
     = Throw msg) ∧
  (∀ j geoJSONs built,
     is_ClusterLayer (json_type j) = true →
     json_geometries j = Some geoJSONs →
     Forall2 (λ geoJSON geo, Geometry_fromJSON geoJSON = Ok geo) geoJSONs built →
     fromJSON new_ClusterLayer Geometry_fromJSON super_addGeometry (Some j)
     = Ok (Some (super_addGeometry
                   (new_ClusterLayer (json_id j) (json_options j))
                   (ArgArray (omap (fmap VObject) built))))) ∧
  (∀ layer,
     fromJSON new_ClusterLayer Geometry_fromJSON super_addGeometry
              (Some (toJSON super_toJSON layer)) ≠ Ok None).
Proof.
  split; [done|]. split; [|split; [|split]].
  - intros j Htype. unfold fromJSON. by rewrite Htype.
  - intros j pre geoJSON post built msg Htype Hgeos Hpre Hthrow.
    unfold fromJSON. rewrite Htype, Hgeos. cbn [negb].
    by rewrite (parse_fold_fails pre post geoJSON built msg [] Hpre Hthrow).
  - intros j geoJSONs built Htype Hgeos Hall. unfold fromJSON.
    rewrite Htype, Hgeos. cbn [negb].
    rewrite (parse_fold geoJSONs built [] Hall). cbn [app].
    unfold addGeometry. by rewrite check_loop_false.
  - intros layer. unfold fromJSON, toJSON. cbn [json_type is_ClusterLayer].
    cbn [json_geometries json_id json_options]. simpl.
    destruct (json_geometries (super_toJSON layer)); [|done].
    destruct (foldl _ _ _); [|done].
    unfold addGeometry. by rewrite check_loop_false.
Qed.
End ProfileFacts.

(** ** The cells of the bucketing loop *)

Section BucketCells.
Variable sumProperty : option string.
Variable min : Coordinate.
Variable r : Q.
Variable preT : option Q.
Variable preCache : option LevelResult.

Local Abbreviation step := (bucket_point sumProperty min r preT preCache).

Lemma points_of_cell_snoc (k : Key) (seen : list MarkerPoint) (pt : MarkerPoint) :
  points_of_cell min r k (seen ++ [pt])
  = points_of_cell min r k seen
    ++ (if decide (cellKey min r (px pt) (py pt) = k) then [pt] else []).
Proof.
  unfold points_of_cell. by rewrite filter_app.
Qed.

Lemma bucket_cells (points : list MarkerPoint) (k : Key) :
  let grids := bucket sumProperty min r preT preCache points in
  match points_of_cell min r k points with
  | [] => k ∉ names grids
  | mine => k ∈ names grids ∧
            ∃ c, heap grids !! k = Some c ∧ cell_holds min preT preCache k mine c
  end.
Proof.
  induction points as [|pt seen IH] using rev_ind; [by intros ? ?%elem_of_nil|].
  unfold bucket in *. rewrite foldl_app. cbn [foldl]. cbn zeta in *.
  set (g := foldl step {| names := []; heap := ∅ |} seen) in *.
  rewrite points_of_cell_snoc. unfold bucket_point.
  set (kp := cellKey min r (px pt) (py pt)).
  destruct (decide (kp = k)) as [Hk|Hk].
  - subst k. destruct (points_of_cell min r kp seen) as [|pt0 rest] eqn:Hmine.
    + assert (grids_get g kp = None) as ->.
      { unfold grids_get. by rewrite bool_decide_eq_false_2. }
      cbn [app names heap]. split; [apply elem_of_app; right; by left|].
      eexists. rewrite lookup_insert_eq. split; [done|].
      split; [done|]. split; [done|]. split; [done|]. by exists pt.
    + destruct IH as (Hin & c & Hc & Hkey & Hch & Hcount & pt1 & Hhead & Hparent).
      assert (grids_get g kp = Some c) as ->.
      { apply grids_get_Some. by split. }
      cbn [names heap]. split; [done|]. eexists. rewrite lookup_insert_eq.
      split; [done|]. split; [done|]. cbn [children count parent add_point].
      split; [by rewrite Hch, !fmap_cons, fmap_app|].
      split; [rewrite Hcount; simpl; rewrite length_app; simpl; lia|].
      exists pt1. by split.
  - rewrite app_nil_r.
    assert (∀ g', names g' = names g ∨ names g' = names g ++ [kp] →
                  (k ∈ names g' ↔ k ∈ names g)) as Hnames.
    { intros g' [->| ->]; [done|]. rewrite elem_of_app, list_elem_of_singleton.
      split; [by intros [?|?]|by left]. }
    destruct (points_of_cell min r k seen) as [|pt0 rest] eqn:Hmine.
    + destruct (grids_get g kp); cbn [names]; [done|].
      rewrite elem_of_app, list_elem_of_singleton. by intros [?|?].
    + destruct IH as (Hin & c & Hc & Hholds).
      destruct (grids_get g kp); cbn [names heap].
      * split; [done|]. exists c. by rewrite lookup_insert_ne.
      * split; [apply elem_of_app; by left|]. exists c.
        by rewrite lookup_insert_ne.
Qed.
End BucketCells.

(** X23 (what a cell holds).  After the bucketing loop, with a cell size
    that is not zero, [grids] has a cell under a key exactly when some
    indexed point has that cell key; the children of the cell are the
    markers of the points with that key, in the order of the index, its
    count is their number, its [key] is the key and its [parent] is the
    one looked up for the first of them. *)
Theorem cell_holds_its_points (sumProperty : option string) (min : Coordinate)
    (r : Q) (preT : option Q) (preCache : option LevelResult)
    (points : list MarkerPoint) (k : Key) :
  truthyQ r = true →
  let grids := bucket sumProperty min r preT preCache points in
  match points_of_cell min r k points with
  | [] => grids_get grids k = None
  | mine => ∃ c, grids_get grids k = Some c ∧ cell_holds min preT preCache k mine c
  end.
Proof.
  intros Hr grids.
  pose proof (bucket_cells sumProperty min r preT preCache points k) as Hcells.
  cbn zeta in Hcells. fold grids in Hcells.
  destruct (points_of_cell min r k points) as [|pt0 rest].
  - unfold grids_get. by rewrite bool_decide_eq_false_2.
  - destruct Hcells as (Hin & c & Hc & Hholds). exists c. split; [|done].
    apply grids_get_Some. by split.
Qed.

Lemma cell_holds_its_points_witness :
  truthyQ 10 = true ∧
  let grids := bucket None (getMin scenarioA_extent) 10 None None scenarioA_points in
  match points_of_cell (getMin scenarioA_extent) 10 (Finite 0, Finite 0)
                       scenarioA_points with
  | [] => grids_get grids (Finite 0, Finite 0) = None
  | mine => ∃ c, grids_get grids (Finite 0, Finite 0) = Some c ∧
                 cell_holds (getMin scenarioA_extent) None None
                            (Finite 0, Finite 0) mine c
  end.
Proof.
  split; [reflexivity|].
  apply (cell_holds_its_points None (getMin scenarioA_extent) 10 None None
           scenarioA_points (Finite 0, Finite 0)).
  reflexivity.
Defined.

(** ** The levels a computation caches *)

Lemma computeZoomGrid_rec_fills_all (map : Map) (options : Options) (ext : Extent)
    (points : list MarkerPoint) (n : nat) (zoom z : Z) :
  (zoom - getMinZoom map ≤ Z.of_nat n)%Z →
  (getMinZoom map ≤ z < zoom)%Z →
  is_Some (cache_get (_computeZoomGrid_rec map options (Some ext) points n ∅ zoom).1 z).
Proof.
  revert zoom. induction n as [|n IH]; intros zoom Hn Hz; [lia|].
  rewrite computeZoomGrid_rec_cache, cache_get_empty.
  destruct (Z.leb_spec (getMinZoom map) (zoom - 1)); [|lia].
  destruct (decide (z = zoom - 1)%Z) as [->|Hne].
  - rewrite cache_get_insert. apply computeZoomGrid_rec_is_Some.
  - rewrite cache_get_insert_ne by done. apply IH; lia.
Qed.


(** X25 (the coarsest level has no parents).  When the level [zoom - 1] is
    below the minimum zoom and the cache is coherent, or when the map has
    no resolution for [zoom - 1], no cluster of the level [zoom] has a
    [parent]. *)
Theorem coarsest_level_has_no_parents (map : Map) (options : Options)
    (geoList : list Geometry) (ext : Extent) (points : list MarkerPoint)
    (cache : Cache) (zoom : Z) :
  _initGridSystem geoList = (Some ext, points) →
  ((zoom - 1 < getMinZoom map)%Z ∧ cache_coherent map options ext points cache) ∨
  truthyQ (_getResolution map (zoom - 1)) = false →
  ∃ lr, (_computeZoomGrid map options (Some ext) points cache zoom).2 = Some lr ∧
        ∀ c, c ∈ cluster_list lr → parent c = None.
Proof.
  intros Hinit Hcase.
  assert (Forall point_of_marker points) as Hpts.
  { pose proof (initGridSystem_points geoList) as Hp. by rewrite Hinit in Hp. }
  destruct (level_parent map options ext points cache zoom Hpts)
    as (lr & Hlr & Hparent).
  exists lr. split; [done|]. intros c Hc.
  destruct (Hparent c Hc) as (g0 & rest & _ & ->). unfold parent_of, preT_of.
  destruct Hcase as [[Hmin Hco]| ->]; [|done].
  unfold _computeZoomGrid.
  destruct (computeZoomGrid_rec_coherent map options ext points
              (Z.to_nat (zoom - getMinZoom map)) cache zoom Hco ltac:(lia))
    as [-> _].
  destruct (Z.leb_spec (getMinZoom map) (zoom - 1)); [lia|].
  by destruct (truthyQ (_getResolution map (zoom - 1))).
Qed.

Lemma coarsest_level_has_no_parents_witness :
  _initGridSystem row_geos = (Some row_extent, row_points) ∧
  (((0 - 1 < getMinZoom (example_map 0))%Z ∧
    cache_coherent (example_map 0) (example_options 1) row_extent row_points ∅) ∨
   truthyQ (_getResolution (example_map 0) (0 - 1)) = false) ∧
  ∃ lr, (_computeZoomGrid (example_map 0) (example_options 1) (Some row_extent)
           row_points ∅ 0).2 = Some lr ∧
        ∀ c, c ∈ cluster_list lr → parent c = None.
Proof.
  split; [reflexivity|]. split; [right; reflexivity|].
  apply (coarsest_level_has_no_parents (example_map 0) (example_options 1)
           row_geos row_extent row_points ∅ 0).
  - reflexivity.
  - right. reflexivity.
Defined.

(** X26 (the count of a cluster is the number of its children).  Every
    cluster of a level, whatever the cell size, the keys of the cells and
    the merges, has at least one child and a [count] equal to the number
    of its children. *)
Theorem count_is_number_of_children (map : Map) (options : Options)
    (ext : Extent) (points : list MarkerPoint) (cache : Cache) (zoom : Z) :
  ∃ lr, (_computeZoomGrid map options (Some ext) points cache zoom).2 = Some lr ∧
    ∀ c, c ∈ cluster_list lr →
      count c = length (children c) ∧ (1 ≤ count c)%nat.
Proof.
  eexists. split; [apply computeZoomGrid_eq|].
  intros c (k & _ & Hc)%elem_of_cluster_list. revert k c Hc.
  apply (mergeClusters_heap_all
           (λ c, count c = length (children c) ∧ (1 ≤ count c)%nat)).
  - intros grid t [Hg Hg1] [Ht Ht1]. cbn [merge_into count children].
    rewrite length_app. lia.
  - intros grid Hgrid. exact Hgrid.
  - apply (bucket_heap_all _ _ _ _ _ _ (λ _, True)).
    + intros k pt _. cbn [new_cell count children length]. lia.
    + intros c pt _ [Hc Hc1]. cbn [add_point count children].
      rewrite length_app. cbn [length]. lia.
    + by apply Forall_true.
Qed.
